(** * The entry engine of the query cache (src/queryCache.js)

    A shallow embedding of the reducer ([queryReducer], [switchActions]) and
    of the per-entry fetch engine ([makeQuery]: [dispatch], [cancel],
    [setData], [tryFetchData], [fetch]) together with [prefetchQuery].

    JavaScript objects are mutated in place; here the entry ([query]) and the
    attempts that close over it live in one [world] that every operation
    takes and returns.  Time, the visibility probe and the settlement of the
    caller-supplied fetch operation are inputs of the environment ([event]). *)

From Stdlib Require Import ZArith String List Bool Lia.
Import ListNotations.

Local Open Scope string_scope.
Local Open Scope Z_scope.
Local Open Scope list_scope.

(** ** JavaScript values *)

(** The values that flow through the cache uninspected: data, errors, the
    status and the cancellation marker.  Objects are compared by identity. *)
Inductive value : Type :=
| VUndefined
| VNull
| VBool (b : bool)
| VNum (n : Z)
| VStr (s : string)
| VObj (ref : nat).

(** [a === b] *)
Definition strict_eq (a b : value) : bool :=
  match a, b with
  | VUndefined, VUndefined => true
  | VNull, VNull => true
  | VBool x, VBool y => Bool.eqb x y
  | VNum x, VNum y => Z.eqb x y
  | VStr x, VStr y => String.eqb x y
  | VObj x, VObj y => Nat.eqb x y
  | _, _ => false
  end.

(** Truthiness, as tested by [if (v)] and [!v]. *)
Definition truthy (v : value) : bool :=
  match v with
  | VUndefined | VNull => false
  | VBool b => b
  | VNum n => negb (Z.eqb n 0)
  | VStr s => negb (String.eqb s "")
  | VObj _ => true
  end.

(** [typeof v !== 'undefined'] *)
Definition is_defined (v : value) : bool :=
  match v with VUndefined => false | _ => true end.

(** Modelled from the spec: the status constants of ./utils
    ([status] ranges over idle, loading, success, error). *)
Definition statusIdle : value := VStr "idle".
Definition statusLoading : value := VStr "loading".
Definition statusSuccess : value := VStr "success".
Definition statusError : value := VStr "error".

(** Modelled from the spec: [cancelledError] of ./utils, the sentinel object
    stored in [query.cancelled]; only its identity matters. *)
Definition cancelledError : value := VObj 0.

(** ** The visible snapshot *)

Module State.
Record t : Type := mk {
  status : value;
  error : value;
  isFetching : bool;
  canFetchMore : value;
  failureCount : Z;
  isStale : bool;
  markedForGarbageCollection : bool;
  data : value;
  updatedAt : Z;
  isLoading : bool;
  isSuccess : bool;
  isError : bool;
  isIdle : bool
}.
End State.

(** Modelled from the spec: [functionalUpdate] of ./utils; an updater is
    either a function, applied to the old value, or the new value itself.
    Updaters on data and updaters on the whole state are told apart by
    their type. *)
Inductive updater : Type :=
| DataFn (f : value -> value)
| DataVal (v : value)
| StateFn (f : State.t -> State.t)
| StateVal (s : State.t).

Module Action.
(** An action is an object with a [type] and whatever payload the
    dispatching site put in; payload fields an action does not carry are
    never read by its case. *)
Record t : Type := mk {
  type : string;
  initialStatus : value;
  initialData : value;
  hasInitialData : bool;
  isStale : bool;
  updater : option updater;
  canFetchMore : value;
  cancelled : bool;
  error : value
}.
End Action.

Definition actionInit : string := "Init".
Definition actionFailed : string := "Failed".
Definition actionMarkStale : string := "MarkStale".
Definition actionMarkGC : string := "MarkGC".
Definition actionFetch : string := "Fetch".
Definition actionSuccess : string := "Success".
Definition actionError : string := "Error".
Definition actionSetState : string := "SetState".

(** An action carrying only its type, as in [dispatch({ type: actionFetch })]. *)
Definition bare (ty : string) : Action.t :=
  Action.mk ty VUndefined VUndefined false false None VUndefined false VUndefined.

(** What a call of the reducer does: it returns a state, it throws, or it
    returns an object that is not a snapshot with the thirteen typed fields
    (a spread of [undefined], an updater of the wrong kind). *)
Inductive outcome : Type :=
| Returns (s : State.t)
| Throws
| Untyped.

(** ** Object spread with one field overwritten: [{ ...state, f: v }] *)

Definition with_status (v : value) (s : State.t) : State.t :=
  State.mk v (State.error s) (State.isFetching s) (State.canFetchMore s)
    (State.failureCount s) (State.isStale s)
    (State.markedForGarbageCollection s) (State.data s) (State.updatedAt s)
    (State.isLoading s) (State.isSuccess s) (State.isError s) (State.isIdle s).

Definition with_error (v : value) (s : State.t) : State.t :=
  State.mk (State.status s) v (State.isFetching s) (State.canFetchMore s)
    (State.failureCount s) (State.isStale s)
    (State.markedForGarbageCollection s) (State.data s) (State.updatedAt s)
    (State.isLoading s) (State.isSuccess s) (State.isError s) (State.isIdle s).

Definition with_isFetching (b : bool) (s : State.t) : State.t :=
  State.mk (State.status s) (State.error s) b (State.canFetchMore s)
    (State.failureCount s) (State.isStale s)
    (State.markedForGarbageCollection s) (State.data s) (State.updatedAt s)
    (State.isLoading s) (State.isSuccess s) (State.isError s) (State.isIdle s).

Definition with_canFetchMore (v : value) (s : State.t) : State.t :=
  State.mk (State.status s) (State.error s) (State.isFetching s) v
    (State.failureCount s) (State.isStale s)
    (State.markedForGarbageCollection s) (State.data s) (State.updatedAt s)
    (State.isLoading s) (State.isSuccess s) (State.isError s) (State.isIdle s).

Definition with_failureCount (n : Z) (s : State.t) : State.t :=
  State.mk (State.status s) (State.error s) (State.isFetching s)
    (State.canFetchMore s) n (State.isStale s)
    (State.markedForGarbageCollection s) (State.data s) (State.updatedAt s)
    (State.isLoading s) (State.isSuccess s) (State.isError s) (State.isIdle s).

Definition with_isStale (b : bool) (s : State.t) : State.t :=
  State.mk (State.status s) (State.error s) (State.isFetching s)
    (State.canFetchMore s) (State.failureCount s) b
    (State.markedForGarbageCollection s) (State.data s) (State.updatedAt s)
    (State.isLoading s) (State.isSuccess s) (State.isError s) (State.isIdle s).

Definition with_markedForGarbageCollection (b : bool) (s : State.t) : State.t :=
  State.mk (State.status s) (State.error s) (State.isFetching s)
    (State.canFetchMore s) (State.failureCount s) (State.isStale s)
    b (State.data s) (State.updatedAt s)
    (State.isLoading s) (State.isSuccess s) (State.isError s) (State.isIdle s).

Definition with_data (v : value) (s : State.t) : State.t :=
  State.mk (State.status s) (State.error s) (State.isFetching s)
    (State.canFetchMore s) (State.failureCount s) (State.isStale s)
    (State.markedForGarbageCollection s) v (State.updatedAt s)
    (State.isLoading s) (State.isSuccess s) (State.isError s) (State.isIdle s).

Definition with_updatedAt (n : Z) (s : State.t) : State.t :=
  State.mk (State.status s) (State.error s) (State.isFetching s)
    (State.canFetchMore s) (State.failureCount s) (State.isStale s)
    (State.markedForGarbageCollection s) (State.data s) n
    (State.isLoading s) (State.isSuccess s) (State.isError s) (State.isIdle s).

(** [functionalUpdate(updater, state.data)] *)
Definition functionalUpdate_data (u : option updater) (old : value)
  : option value :=
  match u with
  | Some (DataFn f) => Some (f old)
  | Some (DataVal v) => Some v
  | None => Some VUndefined
  | Some (StateFn _) | Some (StateVal _) => None
  end.

(** [functionalUpdate(updater, state)] followed by the [Object.assign] of
    [queryReducer] on its result: assigning to [undefined] or [null] is a
    TypeError, any other value that is not a snapshot is outside the typed
    states. *)
Definition functionalUpdate_state (u : option updater) (old : State.t)
  : outcome :=
  match u with
  | Some (StateFn f) => Returns (f old)
  | Some (StateVal s) => Returns s
  | None | Some (DataVal VUndefined) | Some (DataVal VNull) => Throws
  | Some (DataVal _) | Some (DataFn _) => Untyped
  end.

(** ** The reducer *)

(** [switchActions(state, action)]; [now] is what [Date.now()] returns and
    [state = None] is the call with [undefined] that builds an entry.  The
    switch looks at the type first, so an unknown type throws whatever the
    state is; with [undefined] the cases that read a field of the state
    throw a TypeError and those that only spread it return a partial
    object.  The object literal of the Init case has no derived flags yet
    (they read [false] here); [queryReducer] assigns them. *)
Definition switchActions (now : Z) (state : option State.t) (action : Action.t)
  : outcome :=
  let ty := Action.type action in
  if String.eqb ty actionInit then
    Returns
      (State.mk
         (Action.initialStatus action)
         VNull
         (negb (Action.hasInitialData action)
          || strict_eq (Action.initialStatus action) (VStr "loading"))
         (VBool false)
         0
         (Action.isStale action)
         false
         (Action.initialData action)
         (if Action.hasInitialData action then now else 0)
         false false false false)
  else if String.eqb ty actionFailed then
    match state with
    | Some s => Returns (with_failureCount (State.failureCount s + 1) s)
    | None => Throws
    end
  else if String.eqb ty actionMarkStale then
    match state with
    | Some s => Returns (with_isStale true s)
    | None => Untyped
    end
  else if String.eqb ty actionMarkGC then
    match state with
    | Some s => Returns (with_markedForGarbageCollection true s)
    | None => Untyped
    end
  else if String.eqb ty actionFetch then
    match state with
    | Some s =>
        Returns
          (with_failureCount 0
             (with_isFetching true
                (with_status
                   (if is_defined (State.data s)
                    then statusSuccess else statusLoading) s)))
    | None => Throws
    end
  else if String.eqb ty actionSuccess then
    match state with
    | Some s =>
        match functionalUpdate_data (Action.updater action) (State.data s) with
        | Some d =>
            Returns
              (with_failureCount 0
                 (with_updatedAt now
                    (with_canFetchMore (Action.canFetchMore action)
                       (with_isFetching false
                          (with_isStale false
                             (with_error VNull
                                (with_data d
                                   (with_status statusSuccess s))))))))
        | None => Untyped
        end
    | None => Throws
    end
  else if String.eqb ty actionError then
    match state with
    | Some s =>
        let s' := with_isStale true (with_isFetching false s) in
        Returns
          (if negb (Action.cancelled action)
           then with_error (Action.error action) (with_status statusError s')
           else s')
    | None => Untyped
    end
  else if String.eqb ty actionSetState then
    match state with
    | Some s => functionalUpdate_state (Action.updater action) s
    | None => Untyped
    end
  else Throws.

(** The [Object.assign] of [queryReducer]: the four derived flags. *)
Definition assign_derived (s : State.t) : State.t :=
  State.mk (State.status s) (State.error s) (State.isFetching s)
    (State.canFetchMore s) (State.failureCount s) (State.isStale s)
    (State.markedForGarbageCollection s) (State.data s) (State.updatedAt s)
    (strict_eq (State.status s) (VStr "loading"))
    (strict_eq (State.status s) (VStr "success"))
    (strict_eq (State.status s) (VStr "error"))
    (strict_eq (State.status s) (VStr "idle")).

Definition queryReducer (now : Z) (state : option State.t) (action : Action.t)
  : outcome :=
  match switchActions now state action with
  | Returns newState => Returns (assign_derived newState)
  | Throws => Throws
  | Untyped => Untyped
  end.

(** ** Configuration, subscribers and the entry *)

(** [config.retry]: a boolean, a count or a predicate on
    [(failureCount, error)]. *)
Inductive retry_option : Type :=
| RetryBool (b : bool)
| RetryCount (n : Z)
| RetryFn (f : Z -> value -> bool).

(** [config.retryDelay]: milliseconds, or a function of the failure count. *)
Inductive delay_option : Type :=
| DelayVal (ms : Z)
| DelayFn (f : Z -> Z).

(** [config.staleTime] and [config.cacheTime]: milliseconds or [Infinity]. *)
Inductive time_option : Type :=
| Infinity
| Millis (ms : Z).

(** [config.initialData]: a value ([undefined] when absent) or a function
    called once at construction; [InitialFn v] is a function returning [v]. *)
Inductive initialData_option : Type :=
| InitialVal (v : value)
| InitialFn (v : value).

Module Config.
Record t : Type := mk {
  enabled : bool;
  retry : retry_option;
  retryDelay : delay_option;
  staleTime : time_option;
  cacheTime : time_option;
  refetchInterval : Z;
  refetchIntervalInBackground : bool;
  initialData : initialData_option;
  isDataEqual : value -> value -> bool;
  onSuccess : bool;
  onError : bool;
  onSettled : bool
}.
End Config.

(** A subscriber.  Its three flags say which of [config.onSuccess],
    [config.onError], [config.onSettled] it has; the callbacks themselves are
    user code, taken to return normally without calling back into the
    cache, and each call is recorded in the log of the world.  The
    [suspenseInstance] of an entry is such a record without an [id]. *)
Record instance : Type := mkInstance {
  id : option nat;
  has_onSuccess : bool;
  has_onError : bool;
  has_onSettled : bool
}.

(** The mutable fields of the entry object built by [makeQuery].  A field
    removed by [delete] is [None]; [cancelled] starts out [undefined]. *)
Record query : Type := mkQuery {
  config : Config.t;
  instances : list instance;
  state : State.t;
  promise : option nat;
  cancelled : value;
  cancelPromises : option nat;
  refetchIntervalId : option nat;
  currentRefetchInterval : option Z;
  shouldContinueRetryOnFocus : option bool;
  wasSuspended : bool;
  suspenseInstance : option instance;
  staleTimeout : option nat;
  cacheTimeout : option nat
}.

Definition set_config (c : Config.t) (q : query) : query :=
  mkQuery c (instances q) (state q) (promise q) (cancelled q)
    (cancelPromises q) (refetchIntervalId q) (currentRefetchInterval q)
    (shouldContinueRetryOnFocus q) (wasSuspended q) (suspenseInstance q)
    (staleTimeout q) (cacheTimeout q).

Definition set_instances (l : list instance) (q : query) : query :=
  mkQuery (config q) l (state q) (promise q) (cancelled q)
    (cancelPromises q) (refetchIntervalId q) (currentRefetchInterval q)
    (shouldContinueRetryOnFocus q) (wasSuspended q) (suspenseInstance q)
    (staleTimeout q) (cacheTimeout q).

Definition set_state (s : State.t) (q : query) : query :=
  mkQuery (config q) (instances q) s (promise q) (cancelled q)
    (cancelPromises q) (refetchIntervalId q) (currentRefetchInterval q)
    (shouldContinueRetryOnFocus q) (wasSuspended q) (suspenseInstance q)
    (staleTimeout q) (cacheTimeout q).

Definition set_promise (p : option nat) (q : query) : query :=
  mkQuery (config q) (instances q) (state q) p (cancelled q)
    (cancelPromises q) (refetchIntervalId q) (currentRefetchInterval q)
    (shouldContinueRetryOnFocus q) (wasSuspended q) (suspenseInstance q)
    (staleTimeout q) (cacheTimeout q).

Definition set_cancelled (v : value) (q : query) : query :=
  mkQuery (config q) (instances q) (state q) (promise q) v
    (cancelPromises q) (refetchIntervalId q) (currentRefetchInterval q)
    (shouldContinueRetryOnFocus q) (wasSuspended q) (suspenseInstance q)
    (staleTimeout q) (cacheTimeout q).

Definition set_cancelPromises (h : option nat) (q : query) : query :=
  mkQuery (config q) (instances q) (state q) (promise q) (cancelled q)
    h (refetchIntervalId q) (currentRefetchInterval q)
    (shouldContinueRetryOnFocus q) (wasSuspended q) (suspenseInstance q)
    (staleTimeout q) (cacheTimeout q).

Definition set_interval (i : option nat) (ms : option Z) (q : query) : query :=
  mkQuery (config q) (instances q) (state q) (promise q) (cancelled q)
    (cancelPromises q) i ms
    (shouldContinueRetryOnFocus q) (wasSuspended q) (suspenseInstance q)
    (staleTimeout q) (cacheTimeout q).

Definition set_shouldContinueRetryOnFocus (b : option bool) (q : query)
  : query :=
  mkQuery (config q) (instances q) (state q) (promise q) (cancelled q)
    (cancelPromises q) (refetchIntervalId q) (currentRefetchInterval q)
    b (wasSuspended q) (suspenseInstance q)
    (staleTimeout q) (cacheTimeout q).

Definition set_suspenseInstance (i : option instance) (q : query) : query :=
  mkQuery (config q) (instances q) (state q) (promise q) (cancelled q)
    (cancelPromises q) (refetchIntervalId q) (currentRefetchInterval q)
    (shouldContinueRetryOnFocus q) (wasSuspended q) i
    (staleTimeout q) (cacheTimeout q).

Definition set_staleTimeout (t : option nat) (q : query) : query :=
  mkQuery (config q) (instances q) (state q) (promise q) (cancelled q)
    (cancelPromises q) (refetchIntervalId q) (currentRefetchInterval q)
    (shouldContinueRetryOnFocus q) (wasSuspended q) (suspenseInstance q)
    t (cacheTimeout q).

Definition set_cacheTimeout (t : option nat) (q : query) : query :=
  mkQuery (config q) (instances q) (state q) (promise q) (cancelled q)
    (cancelPromises q) (refetchIntervalId q) (currentRefetchInterval q)
    (shouldContinueRetryOnFocus q) (wasSuspended q) (suspenseInstance q)
    (staleTimeout q) t.

(** ** The world around one entry *)

(** How a promise settles. *)
Inductive settlement : Type :=
| Resolved (v : value)
| Rejected (e : value).

(** Where the body of a [fetch] call is suspended: on the promise returned
    by the [call]-th invocation of the fetch operation, on the retry timer
    [timer], or for good on [new Promise(noop)]. *)
Inductive phase : Type :=
| AwaitQueryFn (call : nat)
| AwaitRetryTimer (timer : nat) (delay : Z)
| Parked.

(** The suspended body of one [fetch] call: the promise it settles,
    the subscribers it captured at its start and the number of retry
    promises ([setTimeout] callbacks of [tryFetchData]) around the innermost
    [tryFetchData]. *)
Record attempt : Type := mkAttempt {
  owner : nat;
  callbackInstances : list instance;
  depth : nat;
  waiting : phase
}.

(** What the entry does to the outside, in the order it happens. *)
Inductive effect : Type :=
| OnStateUpdate (subscriber : option nat) (s : State.t)
| NotifyGlobalListeners (entryIsFetching : bool)
| InvokeQueryFn (call : nat)
| CancelHook (call : nat)
| ClearInterval (handle : option nat)
| SetInterval (handle : nat) (ms : Z)
| ClearTimeout (handle : option nat)
| SetTimeout (handle : nat) (ms : Z)
| OnSuccess (subscriber : option nat) (data : value)
| OnError (subscriber : option nat) (err : value)
| OnSettled (subscriber : option nat) (data : value) (err : value).

Record world : Type := mkWorld {
  entry : query;
  attempts : list attempt;
  promises : list (nat * settlement);
  fresh : nat;
  invocations : nat;
  documentVisible : bool;
  clock : Z;
  log : list effect
}.

Definition on_entry (f : query -> query) (w : world) : world :=
  mkWorld (f (entry w)) (attempts w) (promises w) (fresh w) (invocations w)
    (documentVisible w) (clock w) (log w).

Definition set_attempts (l : list attempt) (w : world) : world :=
  mkWorld (entry w) l (promises w) (fresh w) (invocations w)
    (documentVisible w) (clock w) (log w).

Definition emit (e : effect) (w : world) : world :=
  mkWorld (entry w) (attempts w) (promises w) (fresh w) (invocations w)
    (documentVisible w) (clock w) (log w ++ [e]).

Definition emit_all (l : list effect) (w : world) : world :=
  mkWorld (entry w) (attempts w) (promises w) (fresh w) (invocations w)
    (documentVisible w) (clock w) (log w ++ l).

(** A new handle (promise, timer, interval or subscriber id). *)
Definition allocate (w : world) : nat * world :=
  (fresh w,
   mkWorld (entry w) (attempts w) (promises w) (S (fresh w)) (invocations w)
     (documentVisible w) (clock w) (log w)).

(** The promise [p] settles. *)
Definition settle (p : nat) (r : settlement) (w : world) : world :=
  mkWorld (entry w) (attempts w) ((p, r) :: promises w) (fresh w)
    (invocations w) (documentVisible w) (clock w) (log w).

Definition set_documentVisible (b : bool) (w : world) : world :=
  mkWorld (entry w) (attempts w) (promises w) (fresh w) (invocations w)
    b (clock w) (log w).

Definition set_clock (t : Z) (w : world) : world :=
  mkWorld (entry w) (attempts w) (promises w) (fresh w) (invocations w)
    (documentVisible w) t (log w).

Fixpoint settlement_of (p : nat) (l : list (nat * settlement))
  : option settlement :=
  match l with
  | [] => None
  | (p', r) :: l' => if Nat.eqb p p' then Some r else settlement_of p l'
  end.

(** The first attempt selected by [sel], and the others. *)
Fixpoint take_attempt (sel : attempt -> bool) (l : list attempt)
  : option (attempt * list attempt) :=
  match l with
  | [] => None
  | a :: l' =>
      if sel a then Some (a, l')
      else match take_attempt sel l' with
           | Some (b, rest) => Some (b, a :: rest)
           | None => None
           end
  end.

Definition awaits_call (call : nat) (a : attempt) : bool :=
  match waiting a with AwaitQueryFn c => Nat.eqb c call | _ => false end.

Definition awaits_timer (timer : nat) (a : attempt) : bool :=
  match waiting a with AwaitRetryTimer t _ => Nat.eqb t timer | _ => false end.

Definition owned_by (p : nat) (a : attempt) : bool := Nat.eqb (owner a) p.

Definition count_invocation (w : world) : world :=
  mkWorld (entry w) (attempts w) (promises w) (fresh w) (S (invocations w))
    (documentVisible w) (clock w) (log w).

(** ** The operations of an entry ([makeQuery]) *)

(** Recomputes [queryCache.isFetching] and calls every listener. *)
Definition notifyGlobalListeners (w : world) : world :=
  emit (NotifyGlobalListeners (State.isFetching (state (entry w)))) w.

(** [dispatch(action)].  A reducer call that throws leaves the entry as it
    was; the actions dispatched by the entry itself always return (see
    [dispatch_internal_returns]). *)
Definition dispatch (action : Action.t) (w : world) : world :=
  match queryReducer (clock w) (Some (state (entry w))) action with
  | Returns s =>
      let w := on_entry (set_state s) w in
      let w :=
        emit_all (map (fun d => OnStateUpdate (id d) s) (instances (entry w)))
          w in
      notifyGlobalListeners w
  | Throws | Untyped => w
  end.

Definition scheduleStaleTimeout (w : world) : world :=
  let w := emit (ClearTimeout (staleTimeout (entry w))) w in
  match Config.staleTime (config (entry w)) with
  | Infinity => w
  | Millis ms =>
      let (t, w) := allocate w in
      emit (SetTimeout t ms) (on_entry (set_staleTimeout (Some t)) w)
  end.

Definition invalidate (w : world) : world :=
  let w := emit (ClearTimeout (staleTimeout (entry w))) w in
  dispatch (bare actionMarkStale) w.

Definition scheduleGarbageCollection (w : world) : world :=
  match Config.cacheTime (config (entry w)) with
  | Infinity => w
  | Millis ms =>
      let w := dispatch (bare actionMarkGC) w in
      let (t, w) := allocate w in
      let st := state (entry w) in
      let delay :=
        if negb (is_defined (State.data st))
           && negb (strict_eq (State.status st) (VStr "error"))
        then 0 else ms in
      emit (SetTimeout t delay) (on_entry (set_cacheTimeout (Some t)) w)
  end.

Definition heal (w : world) : world :=
  let w := emit (ClearTimeout (cacheTimeout (entry w))) w in
  on_entry (set_cancelled VNull) w.

Definition cancelInterval (w : world) : world :=
  let w := emit (ClearInterval (refetchIntervalId (entry w))) w in
  on_entry (set_interval None None) w.

Definition cancel (w : world) : world :=
  let w := on_entry (set_cancelled cancelledError) w in
  let w := cancelInterval w in
  let w :=
    match cancelPromises (entry w) with
    | Some call => emit (CancelHook call) w
    | None => w
    end in
  let w := on_entry (set_promise None) w in
  notifyGlobalListeners w.

Definition setState (u : option updater) (w : world) : world :=
  dispatch
    (Action.mk actionSetState VUndefined VUndefined false false u VUndefined
       false VUndefined) w.

Definition setData (u : option updater) (w : world) : world :=
  let w :=
    dispatch
      (Action.mk actionSuccess VUndefined VUndefined false false u VUndefined
         false VUndefined) w in
  scheduleStaleTimeout w.

(** [query.subscribe], with the flags that [updateConfig] gives the new
    instance. *)
Definition subscribe (s e t : bool) (w : world) : nat * world :=
  let (i, w) := allocate w in
  let inst := mkInstance (Some i) s e t in
  let w := on_entry (fun q => set_instances (instances q ++ [inst]) q) w in
  (i, heal w).

Definition same_id (i : option nat) (d : instance) : bool :=
  match id d, i with
  | Some a, Some b => Nat.eqb a b
  | None, None => true
  | _, _ => false
  end.

(** [instance.unsubscribe] of the instance with id [i]. *)
Definition unsubscribe (i : nat) (w : world) : world :=
  let w :=
    on_entry
      (fun q =>
         set_instances
           (filter (fun d => negb (same_id (Some i) d)) (instances q)) q) w in
  match instances (entry w) with
  | [] => scheduleGarbageCollection (cancel w)
  | _ :: _ => w
  end.

(** The retry test of [tryFetchData]:
    [retry === true || failureCount <= retry ||
     (typeof retry === 'function' && retry(failureCount, error))];
    in the comparison [false] counts as 0, [true] as 1 and a function as
    NaN. *)
Definition should_retry (r : retry_option) (failureCount : Z) (error : value)
  : bool :=
  match r with RetryBool true => true | _ => false end
  || match r with
     | RetryBool false => failureCount <=? 0
     | RetryBool true => failureCount <=? 1
     | RetryCount n => failureCount <=? n
     | RetryFn _ => false
     end
  || match r with RetryFn f => f failureCount error | _ => false end.

(** [functionalUpdate(query.config.retryDelay, query.state.failureCount)] *)
Definition functionalUpdate_delay (d : delay_option) (failureCount : Z) : Z :=
  match d with
  | DelayVal ms => ms
  | DelayFn f => f failureCount
  end.

(** How a call of [tryFetchData] ends once the promise it awaits settles:
    it returns data, throws, waits for a retry timer or parks on a promise
    that never settles. *)
Inductive completion : Type :=
| Return (data : value)
| Throw (error : value)
| Retry (delay : Z)
| Park.

(** [tryFetchData] up to its [await]: the fetch operation is invoked and the
    cancel hook of its promise is stored.  The operation is taken to return
    a promise; the environment settles it later. *)
Definition tryFetchData (w : world) : nat * world :=
  let call := invocations w in
  let w := emit (InvokeQueryFn call) (count_invocation w) in
  (call, on_entry (set_cancelPromises (Some call)) w).

(** [tryFetchData] from its [await] on, once the operation's promise has
    settled with [r]. *)
Definition tryFetchData_settled (r : settlement) (w : world)
  : completion * world :=
  match r with
  | Resolved data =>
      let w := on_entry (set_shouldContinueRetryOnFocus None) w in
      let w := on_entry (set_cancelPromises None) w in
      if truthy (cancelled (entry w)) then (Throw (cancelled (entry w)), w)
      else (Return data, w)
  | Rejected error =>
      let w := on_entry (set_cancelPromises None) w in
      if truthy (cancelled (entry w)) then (Throw (cancelled (entry w)), w)
      else
        let w := dispatch (bare actionFailed) w in
        let cfg := config (entry w) in
        let failureCount := State.failureCount (state (entry w)) in
        if should_retry (Config.retry cfg) failureCount error then
          if negb (documentVisible w) then
            (Park, on_entry (set_shouldContinueRetryOnFocus (Some true)) w)
          else
            let w := on_entry (set_shouldContinueRetryOnFocus None) w in
            (Retry (functionalUpdate_delay (Config.retryDelay cfg) failureCount),
             w)
        else (Throw error, w)
  end.

(** The [setTimeout] callback around a retried [tryFetchData]: whatever the
    inner call did, a cancelled entry rejects with the marker. *)
Definition retry_callback (w : world) (c : completion) : completion :=
  match c with
  | Return _ | Throw _ =>
      if truthy (cancelled (entry w)) then Throw (cancelled (entry w)) else c
  | Retry _ | Park => c
  end.

(** A settlement travels outwards through [depth] such callbacks; the chain
    of continuations runs as one step. *)
Fixpoint through_retries (depth : nat) (w : world) (c : completion)
  : completion :=
  match depth with
  | O => c
  | S d => through_retries d w (retry_callback w c)
  end.

Definition calls_onSuccess (data : value) (l : list instance) : list effect :=
  map (fun i => OnSuccess (id i) data) (filter has_onSuccess l).

Definition calls_onError (error : value) (l : list instance) : list effect :=
  map (fun i => OnError (id i) error) (filter has_onError l).

Definition calls_onSettled (data error : value) (l : list instance)
  : list effect :=
  map (fun i => OnSettled (id i) data error) (filter has_onSettled l).

(** The body of [query.fetch] after [await tryFetchData(...)]. *)
Definition fetch_continue (a : attempt) (c : completion) (w : world) : world :=
  match c with
  | Return data =>
      let w :=
        setData
          (Some (DataFn (fun old =>
             if Config.isDataEqual (config (entry w)) old data
             then old else data))) w in
      let current := State.data (state (entry w)) in
      let w := emit_all (calls_onSuccess current (callbackInstances a)) w in
      let w := emit_all (calls_onSettled current VNull (callbackInstances a)) w in
      let w := on_entry (set_promise None) w in
      settle (owner a) (Resolved data) w
  | Throw error =>
      let w :=
        dispatch
          (Action.mk actionError VUndefined VUndefined false false None
             VUndefined (strict_eq error (cancelled (entry w))) error) w in
      let w := on_entry (set_promise None) w in
      if negb (strict_eq error (cancelled (entry w))) then
        let w := emit_all (calls_onError error (callbackInstances a)) w in
        let w :=
          emit_all (calls_onSettled VUndefined error (callbackInstances a)) w in
        settle (owner a) (Rejected error) w
      else settle (owner a) (Resolved VUndefined) w
  | Retry delay =>
      let (t, w) := allocate w in
      let w := emit (SetTimeout t delay) w in
      set_attempts
        (mkAttempt (owner a) (callbackInstances a) (depth a)
           (AwaitRetryTimer t delay) :: attempts w) w
  | Park =>
      set_attempts
        (mkAttempt (owner a) (callbackInstances a) (depth a) Parked
           :: attempts w) w
  end.

(** [query.fetch()]: the operation the caller waits for and the world after
    the synchronous part of the call.  [fetch] is an [async] function that
    returns [query.promise]: the promise the caller holds settles as
    [query.promise] does, and the two are not told apart here.  The body of
    the inner [async] function runs up to its first [await] before
    [query.promise] is assigned. *)
Definition fetch (w : world) : nat * world :=
  match promise (entry w) with
  | Some p => (p, w)
  | None =>
      let (p, w) := allocate w in
      let w := on_entry (set_cancelled VNull) w in
      let callbackInstances :=
        (if wasSuspended (entry w)
         then match suspenseInstance (entry w) with
              | Some i => [i]
              | None => []
              end
         else [])
        ++ instances (entry w) in
      let w := dispatch (bare actionFetch) w in
      let (call, w) := tryFetchData w in
      let w :=
        set_attempts
          (mkAttempt p callbackInstances 0 (AwaitQueryFn call) :: attempts w)
          w in
      (p, on_entry (set_promise (Some p)) w)
  end.

(** The promise returned by invocation [call] of the fetch operation
    settles. *)
Definition queryFn_settles (call : nat) (r : settlement) (w : world) : world :=
  match take_attempt (awaits_call call) (attempts w) with
  | None => w
  | Some (a, rest) =>
      let w := set_attempts rest w in
      let (c, w) := tryFetchData_settled r w in
      fetch_continue a (through_retries (depth a) w c) w
  end.

(** The retry timer [timer] fires. *)
Definition retryTimer_fires (timer : nat) (w : world) : world :=
  match take_attempt (awaits_timer timer) (attempts w) with
  | None => w
  | Some (a, rest) =>
      let w := set_attempts rest w in
      if truthy (cancelled (entry w)) then
        fetch_continue a
          (through_retries (depth a) w (Throw (cancelled (entry w)))) w
      else
        let (call, w) := tryFetchData w in
        set_attempts
          (mkAttempt (owner a) (callbackInstances a) (S (depth a))
             (AwaitQueryFn call) :: attempts w) w
  end.

(** The interval set by [buildQuery] ticks. *)
Definition interval_fires (handle : nat) (w : world) : world :=
  match refetchIntervalId (entry w) with
  | Some h =>
      if Nat.eqb h handle
         && (documentVisible w
             || Config.refetchIntervalInBackground (config (entry w)))
      then snd (fetch w) else w
  | None => w
  end.

(** ** Construction and the directory operations on one entry *)

(** [makeQuery({ ..., config })] at time [now]; [None] if the reducer did
    not return a state (it always does, see [makeQuery_returns]). *)
Definition makeQuery (cfg : Config.t) (now : Z) : option query :=
  let initialData :=
    match Config.initialData cfg with
    | InitialFn v => v
    | InitialVal v => v
    end in
  let hasInitialData := is_defined initialData in
  let isStale := negb (Config.enabled cfg) || negb hasInitialData in
  let initialStatus :=
    if hasInitialData then statusSuccess
    else if Config.enabled cfg then statusLoading
    else statusIdle in
  match
    queryReducer now None
      (Action.mk actionInit initialStatus initialData hasInitialData isStale
         None VUndefined false VUndefined)
  with
  | Returns s =>
      Some (mkQuery cfg [] s None VUndefined None None None None false None
              None None)
  | Throws | Untyped => None
  end.

(** What [queryCache.queries[queryHash]] holds when [buildQuery] looks:
    nothing (then the time and the visibility of the document are all the
    new world starts from) or the entry with its world. *)
Inductive lookup : Type :=
| Missing (now : Z) (visible : bool)
| Found (w : world).

(** [buildQuery] from [query.suspenseInstance = ...] on (in a browser:
    [isServer] is false); [cfg] is the merged configuration. *)
Definition buildQuery_finish (cfg : Config.t) (w : world) : world :=
  let c := config (entry w) in
  let w :=
    on_entry
      (set_suspenseInstance
         (Some (mkInstance None (Config.onSuccess c) (Config.onError c)
                  (Config.onSettled c)))) w in
  let w := cancelInterval w in
  if negb (Config.refetchInterval cfg =? 0) then
    let (h, w) := allocate w in
    let ms := Config.refetchInterval cfg in
    emit (SetInterval h ms) (on_entry (set_interval (Some h) (Some ms)) w)
  else w.

(** [buildQuery] for a key whose entry exists: [Object.assign(query, {
    queryFn, config })], then the common end. *)
Definition buildQuery_existing (cfg : Config.t) (w : world) : world :=
  buildQuery_finish cfg (on_entry (set_config cfg) w).

Definition buildQuery (cfg : Config.t) (l : lookup) : option world :=
  match l with
  | Found w => Some (buildQuery_existing cfg w)
  | Missing now visible =>
      match makeQuery cfg now with
      | None => None
      | Some q =>
          let w := mkWorld q [] [] 0 0 visible now [] in
          let w :=
            if truthy (State.data (state (entry w))) then
              scheduleGarbageCollection (heal (scheduleStaleTimeout w))
            else w in
          (* the deferred notifyGlobalListeners *)
          let (t, w) := allocate w in
          let w := emit (SetTimeout t 0) w in
          Some (buildQuery_finish cfg w)
      end
  end.

(** [queryCache.prefetchQuery] up to [await query.fetch()]: the promise it
    waits for and the world at that point. *)
Definition prefetchQuery (cfg : Config.t) (l : lookup) : option (nat * world) :=
  match buildQuery cfg l with
  | Some w => Some (fetch w)
  | None => None
  end.

(** [prefetchQuery] after the [await], in the world where the promise [p] of
    [query.fetch()] has settled: how its own promise settles ([None] while
    [p] is pending). *)
Definition prefetchQuery_settled (throwOnError : value) (p : nat) (w : world)
  : option settlement :=
  match settlement_of p (promises w) with
  | None => None
  | Some (Rejected err) =>
      if truthy throwOnError then Some (Rejected err)
      else Some (Resolved (State.data (state (entry w))))
  | Some (Resolved _) => Some (Resolved (State.data (state (entry w))))
  end.

(** ** Runs *)

(** What can happen to an entry: calls from the outside and inputs of the
    environment. *)
Inductive event : Type :=
| CallFetch
| CallCancel
| CallSetData (u : option updater)
| CallSetState (u : option updater)
| CallInvalidate
| CallSubscribe (onSuccess onError onSettled : bool)
| CallUnsubscribe (i : nat)
| CallBuildQuery (cfg : Config.t)
| QueryFnSettles (call : nat) (r : settlement)
| RetryTimerFires (timer : nat)
| IntervalFires (handle : nat)
| VisibilityChanges (visible : bool)
| TimePasses (now : Z).

Definition step (e : event) (w : world) : world :=
  match e with
  | CallFetch => snd (fetch w)
  | CallCancel => cancel w
  | CallSetData u => setData u w
  | CallSetState u => setState u w
  | CallInvalidate => invalidate w
  | CallSubscribe s e t => snd (subscribe s e t w)
  | CallUnsubscribe i => unsubscribe i w
  | CallBuildQuery cfg => buildQuery_existing cfg w
  | QueryFnSettles call r => queryFn_settles call r w
  | RetryTimerFires timer => retryTimer_fires timer w
  | IntervalFires handle => interval_fires handle w
  | VisibilityChanges visible => set_documentVisible visible w
  | TimePasses now => set_clock now w
  end.

Definition run (es : list event) (w : world) : world :=
  fold_left (fun w e => step e w) es w.


(** The fetch behind promise [p] left to itself: the environment settles
    each invocation of the operation as [answer] says and lets each retry
    timer fire; nothing else happens.  It stops when the body has finished
    (or is parked). *)
Fixpoint drive (fuel : nat) (answer : nat -> settlement) (p : nat) (w : world)
  : world :=
  match fuel with
  | O => w
  | S k =>
      match take_attempt (owned_by p) (attempts w) with
      | Some (a, _) =>
          match waiting a with
          | AwaitQueryFn call =>
              drive k answer p (step (QueryFnSettles call (answer call)) w)
          | AwaitRetryTimer timer _ =>
              drive k answer p (step (RetryTimerFires timer) w)
          | Parked => w
          end
      | None => w
      end
  end.


(** The eight action types of the reducer. *)
Definition known_types : list string :=
  [actionInit; actionFailed; actionMarkStale; actionMarkGC; actionFetch;
   actionSuccess; actionError; actionSetState].

(** The claims of the specification that the code does not satisfy as they
    are worded, stated in the words of the specification. *)

(** "updatedAt changes only when the Success transition is applied". *)
Definition updatedAt_changes_only_on_success : Prop :=
  forall now s a s',
    queryReducer now (Some s) a = Returns s' ->
    State.updatedAt s' <> State.updatedAt s ->
    Action.type a = actionSuccess.


(** "cancelling an entry with no in-flight operation is a no-op": the entry
    is as it was and nothing is done to the outside. *)
Definition cancel_is_noop (w : world) : Prop :=
  entry (cancel w) = entry w /\ log (cancel w) = log w.

(** "cancelling twice has the same effect as once": same entry, same
    effects. *)
Definition cancel_twice_as_once (w : world) : Prop :=
  entry (cancel (cancel w)) = entry (cancel w)
  /\ log (cancel (cancel w)) = log (cancel w).

Definition cancellation_idempotence : Prop :=
  (forall w, promise (entry w) = None -> cancel_is_noop w)
  /\ (forall w, cancel_twice_as_once w).

(** "isFetching is true iff there is no initial data and the entry is
    enabled", at construction. *)
Definition init_isFetching_as_specified (cfg : Config.t) (q : query) : Prop :=
  State.isFetching (state q) = true <->
  (is_defined
     (match Config.initialData cfg with InitialFn v | InitialVal v => v end)
   = false
   /\ Config.enabled cfg = true).

(** How many of the four derived flags of a snapshot are set. *)
Definition derived_flags_set (s : State.t) : nat :=
  (Nat.b2n (State.isLoading s) + Nat.b2n (State.isSuccess s)
   + Nat.b2n (State.isError s) + Nat.b2n (State.isIdle s))%nat.

(** ** Concrete entries used as examples *)

Definition example_config (enabled : bool) (retry : retry_option)
  (refetchInterval : Z) (initial : value) : Config.t :=
  Config.mk enabled retry (DelayVal 1000) (Millis 0) (Millis 300000)
    refetchInterval false (InitialVal initial) strict_eq false false false.

Definition example_state : State.t :=
  State.mk statusSuccess VNull false (VBool false) 0 false false (VNum 7) 100
    false true false false.

(** An entry without data and with two retries, as [buildQuery] makes it
    for a new key at time 5 in a visible document (see
    [example_world_built]). *)
Definition example_world : world :=
  mkWorld
    (mkQuery (example_config true (RetryCount 2) 0 VUndefined) []
       (State.mk statusLoading VNull true (VBool false) 0 true false
          VUndefined 0 true false false false)
       None VUndefined None None None None false
       (Some (mkInstance None false false false)) None None)
    [] [] 1 0 true 5 [SetTimeout 0 0; ClearInterval None].

(** The same entry rebuilt with a refetch interval of one second. *)
Definition example_polling_world : world :=
  step (CallBuildQuery (example_config true (RetryCount 2) 1000 VUndefined))
    example_world.

(** Every invocation of the fetch operation rejects with [e]. *)
Definition always_rejects (e : value) : nat -> settlement :=
  fun _ => Rejected e.

(** The calls of the cancel hook a [cancel] makes: one if a hook is
    stored. *)
Definition cancel_hook_calls (w : world) : list effect :=
  match cancelPromises (entry w) with
  | Some call => [CancelHook call]
  | None => []
  end.

(** The fetch behind promise [p], started in the world [base], is suspended
    in phase [ph] after [failures] failed attempts and [calls] invocations
    of the operation, and nothing else has happened to the entry since. *)
Record in_flight (p : nat) (ph : phase) (failures : Z) (calls : nat)
  (base w : world) : Prop := {
  its_attempt :
    exists cbs d, attempts w = mkAttempt p cbs d ph :: attempts base;
  not_cancelled : cancelled (entry w) = VNull;
  same_config : config (entry w) = config (entry base);
  same_visibility : documentVisible w = documentVisible base;
  same_promises : promises w = promises base;
  same_data : State.data (state (entry w)) = State.data (state (entry base));
  status_fetching :
    State.status (state (entry w))
    = if is_defined (State.data (state (entry base)))
      then statusSuccess else statusLoading;
  failures_so_far : State.failureCount (state (entry w)) = failures;
  calls_so_far : invocations w = (invocations base + calls)%nat
}.

(** What a fetch that ended in failure with reason [e] leaves behind, when
    it was started in [base], made [calls] invocations and counted
    [failures] failures. *)
Definition failed_with (p : nat) (e : value) (failures : Z) (calls : nat)
  (base final : world) : Prop :=
  attempts final = attempts base
  /\ invocations final = (invocations base + calls)%nat
  /\ State.failureCount (state (entry final)) = failures
  /\ promise (entry final) = None
  /\ State.isFetching (state (entry final)) = false
  /\ State.data (state (entry final)) = State.data (state (entry base))
  /\ (e <> VNull ->
      State.status (state (entry final)) = statusError
      /\ State.error (state (entry final)) = e
      /\ settlement_of p (promises final) = Some (Rejected e))
  /\ (e = VNull ->
      State.status (state (entry final))
      = (if is_defined (State.data (state (entry base)))
         then statusSuccess else statusLoading)
      /\ settlement_of p (promises final) = Some (Resolved VUndefined)).

(** ** Observations on runs *)

(** A call of a subscriber callback: [onSuccess], [onError] or
    [onSettled]. *)
Definition is_callback (e : effect) : bool :=
  match e with
  | OnSuccess _ _ | OnError _ _ | OnSettled _ _ _ => true
  | _ => false
  end.

(** The calls of subscriber callbacks among the effects [l], in order. *)
Definition callbacks_in (l : list effect) : list effect :=
  filter is_callback l.

(** The data a successful fetch leaves in the state: [isDataEqual] decides
    whether the cached value is kept. *)
Definition committed_data (w : world) (data : value) : value :=
  let old := State.data (state (entry w)) in
  if Config.isDataEqual (config (entry w)) old data then old else data.

(** Every suspended fetch body is parked on a promise that never settles. *)
Definition all_parked (w : world) : Prop :=
  Forall (fun a => waiting a = Parked) (attempts w).

(** The events that are not a call of [cancel], [setData], [setState],
    [invalidate], [subscribe], [unsubscribe] or [buildQuery]: inputs of the
    environment and calls of [fetch]. *)
Definition passive (e : event) : bool :=
  match e with
  | CallFetch | QueryFnSettles _ _ | RetryTimerFires _ | IntervalFires _
  | VisibilityChanges _ | TimePasses _ => true
  | _ => false
  end.

(** [instance.run()] up to its [await]: the mount-time refetch.
    [refetchOnMount] is [query.config.refetchOnMount]; the instance has
    subscribed before, so it is one of [query.instances]. *)
Definition instance_run (refetchOnMount : bool) (w : world)
  : option nat * world :=
  let q := entry w in
  if Config.enabled (config q)
     && negb (wasSuspended q)
     && State.isStale (state q)
     && (refetchOnMount || Nat.eqb (length (instances q)) 1)
  then (Some (fst (fetch w)), snd (fetch w))
  else (None, w).


(** [query.clear()] *)
Definition query_clear (w : world) : world :=
  let w := emit (ClearTimeout (staleTimeout (entry w))) w in
  let w := emit (ClearTimeout (cacheTimeout (entry w))) w in
  cancel w.

(** [query.remove()] as far as the entry object goes; the deletion from
    [queryCache.queries] is in [cache_remove]. *)
Definition query_remove (w : world) : world :=
  let w := cancel w in
  let w := emit (ClearTimeout (staleTimeout (entry w))) w in
  emit (ClearTimeout (cacheTimeout (entry w))) w.

(** What a fetch that ended in success with data [d] leaves behind, when it
    was started in [base] and made [calls] invocations. *)
Definition succeeded_with (p : nat) (d : value) (calls : nat)
  (base final : world) : Prop :=
  attempts final = attempts base
  /\ invocations final = (invocations base + calls)%nat
  /\ promise (entry final) = None
  /\ State.isFetching (state (entry final)) = false
  /\ State.status (state (entry final)) = statusSuccess
  /\ State.data (state (entry final)) = committed_data base d
  /\ State.error (state (entry final)) = VNull
  /\ State.failureCount (state (entry final)) = 0
  /\ State.isStale (state (entry final)) = false
  /\ promises final = (p, Resolved d) :: promises base.

(** ** The directory *)

(** Modelled from the spec: the key codec of ./config and ./utils, which is
    not part of this file.  [queryKeySerializerFn] turns a caller's key into
    the hash and the canonical key; [deepIncludes a b] says whether the
    canonical key [b] is included in [a].  Both are taken as given; keys are
    not mutated behind the directory's back. *)
Record codec : Type := mkCodec {
  queryKeySerializerFn : value -> string * list value;
  deepIncludes : list value -> list value -> bool
}.

(** An entry object as the directory sees it: the two fields [makeQuery]
    never changes and the mutable rest. *)
Record cached : Type := mkCached {
  queryKey : list value;
  queryHash : string;
  fields : query
}.

(** The cache: [queries] is [queryCache.queries] (a hash names an entry
    object; the list is in the order in which [Object.values] lists the
    entries, see [insert_property]), [objects] holds every entry object made so
    far, registered or not, and [bodies] the suspended [fetch] bodies, each
    with the object it closes over.  The rest is what [world] has. *)
Record cache : Type := mkCache {
  queries : list (string * nat);
  objects : list (nat * cached);
  bodies : list (nat * attempt);
  c_promises : list (nat * settlement);
  c_fresh : nat;
  c_invocations : nat;
  c_visible : bool;
  c_clock : Z;
  c_log : list effect
}.

Definition set_queries (l : list (string * nat)) (c : cache) : cache :=
  mkCache l (objects c) (bodies c) (c_promises c) (c_fresh c)
    (c_invocations c) (c_visible c) (c_clock c) (c_log c).

(** [queryCache.queries[h]] *)
Fixpoint lookup_hash (h : string) (l : list (string * nat)) : option nat :=
  match l with
  | [] => None
  | (h', o) :: l' => if String.eqb h' h then Some o else lookup_hash h l'
  end.

(** [delete queryCache.queries[h]] *)
Definition delete_hash (h : string) (l : list (string * nat))
  : list (string * nat) :=
  filter (fun x => negb (String.eqb (fst x) h)) l.

Fixpoint lookup_object (o : nat) (l : list (nat * cached)) : option cached :=
  match l with
  | [] => None
  | (o', q) :: l' => if Nat.eqb o' o then Some q else lookup_object o l'
  end.

(** The object [o] with its mutable fields replaced. *)
Fixpoint update_object (o : nat) (q : query) (l : list (nat * cached))
  : list (nat * cached) :=
  match l with
  | [] => []
  | (o', d) :: l' =>
      if Nat.eqb o' o then (o', mkCached (queryKey d) (queryHash d) q) :: l'
      else (o', d) :: update_object o q l'
  end.

(** The world of the entry object [o]: its fields, the bodies that close
    over it and what all entries share. *)
Definition focus (o : nat) (c : cache) : option world :=
  match lookup_object o (objects c) with
  | Some d =>
      Some
        (mkWorld (fields d)
           (map snd (filter (fun x => Nat.eqb (fst x) o) (bodies c)))
           (c_promises c) (c_fresh c) (c_invocations c) (c_visible c)
           (c_clock c) (c_log c))
  | None => None
  end.

Definition unfocus (o : nat) (w : world) (c : cache) : cache :=
  mkCache (queries c) (update_object o (entry w) (objects c))
    (map (pair o) (attempts w)
     ++ filter (fun x => negb (Nat.eqb (fst x) o)) (bodies c))
    (promises w) (fresh w) (invocations w) (documentVisible w) (clock w)
    (log w).

(** A method of the entry object [o], called with the cache around it. *)
Definition call_on {A : Type} (o : nat) (f : world -> A * world) (c : cache)
  : option A * cache :=
  match focus o c with
  | Some w => (Some (fst (f w)), unfocus o (snd (f w)) c)
  | None => (None, c)
  end.

Definition on_object (o : nat) (f : world -> world) (c : cache) : cache :=
  snd (call_on o (fun w => (tt, f w)) c).

(** *** [queryCache.queries] as a plain object *)

(** What [Object.prototype] defines.  Reading [queries[h]] finds these
    members too when [h] is not a key of [queries] itself, and each of them
    is truthy. *)
Definition object_prototype_members : list string :=
  ["constructor"; "hasOwnProperty"; "isPrototypeOf"; "propertyIsEnumerable";
   "toLocaleString"; "toString"; "valueOf"; "__proto__";
   "__defineGetter__"; "__defineSetter__"; "__lookupGetter__";
   "__lookupSetter__"].

Definition inherited (h : string) : bool :=
  existsb (String.eqb h) object_prototype_members.

Definition digit (a : Ascii.ascii) : option N :=
  let n := Ascii.N_of_ascii a in
  if (N.leb 48 n && N.leb n 57)%bool then Some (n - 48)%N else None.

Fixpoint digits (s : string) (acc : N) : option N :=
  match s with
  | EmptyString => Some acc
  | String a s' =>
      match digit a with
      | Some d => digits s' (10 * acc + d)%N
      | None => None
      end
  end.

(** The array index a key is, if it is one: a canonical decimal numeral
    below [2^32 - 1].  An object lists such keys first, by value, and the
    other keys after them in the order of their creation. *)
Definition array_index (h : string) : option N :=
  match h with
  | EmptyString => None
  | String a rest =>
      match digit a, rest with
      | Some 0%N, String _ _ => None
      | _, _ =>
          match digits h 0 with
          | Some n => if N.leb n 4294967294 then Some n else None
          | None => None
          end
      end
  end.

Fixpoint insert_index (n : N) (h : string) (o : nat)
  (l : list (string * nat)) : list (string * nat) :=
  match l with
  | [] => [(h, o)]
  | (h', o') :: l' =>
      match array_index h' with
      | Some n' =>
          if N.leb n' n then (h', o') :: insert_index n h o l'
          else (h, o) :: l
      | None => (h, o) :: l
      end
  end.

(** [queryCache.queries[h] = o] for a key [h] that [queries] does not have:
    where [Object.values] will list it. *)
Definition insert_property (h : string) (o : nat) (l : list (string * nat))
  : list (string * nat) :=
  match array_index h with
  | Some n => insert_index n h o l
  | None => l ++ [(h, o)]
  end.

(** The order in which an object lists its keys: no array index after a
    key that is none, and the array indices by value. *)
Definition listed_before (h h' : string) : Prop :=
  match array_index h, array_index h' with
  | Some n, Some n' => (n <= n')%N
  | None, Some _ => False
  | _, None => True
  end.

Fixpoint property_order (l : list string) : Prop :=
  match l with
  | [] => True
  | h :: l' =>
      (forall h', In h' l' -> listed_before h h') /\ property_order l'
  end.

(** The first argument of [getQueries]: a function on entry objects or any
    other value, [true] among them. *)
Inductive predicate : Type :=
| PFn (f : cached -> bool)
| PVal (v : value).

Definition holds (f : cached -> bool) (c : cache) (o : nat) : bool :=
  match lookup_object o (objects c) with
  | Some d => f d
  | None => false
  end.

(** [queryCache.getQueries(predicate, { exact })]; [shared] is the codec of
    [configRef.current.shared]. *)
Definition getQueries (shared : codec) (p : predicate) (exact : bool)
  (c : cache) : list nat :=
  let values := map snd (queries c) in
  match p with
  | PVal (VBool true) => values
  | PFn f => filter (holds f c) values
  | PVal k =>
      let (h, key) := queryKeySerializerFn shared k in
      filter
        (holds
           (fun d =>
              if exact then String.eqb (queryHash d) h
              else deepIncludes shared (queryKey d) key) c)
        values
  end.

(** [queryCache.getQuery(queryKey)] *)
Definition getQuery (shared : codec) (p : predicate) (c : cache) : option nat :=
  hd_error (getQueries shared p true c).

(** [queryCache.getQueryData(queryKey)] *)
Definition getQueryData (shared : codec) (p : predicate) (c : cache) : value :=
  match getQuery shared p c with
  | Some o =>
      match lookup_object o (objects c) with
      | Some d => State.data (state (fields d))
      | None => VUndefined
      end
  | None => VUndefined
  end.

(** [query.remove()] for the entry object [o]. *)
Definition cache_remove (o : nat) (c : cache) : cache :=
  let c := on_object o query_remove c in
  match lookup_object o (objects c) with
  | Some d => set_queries (delete_hash (queryHash d) (queries c)) c
  | None => c
  end.

(** [queryCache.removeQueries(predicate, { exact })] *)
Definition removeQueries (shared : codec) (p : predicate) (exact : bool)
  (c : cache) : cache :=
  fold_left (fun c o => cache_remove o c) (getQueries shared p exact c) c.

(** [queryCache.cancelQueries(predicate, { exact })] *)
Definition cancelQueries (shared : codec) (p : predicate) (exact : bool)
  (c : cache) : cache :=
  fold_left (fun c o => on_object o cancel c) (getQueries shared p exact c) c.

(** [queryCache.buildQuery(userQueryKey, queryFn, config)] in a browser:
    the entry object it returns and the cache afterwards, or [None] when it
    throws.  [serialize] is [queryKeySerializerFn] of the merged
    configuration [cfg].  A hash that is no key of [queries] but names a
    member of [Object.prototype] makes [queries[queryHash]] that member:
    the branch of an existing entry is taken and [query.cancelInterval()],
    which the member does not have, throws a TypeError (by then
    [Object.assign] has written [queryFn] and [config] to the member, which
    is outside the cache). *)
Definition cache_buildQuery (serialize : value -> string * list value)
  (userQueryKey : value) (cfg : Config.t) (c : cache) : option (nat * cache) :=
  let (h, key) := serialize userQueryKey in
  match lookup_hash h (queries c) with
  | Some o => Some (o, on_object o (buildQuery_existing cfg) c)
  | None =>
      if inherited h then None else
      match makeQuery cfg (c_clock c) with
      | None => None
      | Some q =>
          let o := c_fresh c in
          let c :=
            mkCache (queries c) (objects c ++ [(o, mkCached key h q)])
              (bodies c) (c_promises c) (S (c_fresh c)) (c_invocations c)
              (c_visible c) (c_clock c) (c_log c) in
          let c :=
            if truthy (State.data (state q)) then
              on_object o
                (fun w =>
                   scheduleGarbageCollection (heal (scheduleStaleTimeout w)))
                c
            else c in
          let c := set_queries (insert_property h o (queries c)) c in
          (* the deferred notifyGlobalListeners *)
          let c :=
            on_object o
              (fun w => emit (SetTimeout (fresh w) 0) (snd (allocate w))) c in
          Some (o, on_object o (buildQuery_finish cfg) c)
      end
  end.

(** [queryCache.setQueryData(queryKey, updater, { exact, ...config })];
    [serialize] belongs to the configuration [cfg] merged from the
    defaults and [config], and the placeholder operation of an entry built
    here never settles; [None] when [buildQuery] throws. *)
Definition setQueryData (shared : codec)
  (serialize : value -> string * list value) (p : predicate)
  (u : option updater) (exact : bool) (cfg : Config.t) (c : cache)
  : option cache :=
  match getQueries shared p exact c, p with
  | [], PVal k =>
      match cache_buildQuery serialize k cfg c with
      | Some (o, c') => Some (on_object o (setData u) c')
      | None => None
      end
  | found, _ =>
      Some (fold_left (fun c o => on_object o (setData u) c) found c)
  end.


(** The directory is well formed: a hash names one entry object, which
    exists and carries that hash, no object is registered twice and the
    handles in use are below the next fresh one. *)
Record well_formed (c : cache) : Prop := {
  hashes_unique : NoDup (map fst (queries c));
  registered_once : NoDup (map snd (queries c));
  objects_unique : NoDup (map fst (objects c));
  registered_exist :
    forall h o, In (h, o) (queries c) ->
      exists d, lookup_object o (objects c) = Some d /\ queryHash d = h;
  objects_below_fresh :
    forall o d, In (o, d) (objects c) -> (o < c_fresh c)%nat
}.

(** The hashes are keys of a plain object: they are listed in the order of
    the keys of an object and none of them names a member of
    [Object.prototype]. *)
Record keyed_as_object (c : cache) : Prop := {
  registered_in_order : property_order (map fst (queries c));
  registered_own :
    forall h o, In (h, o) (queries c) -> inherited h = false
}.

(** The empty cache [makeQueryCache] returns. *)
Definition empty_cache (now : Z) (visible : bool) : cache :=
  mkCache [] [] [] [] 0 0 visible now [].

(** An entry method never lowers the next fresh handle. *)
Definition grows {A : Type} (f : world -> A * world) : Prop :=
  forall w, (fresh w <= fresh (snd (f w)))%nat.

(** A key codec used in the examples: a string is its own hash, its parts
    are its characters, and a canonical key includes another when it holds
    each of its parts. *)
Definition example_codec : codec :=
  mkCodec
    (fun v =>
       match v with
       | VStr s =>
           (s, map (fun a => VStr (String a EmptyString))
                 (list_ascii_of_string s))
       | _ => ("other", [v])
       end)
    (fun a b => forallb (fun x => existsb (strict_eq x) a) b).

(** [buildQuery] for the key [k], with initial data [initial]. *)
Definition example_build (k : string) (initial : value) (c : cache) : cache :=
  match
    cache_buildQuery (queryKeySerializerFn example_codec) (VStr k)
      (example_config true (RetryCount 2) 0 initial) c
  with
  | Some (_, c') => c'
  | None => c
  end.

(** The cache after [buildQuery] for the keys "ab" and "c". *)
Definition example_cache : cache :=
  example_build "c" VUndefined
    (example_build "ab" VUndefined (empty_cache 5 true)).

(** The cache after [buildQuery] for the key "10". *)
Definition example_numbered_cache : cache :=
  example_build "10" VUndefined (empty_cache 5 true).



(** * Properties *)

(** ** Values *)

Lemma strict_eq_refl (v : value) : strict_eq v v = true.
Proof.
  destruct v; cbn; auto using Bool.eqb_reflx, Z.eqb_refl, String.eqb_refl,
    Nat.eqb_refl.
Qed.

Lemma strict_eq_true_iff (a b : value) : strict_eq a b = true <-> a = b.
Proof.
  split; [| intros ->; apply strict_eq_refl].
  destruct a, b; cbn; try discriminate; auto; intros H.
  - apply Bool.eqb_prop in H; congruence.
  - apply Z.eqb_eq in H; congruence.
  - apply String.eqb_eq in H; congruence.
  - apply Nat.eqb_eq in H; congruence.
Qed.




(** ** The reducer *)

Ltac by_action_type :=
  unfold switchActions;
  repeat match goal with
    | |- context [String.eqb ?x ?y] => destruct (String.eqb x y) eqn:?
    end.

Lemma queryReducer_Returns_inv now s a s' :
  queryReducer now s a = Returns s' ->
  exists x, switchActions now s a = Returns x /\ s' = assign_derived x.
Proof.
  unfold queryReducer.
  destruct (switchActions now s a) as [x | |]; try discriminate.
  intros [= <-]. now exists x.
Qed.

Lemma assign_derived_updatedAt s :
  State.updatedAt (assign_derived s) = State.updatedAt s.
Proof. reflexivity. Qed.

(** The actions the entry dispatches on its own always give a state. *)
Lemma dispatch_internal_returns now s ty :
  In ty [actionFailed; actionMarkStale; actionMarkGC; actionFetch] ->
  exists s', queryReducer now (Some s) (bare ty) = Returns s'.
Proof.
  cbn. intros [<- | [<- | [<- | [<- | []]]]]; eexists; reflexivity.
Qed.

Lemma makeQuery_returns cfg now : exists q, makeQuery cfg now = Some q.
Proof. unfold makeQuery. cbn. eexists; reflexivity. Qed.

(** The entry [makeQuery] builds is fetching exactly when it has no initial
    data, whether it is enabled or not, and has no in-flight operation. *)
Lemma makeQuery_isFetching cfg now q :
  makeQuery cfg now = Some q ->
  State.isFetching (state q)
  = negb (is_defined
            (match Config.initialData cfg with
             | InitialFn v | InitialVal v => v
             end))
  /\ promise q = None.
Proof.
  unfold makeQuery. cbn. intros [= <-]. cbn. split; [| reflexivity].
  destruct (Config.initialData cfg) as [v | v];
    destruct (is_defined v), (Config.enabled cfg); reflexivity.
Qed.

(** C1. On an Error action the reducer returns a state with
    [isFetching = false] and [isStale = true]; when the action is not
    cancelled the status becomes 'error' and the error is the action's, when
    it is cancelled the status and the error are those of the prior state. *)
Theorem error_transition (now : Z) (s : State.t) (a : Action.t) :
  Action.type a = actionError ->
  exists s',
    queryReducer now (Some s) a = Returns s'
    /\ State.isFetching s' = false
    /\ State.isStale s' = true
    /\ (Action.cancelled a = false ->
        State.status s' = statusError /\ State.error s' = Action.error a)
    /\ (Action.cancelled a = true ->
        State.status s' = State.status s /\ State.error s' = State.error s).
Proof.
  intros Hty. unfold queryReducer, switchActions. rewrite Hty. cbn.
  destruct (Action.cancelled a); cbn; eexists;
    (split; [reflexivity |]); cbn; repeat split; intros; try discriminate.
Qed.

Lemma error_transition_witness :
  Action.type
    (Action.mk actionError VUndefined VUndefined false false None VUndefined
       true (VStr "boom")) = actionError
  /\ exists s',
      queryReducer 9 (Some example_state)
        (Action.mk actionError VUndefined VUndefined false false None
           VUndefined true (VStr "boom")) = Returns s'
      /\ State.isFetching s' = false
      /\ State.isStale s' = true
      /\ (true = false ->
          State.status s' = statusError /\ State.error s' = VStr "boom")
      /\ (true = true ->
          State.status s' = State.status example_state
          /\ State.error s' = State.error example_state).
Proof.
  split; [reflexivity |].
  apply (error_transition 9 example_state
           (Action.mk actionError VUndefined VUndefined false false None
              VUndefined true (VStr "boom"))).
  reflexivity.
Defined.

(** C2. An entry built disabled and without initial data starts with
    [isFetching = true] although its status is 'idle': the Init case takes
    the disjunction of "no initial data" and "status is loading", so the
    enabled flag never lowers the flag. *)
Theorem init_isFetching_when_disabled (cfg : Config.t) (now : Z) :
  Config.enabled cfg = false ->
  Config.initialData cfg = InitialVal VUndefined ->
  exists q,
    makeQuery cfg now = Some q
    /\ State.isFetching (state q) = true
    /\ State.status (state q) = statusIdle
    /\ State.isIdle (state q) = true
    /\ ~ init_isFetching_as_specified cfg q.
Proof.
  intros Hen Hinit. unfold makeQuery. rewrite Hen, Hinit. cbn.
  eexists; split; [reflexivity |]. cbn. repeat split.
  unfold init_isFetching_as_specified. rewrite Hen, Hinit. cbn.
  intros [H _]. destruct (H eq_refl) as [_ Habs]. discriminate.
Qed.

Lemma init_isFetching_when_disabled_witness :
  exists q,
    makeQuery (example_config false (RetryCount 3) 0 VUndefined) 5 = Some q
    /\ State.isFetching (state q) = true
    /\ State.status (state q) = statusIdle
    /\ State.isIdle (state q) = true
    /\ ~ init_isFetching_as_specified
           (example_config false (RetryCount 3) 0 VUndefined) q.
Proof.
  apply (init_isFetching_when_disabled
           (example_config false (RetryCount 3) 0 VUndefined) 5);
    reflexivity.
Defined.

(** Outside that case the construction agrees with the specification: with
    initial data, or enabled, [isFetching] is "no initial data and
    enabled". *)
Lemma init_isFetching_otherwise cfg now q :
  makeQuery cfg now = Some q ->
  (Config.enabled cfg = true
   \/ is_defined
        (match Config.initialData cfg with InitialFn v | InitialVal v => v end)
      = true) ->
  init_isFetching_as_specified cfg q.
Proof.
  intros Hq Hor. destruct (makeQuery_isFetching _ _ _ Hq) as [Hf _].
  unfold init_isFetching_as_specified. rewrite Hf.
  destruct (Config.initialData cfg) as [v | v];
    destruct (is_defined v), (Config.enabled cfg); cbn;
    intuition discriminate.
Qed.

(** C6, as worded, fails: a SetState action replaces the whole snapshot, so
    it can change [updatedAt] without any Success transition. *)
Lemma updatedAt_changed_by_SetState : ~ updatedAt_changes_only_on_success.
Proof.
  intros H.
  specialize
    (H 0 example_state
       (Action.mk actionSetState VUndefined VUndefined false false
          (Some (StateFn (with_updatedAt 42))) VUndefined false VUndefined)
       (assign_derived (with_updatedAt 42 example_state))
       eq_refl).
  cbn in H. assert (Hne : 42 <> 100) by lia.
  specialize (H Hne). discriminate.
Qed.

(** C6, amended. The Failed, MarkStale, MarkGC, Fetch and Error transitions
    (cancelled or not) leave [updatedAt] as it was and Success sets it to the
    current time; a transition that changes [updatedAt] is Success, or one of
    the two that rebuild the snapshot: Init and SetState. *)
Theorem updatedAt_transitions (now : Z) (s s' : State.t) (a : Action.t) :
  queryReducer now (Some s) a = Returns s' ->
  (In (Action.type a)
      [actionFailed; actionMarkStale; actionMarkGC; actionFetch; actionError]
   -> State.updatedAt s' = State.updatedAt s)
  /\ (Action.type a = actionSuccess -> State.updatedAt s' = now)
  /\ (State.updatedAt s' <> State.updatedAt s ->
      In (Action.type a) [actionSuccess; actionInit; actionSetState]).
Proof.
  intros Hr. apply queryReducer_Returns_inv in Hr as (x & Hx & ->).
  rewrite assign_derived_updatedAt.
  assert (Hcases :
    (Action.type a = actionInit \/ Action.type a = actionSetState)
    \/ (Action.type a = actionSuccess /\ State.updatedAt x = now)
    \/ (In (Action.type a)
          [actionFailed; actionMarkStale; actionMarkGC; actionFetch;
           actionError]
        /\ State.updatedAt x = State.updatedAt s)).
  { revert Hx. by_action_type;
      repeat match goal with
        | H : String.eqb _ _ = true |- _ => apply String.eqb_eq in H
        end;
      try discriminate.
    - auto.
    - intros [= <-]. right; right; cbn; auto.
    - intros [= <-]. right; right; cbn; auto.
    - intros [= <-]. right; right; cbn; auto 6.
    - intros [= <-]. right; right; cbn; auto 6.
    - destruct (functionalUpdate_data _ _); try discriminate.
      intros [= <-]. right; left; cbn; auto.
    - intros [= <-]. right; right; split; [cbn; auto 8 |].
      destruct (Action.cancelled a); reflexivity.
    - auto. }
  destruct Hcases as [[Hty | Hty] | [[Hty Hup] | [Hin Hup]]].
  - repeat split; try (rewrite Hty; cbn; intuition discriminate).
  - repeat split; try (rewrite Hty; cbn; intuition discriminate).
  - repeat split; auto; rewrite Hty; cbn; intuition discriminate.
  - repeat split; auto.
    + intros Hty. rewrite Hty in Hin. cbn in Hin. intuition discriminate.
    + intros Hne. contradiction.
Qed.

Lemma updatedAt_transitions_witness :
  (In actionError
      [actionFailed; actionMarkStale; actionMarkGC; actionFetch; actionError]
   -> State.updatedAt
        (assign_derived
           (with_error (VStr "boom")
              (with_status statusError
                 (with_isStale true (with_isFetching false example_state)))))
      = State.updatedAt example_state)
  /\ (actionError = actionSuccess ->
      State.updatedAt
        (assign_derived
           (with_error (VStr "boom")
              (with_status statusError
                 (with_isStale true (with_isFetching false example_state)))))
      = 9)
  /\ (State.updatedAt
        (assign_derived
           (with_error (VStr "boom")
              (with_status statusError
                 (with_isStale true (with_isFetching false example_state)))))
      <> State.updatedAt example_state ->
      In actionError [actionSuccess; actionInit; actionSetState]).
Proof.
  apply (updatedAt_transitions 9 example_state _
           (Action.mk actionError VUndefined VUndefined false false None
              VUndefined false (VStr "boom"))).
  reflexivity.
Defined.

(** C7. An action whose type is none of the eight known ones makes the
    reducer throw, whatever the state is (also for [undefined]): it neither
    returns the prior state nor any other. *)
Theorem unknown_action_throws (now : Z) (s : option State.t) (a : Action.t) :
  ~ In (Action.type a) known_types ->
  switchActions now s a = Throws /\ queryReducer now s a = Throws.
Proof.
  intros Hnot.
  assert (Hs : switchActions now s a = Throws).
  { by_action_type; try reflexivity; exfalso; apply Hnot;
      repeat match goal with
        | H : String.eqb _ _ = true |- _ => apply String.eqb_eq in H
        end;
      unfold known_types; cbn; auto 10. }
  split; [exact Hs |]. unfold queryReducer. now rewrite Hs.
Qed.

Lemma unknown_action_throws_witness :
  ~ In (Action.type (bare "Refetch")) known_types
  /\ switchActions 0 (Some example_state) (bare "Refetch") = Throws
  /\ queryReducer 0 (Some example_state) (bare "Refetch") = Throws.
Proof.
  assert (Hnot : ~ In (Action.type (bare "Refetch")) known_types).
  { cbn. intuition discriminate. }
  split; [exact Hnot |].
  apply (unknown_action_throws 0 (Some example_state) (bare "Refetch") Hnot).
Defined.

(** The reducer throws only then or on [undefined]: on a state, every action
    of a known type whose updater (if it needs one) is of the right kind
    gives a state. *)
Lemma known_action_returns now s a :
  In (Action.type a) known_types ->
  (Action.type a = actionSuccess ->
   functionalUpdate_data (Action.updater a) (State.data s) <> None) ->
  (Action.type a = actionSetState ->
   exists x, functionalUpdate_state (Action.updater a) s = Returns x) ->
  exists s', queryReducer now (Some s) a = Returns s'.
Proof.
  intros Hin Hsucc Hset. unfold queryReducer.
  by_action_type;
    repeat match goal with
      | H : String.eqb _ _ = true |- _ => apply String.eqb_eq in H
      | H : String.eqb _ _ = false |- _ => apply String.eqb_neq in H
      end;
    try (eexists; reflexivity).
  - specialize (Hsucc ltac:(assumption)).
    destruct (functionalUpdate_data _ _); [eexists; reflexivity | congruence].
  - destruct (Hset ltac:(assumption)) as [x ->]. eexists; reflexivity.
  - exfalso. unfold known_types in Hin. cbn in Hin. intuition congruence.
Qed.

(** ** The derived flags *)

Lemma status_is (v : value) (name : string) :
  strict_eq v (VStr name) = true <-> v = VStr name.
Proof. apply strict_eq_true_iff. Qed.

(** C9. Whatever the prior state and the action (SetState with any updater
    included), the state the reducer returns has each derived flag equal to
    the comparison of its status with the flag's name, and at most one of
    the four is set. *)
Theorem derived_flags_consistent (now : Z) (s : option State.t) (a : Action.t)
  (s' : State.t) :
  queryReducer now s a = Returns s' ->
  (State.isLoading s' = true <-> State.status s' = VStr "loading")
  /\ (State.isSuccess s' = true <-> State.status s' = VStr "success")
  /\ (State.isError s' = true <-> State.status s' = VStr "error")
  /\ (State.isIdle s' = true <-> State.status s' = VStr "idle")
  /\ (derived_flags_set s' <= 1)%nat.
Proof.
  intros Hr. apply queryReducer_Returns_inv in Hr as (x & _ & ->).
  unfold derived_flags_set. cbn.
  repeat (split; [apply status_is |]).
  destruct (State.status x) as [| | b | n | name | r]; cbn; try lia.
  destruct (String.eqb_spec name "loading") as [-> | _]; [cbn; lia |].
  destruct (String.eqb_spec name "success") as [-> | _]; [cbn; lia |].
  destruct (String.eqb_spec name "error") as [-> | _]; [cbn; lia |].
  destruct (String.eqb name "idle"); cbn; lia.
Qed.

Lemma derived_flags_consistent_witness :
  queryReducer 0 (Some example_state)
    (Action.mk actionSetState VUndefined VUndefined false false
       (Some (StateFn (with_status (VStr "paused")))) VUndefined false
       VUndefined)
  = Returns (assign_derived (with_status (VStr "paused") example_state))
  /\ derived_flags_set
       (assign_derived (with_status (VStr "paused") example_state)) = 0%nat
  /\ (State.isSuccess
        (assign_derived (with_status (VStr "paused") example_state)) = true
      <-> VStr "paused" = VStr "success").
Proof.
  split; [reflexivity |]. split; [reflexivity |].
  apply (derived_flags_consistent 0 (Some example_state)
           (Action.mk actionSetState VUndefined VUndefined false false
              (Some (StateFn (with_status (VStr "paused")))) VUndefined false
              VUndefined)
           (assign_derived (with_status (VStr "paused") example_state))
           eq_refl).
Defined.

(** ** Which operations settle a promise *)











(** ** [isFetching] and the in-flight operation *)




(** ** Deduplication *)

(** C5. While an entry has an in-flight operation, [fetch] returns that
    operation and leaves the world as it is: no dispatch, no invocation of
    the fetch operation.  So a second call right after a first one returns
    the promise of the first, and the two calls invoke the operation once
    (not at all if an operation was in flight before them). *)
Theorem fetch_deduplicates (w : world) :
  (forall p, promise (entry w) = Some p -> fetch w = (p, w))
  /\ fetch (snd (fetch w)) = fetch w
  /\ invocations (snd (fetch (snd (fetch w))))
     = match promise (entry w) with
       | Some _ => invocations w
       | None => S (invocations w)
       end.
Proof.
  assert (Hhit : forall v p, promise (entry v) = Some p -> fetch v = (p, v)).
  { intros v p Hp. unfold fetch. now rewrite Hp. }
  assert (Hset : promise (entry (snd (fetch w))) = Some (fst (fetch w))).
  { unfold fetch. destruct (promise (entry w)) eqn:Hp; cbn;
      [exact Hp | reflexivity]. }
  split; [exact (Hhit w) |].
  assert (Hsame : fetch (snd (fetch w)) = fetch w).
  { rewrite (Hhit _ _ Hset). now destruct (fetch w). }
  split; [exact Hsame |].
  rewrite Hsame. unfold fetch. destruct (promise (entry w)); reflexivity.
Qed.

Lemma fetch_deduplicates_witness :
  promise (entry (snd (fetch example_world))) = Some 1%nat
  /\ fetch (snd (fetch example_world)) = (1%nat, snd (fetch example_world))
  /\ invocations (snd (fetch (snd (fetch example_world)))) = 1%nat.
Proof.
  split; [reflexivity |]. split.
  - destruct (fetch_deduplicates (snd (fetch example_world))) as [Hhit _].
    apply Hhit. reflexivity.
  - destruct (fetch_deduplicates example_world) as (_ & _ & Hcount).
    exact Hcount.
Defined.

(** ** Cancellation *)

(** C8, as worded, fails.  Cancelling an entry that has no in-flight
    operation but a refetch interval clears the interval, so the next tick
    no longer fetches, and calls the global listeners; a second cancel
    calls the listeners once more. *)
Lemma cancel_without_in_flight_not_noop :
  promise (entry example_polling_world) = None
  /\ refetchIntervalId (entry example_polling_world) = Some 1%nat
  /\ refetchIntervalId (entry (cancel example_polling_world)) = None
  /\ invocations (step (IntervalFires 1) example_polling_world) = 1%nat
  /\ invocations (step (IntervalFires 1) (cancel example_polling_world))
     = 0%nat
  /\ ~ cancel_is_noop example_polling_world
  /\ ~ cancel_twice_as_once example_polling_world
  /\ ~ cancellation_idempotence.
Proof.
  assert (Hnoop : ~ cancel_is_noop example_polling_world).
  { intros [H _]. apply (f_equal refetchIntervalId) in H. discriminate H. }
  assert (Htwice : ~ cancel_twice_as_once example_polling_world).
  { intros [_ H]. vm_compute in H. discriminate H. }
  repeat (split; [reflexivity |]).
  split; [exact Hnoop |]. split; [exact Htwice |].
  intros [_ H]. exact (Htwice (H _)).
Qed.

(** C8, amended. [cancel] never touches the visible state, leaves the entry
    without in-flight operation and the pending attempts as they are; a
    second cancel leaves the entry as the first one left it.  Each call,
    with or without an operation in flight, sets the cancellation marker,
    clears the refetch interval, calls the stored cancel hook if there is
    one and calls the global listeners. *)
Theorem cancel_effects (w : world) :
  state (entry (cancel w)) = state (entry w)
  /\ promise (entry (cancel w)) = None
  /\ cancelled (entry (cancel w)) = cancelledError
  /\ refetchIntervalId (entry (cancel w)) = None
  /\ currentRefetchInterval (entry (cancel w)) = None
  /\ attempts (cancel w) = attempts w
  /\ invocations (cancel w) = invocations w
  /\ entry (cancel (cancel w)) = entry (cancel w)
  /\ log (cancel w)
     = log w
       ++ ClearInterval (refetchIntervalId (entry w))
          :: cancel_hook_calls w
       ++ [NotifyGlobalListeners (State.isFetching (state (entry w)))]
  /\ log (cancel (cancel w))
     = log (cancel w)
       ++ ClearInterval None
          :: cancel_hook_calls w
       ++ [NotifyGlobalListeners (State.isFetching (state (entry w)))].
Proof.
  destruct w as [q ats prs fr inv vis clk lg].
  destruct q as [cfg insts st p cd hook ri rms sc ws si sto cto].
  unfold cancel, cancel_hook_calls.
  destruct hook as [call |]; cbn;
    repeat split; rewrite <- ?app_assoc; reflexivity.
Qed.

(** ** The retry loop *)

Ltac open_world w :=
  let q := fresh "q" in
  destruct w as [q ? ? ? ? ? ? ?];
  destruct q as [? ? ? ? ? ? ? ? ? ? ? ? ?].

Lemma through_retries_not_cancelled d w c :
  truthy (cancelled (entry w)) = false -> through_retries d w c = c.
Proof.
  intros Hc. revert c. induction d as [| d IH]; intros c; cbn; [reflexivity |].
  rewrite IH. unfold retry_callback. rewrite Hc. now destruct c.
Qed.

Lemma fetch_in_flight base :
  promise (entry base) = None ->
  in_flight (fresh base) (AwaitQueryFn (invocations base)) 0 1 base
    (snd (fetch base)).
Proof.
  intros Hp. unfold fetch. rewrite Hp. cbn.
  split; cbn; try reflexivity; [eauto | lia].
Qed.

Section RetryLoop.

(** One fetch, behind promise [p], started in the world [base]. *)
Variables (p : nat) (base : world).

(** A rejected attempt that is to be retried, in a visible document, counts
    one failure and waits for its retry timer. *)
Lemma rejection_retries call f k w e :
  in_flight p (AwaitQueryFn call) f k base w ->
  should_retry (Config.retry (config (entry base))) (f + 1) e = true ->
  documentVisible base = true ->
  exists t delay,
    in_flight p (AwaitRetryTimer t delay) (f + 1) k base
      (step (QueryFnSettles call (Rejected e)) w).
Proof.
  intros [(cbs & d & Hat) Hc Hcfg Hvis Hpr Hdata Hst Hf Hk] Hretry Hv.
  open_world w. cbn in *. subst.
  unfold queryFn_settles. cbn. unfold awaits_call. cbn. rewrite Nat.eqb_refl.
  cbn. unfold tryFetchData_settled. cbn. unfold dispatch. cbn.
  rewrite Hretry. rewrite Hv. cbn.
  rewrite through_retries_not_cancelled by reflexivity. cbn.
  do 2 eexists. split; cbn; try reflexivity; try assumption; eauto.
Qed.

(** When the retry timer fires the operation is invoked once more. *)
Lemma timer_reinvokes t delay f k w :
  in_flight p (AwaitRetryTimer t delay) f k base w ->
  in_flight p (AwaitQueryFn (invocations w)) f (S k) base
    (step (RetryTimerFires t) w).
Proof.
  intros [(cbs & d & Hat) Hc Hcfg Hvis Hpr Hdata Hst Hf Hk].
  open_world w. cbn in *. subst.
  unfold retryTimer_fires. cbn. unfold awaits_timer. cbn.
  rewrite Nat.eqb_refl. cbn.
  split; cbn; try reflexivity; try assumption; eauto; try lia.
Qed.

(** A rejected attempt that is not retried ends the fetch.  The reason
    decides how: the body compares it with [query.cancelled], which is
    [null] since the start of the fetch, so the reason [null] is taken for a
    cancellation. *)
Lemma rejection_final call f k w e :
  in_flight p (AwaitQueryFn call) f k base w ->
  should_retry (Config.retry (config (entry base))) (f + 1) e = false ->
  failed_with p e (f + 1) k base (step (QueryFnSettles call (Rejected e)) w).
Proof.
  intros [(cbs & d & Hat) Hc Hcfg Hvis Hpr Hdata Hst Hf Hk] Hretry.
  open_world w. cbn in *. subst.
  unfold failed_with, queryFn_settles. cbn. unfold awaits_call. cbn.
  rewrite Nat.eqb_refl.
  cbn. unfold tryFetchData_settled. cbn. unfold dispatch. cbn.
  rewrite Hretry. cbn.
  rewrite through_retries_not_cancelled by reflexivity. cbn.
  destruct (strict_eq e VNull) eqn:He; cbn; rewrite ?Nat.eqb_refl;
    repeat split; try assumption; try reflexivity;
    try (apply strict_eq_true_iff in He; contradiction);
    try (intros; subst e; discriminate He).
Qed.

Lemma drive_settles fuel answer call f k w :
  in_flight p (AwaitQueryFn call) f k base w ->
  drive (S fuel) answer p w
  = drive fuel answer p (step (QueryFnSettles call (answer call)) w).
Proof.
  intros [(cbs & d & Hat) _ _ _ _ _ _ _ _]. cbn [drive]. rewrite Hat.
  cbn. unfold owned_by. cbn. now rewrite Nat.eqb_refl.
Qed.

Lemma drive_fires fuel answer t delay f k w :
  in_flight p (AwaitRetryTimer t delay) f k base w ->
  drive (S fuel) answer p w = drive fuel answer p (step (RetryTimerFires t) w).
Proof.
  intros [(cbs & d & Hat) _ _ _ _ _ _ _ _]. cbn [drive]. rewrite Hat.
  cbn. unfold owned_by. cbn. now rewrite Nat.eqb_refl.
Qed.

(** The entry retries [n] times, in a document that stays visible, and the
    operation rejects every time, invocation [c] with the reason [err c]. *)
Variables (n : Z) (err : nat -> value).
Hypothesis retry_n : Config.retry (config (entry base)) = RetryCount n.
Hypothesis visible : documentVisible base = true.

Lemma retries_while_below f e : f + 1 <= n ->
  should_retry (Config.retry (config (entry base))) (f + 1) e = true.
Proof.
  intros Hle. rewrite retry_n. unfold should_retry. cbn.
  rewrite orb_false_r. now apply Z.leb_le.
Qed.

Lemma gives_up_above f e : n < f + 1 ->
  should_retry (Config.retry (config (entry base))) (f + 1) e = false.
Proof.
  intros Hlt. rewrite retry_n. unfold should_retry. cbn.
  rewrite orb_false_r. now apply Z.leb_gt.
Qed.

(** A fetch that has [m] retries left makes [m] more invocations and ends
    with [failureCount = n + 1]; the reason of the last rejection decides
    the final status.  By induction on [m]. *)
Lemma retry_loop (m : nat) :
  forall (f : Z) (k call : nat) (w : world),
    in_flight p (AwaitQueryFn call) f k base w ->
    S call = (invocations base + k)%nat ->
    f + Z.of_nat m = n ->
    failed_with p (err (call + m)%nat) (n + 1) (k + m) base
      (drive (2 * m + 1) (fun c => Rejected (err c)) p w).
Proof.
  induction m as [| m IH]; intros f k call w Hin Hcall Hleft.
  - cbn [Nat.mul Nat.add]. rewrite (drive_settles _ _ _ _ _ _ Hin).
    cbn [drive]. rewrite !Nat.add_0_r.
    replace (n + 1) with (f + 1) by lia.
    apply rejection_final; [exact Hin | apply gives_up_above; lia].
  - replace (2 * S m + 1)%nat with (S (S (2 * m + 1))) by lia.
    rewrite (drive_settles _ _ _ _ _ _ Hin).
    destruct (rejection_retries _ _ _ _ (err call) Hin) as (t & delay & Ht);
      [apply retries_while_below; lia | exact visible |].
    rewrite (drive_fires _ _ _ _ _ _ _ Ht).
    pose proof (timer_reinvokes _ _ _ _ _ Ht) as Hnext.
    assert (Hinv :
      invocations (step (QueryFnSettles call (Rejected (err call))) w)
      = S call).
    { rewrite (calls_so_far _ _ _ _ _ _ Ht). now rewrite Hcall. }
    rewrite Hinv in Hnext.
    replace (call + S m)%nat with (S call + m)%nat by lia.
    replace (k + S m)%nat with (S k + m)%nat by lia.
    apply (IH (f + 1) (S k) (S call) _ Hnext); lia.
Qed.

End RetryLoop.

(** The retry bound for [retry = 2]: three invocations, [failureCount = 3],
    and the status 'error' unless the last rejection had the reason
    [null]. *)
Lemma retry_twice_then_fail (base : world) (err : nat -> value) :
  promise (entry base) = None ->
  Config.retry (config (entry base)) = RetryCount 2 ->
  documentVisible base = true ->
  failed_with (fst (fetch base)) (err (invocations base + 2)%nat) 3 3 base
    (drive 5 (fun c => Rejected (err c)) (fst (fetch base)) (snd (fetch base))).
Proof.
  intros Hp Hretry Hvis.
  assert (Hfst : fst (fetch base) = fresh base).
  { unfold fetch. now rewrite Hp. }
  rewrite Hfst.
  apply (retry_loop (fresh base) base 2 err Hretry Hvis 2 0 1
           (invocations base) _ (fetch_in_flight base Hp)); lia.
Qed.

(** C4. With [retry = 2] and an operation whose every attempt rejects with
    the reason [null], the fetch invokes the operation three times, ends
    (three settlements and two retry timers later) and leaves
    [failureCount = 3], but the final status is not 'error': the entry keeps
    the status the start of the fetch gave it and the promise of the fetch
    resolves. *)
Theorem retry_exhausted_on_null_reason (base : world) :
  promise (entry base) = None ->
  Config.retry (config (entry base)) = RetryCount 2 ->
  documentVisible base = true ->
  let p := fst (fetch base) in
  let final := drive 5 (always_rejects VNull) p (snd (fetch base)) in
  invocations final = (invocations base + 3)%nat
  /\ attempts final = attempts base
  /\ State.failureCount (state (entry final)) = 3
  /\ State.status (state (entry final)) <> statusError
  /\ State.status (state (entry final))
     = (if is_defined (State.data (state (entry base)))
        then statusSuccess else statusLoading)
  /\ settlement_of p (promises final) = Some (Resolved VUndefined).
Proof.
  intros Hp Hretry Hvis p final. subst p final. unfold always_rejects.
  destruct (retry_twice_then_fail base (fun _ => VNull) Hp Hretry Hvis)
    as (Hat & Hinv & Hf & _ & _ & _ & _ & Hnull).
  destruct (Hnull eq_refl) as [Hst Hres]. cbv beta in *.
  repeat split; try assumption.
  rewrite Hst. destruct (is_defined _); discriminate.
Qed.

Lemma retry_exhausted_on_null_reason_witness :
  invocations
    (drive 5 (always_rejects VNull) (fst (fetch example_world))
       (snd (fetch example_world))) = 3%nat
  /\ attempts
       (drive 5 (always_rejects VNull) (fst (fetch example_world))
          (snd (fetch example_world))) = []
  /\ State.failureCount
       (state
          (entry
             (drive 5 (always_rejects VNull) (fst (fetch example_world))
                (snd (fetch example_world))))) = 3
  /\ State.status
       (state
          (entry
             (drive 5 (always_rejects VNull) (fst (fetch example_world))
                (snd (fetch example_world))))) <> statusError
  /\ State.status
       (state
          (entry
             (drive 5 (always_rejects VNull) (fst (fetch example_world))
                (snd (fetch example_world))))) = statusLoading
  /\ settlement_of (fst (fetch example_world))
       (promises
          (drive 5 (always_rejects VNull) (fst (fetch example_world))
             (snd (fetch example_world)))) = Some (Resolved VUndefined).
Proof.
  apply (retry_exhausted_on_null_reason example_world); reflexivity.
Defined.

(** With any other reason the bound of the specification holds: three
    invocations, [failureCount = 3], status 'error' with that reason, and
    the promise of the fetch rejects with it. *)
Lemma retry_exhausted_on_other_reason (base : world) (err : nat -> value) :
  promise (entry base) = None ->
  Config.retry (config (entry base)) = RetryCount 2 ->
  documentVisible base = true ->
  err (invocations base + 2)%nat <> VNull ->
  let p := fst (fetch base) in
  let final := drive 5 (fun c => Rejected (err c)) p (snd (fetch base)) in
  invocations final = (invocations base + 3)%nat
  /\ State.failureCount (state (entry final)) = 3
  /\ State.status (state (entry final)) = statusError
  /\ State.error (state (entry final)) = err (invocations base + 2)%nat
  /\ attempts final = attempts base
  /\ settlement_of p (promises final)
     = Some (Rejected (err (invocations base + 2)%nat)).
Proof.
  intros Hp Hretry Hvis Hne p final.
  destruct (retry_twice_then_fail base err Hp Hretry Hvis)
    as (Hat & Hinv & Hf & _ & _ & _ & Herr & _).
  destruct (Herr Hne) as (Hst & He & Hrej).
  repeat split; assumption.
Qed.

(** ** prefetchQuery *)

Lemma prefetchQuery_settled_rejected throwOnError p w err :
  settlement_of p (promises w) = Some (Rejected err) ->
  prefetchQuery_settled throwOnError p w
  = Some (if truthy throwOnError then Rejected err
          else Resolved (State.data (state (entry w)))).
Proof.
  unfold prefetchQuery_settled. intros ->. now destruct (truthy throwOnError).
Qed.

(** C10. Once [query.fetch()] has rejected, [prefetchQuery] resolves with the
    entry's current [state.data] when [throwOnError] is not set, and rejects
    with the reason of the fetch when it is set; it never rejects
    otherwise. *)
Theorem prefetch_swallows_failure (throwOnError : value) (p : nat) (w : world) :
  (forall err,
     settlement_of p (promises w) = Some (Rejected err) ->
     prefetchQuery_settled throwOnError p w
     = Some (if truthy throwOnError then Rejected err
             else Resolved (State.data (state (entry w)))))
  /\ (forall e,
        prefetchQuery_settled throwOnError p w = Some (Rejected e) ->
        truthy throwOnError = true
        /\ settlement_of p (promises w) = Some (Rejected e)).
Proof.
  split.
  - apply prefetchQuery_settled_rejected.
  - intros e. unfold prefetchQuery_settled.
    destruct (settlement_of p (promises w)) as [[v | err] |];
      try discriminate.
    destruct (truthy throwOnError); [| discriminate].
    now intros [= ->].
Qed.

Lemma prefetch_swallows_failure_witness :
  prefetchQuery_settled VUndefined (fst (fetch example_world))
    (drive 5 (always_rejects (VStr "boom")) (fst (fetch example_world))
       (snd (fetch example_world)))
  = Some (Resolved VUndefined)
  /\ prefetchQuery_settled (VBool true) (fst (fetch example_world))
       (drive 5 (always_rejects (VStr "boom")) (fst (fetch example_world))
          (snd (fetch example_world)))
     = Some (Rejected (VStr "boom")).
Proof.
  split.
  - destruct (prefetch_swallows_failure VUndefined (fst (fetch example_world))
                (drive 5 (always_rejects (VStr "boom"))
                   (fst (fetch example_world)) (snd (fetch example_world))))
      as [Hsw _].
    apply (Hsw (VStr "boom")). reflexivity.
  - destruct (prefetch_swallows_failure (VBool true)
                (fst (fetch example_world))
                (drive 5 (always_rejects (VStr "boom"))
                   (fst (fetch example_world)) (snd (fetch example_world))))
      as [Hsw _].
    apply (Hsw (VStr "boom")). reflexivity.
Defined.

(** The data it resolves with is the data cached before the fetch: a failed
    fetch does not touch [state.data]. *)
Lemma prefetch_after_failed_fetch (base : world) (n : nat) (err : nat -> value)
  (throwOnError : value) :
  promise (entry base) = None ->
  Config.retry (config (entry base)) = RetryCount (Z.of_nat n) ->
  documentVisible base = true ->
  err (invocations base + n)%nat <> VNull ->
  prefetchQuery_settled throwOnError (fst (fetch base))
    (drive (2 * n + 1) (fun c => Rejected (err c)) (fst (fetch base))
       (snd (fetch base)))
  = Some (if truthy throwOnError
          then Rejected (err (invocations base + n)%nat)
          else Resolved (State.data (state (entry base)))).
Proof.
  intros Hp Hretry Hvis Hne.
  assert (Hfst : fst (fetch base) = fresh base).
  { unfold fetch. now rewrite Hp. }
  rewrite Hfst.
  destruct (retry_loop (fresh base) base (Z.of_nat n) err Hretry Hvis n 0 1
              (invocations base) _ (fetch_in_flight base Hp))
    as (_ & _ & _ & _ & _ & Hdata & Herr & _); try lia.
  destruct (Herr Hne) as (_ & _ & Hrej).
  rewrite (prefetchQuery_settled_rejected _ _ _ _ Hrej). now rewrite Hdata.
Qed.
(** ** Subscriber callbacks in the log *)

Lemma callbacks_in_app l1 l2 :
  callbacks_in (l1 ++ l2) = callbacks_in l1 ++ callbacks_in l2.
Proof. apply filter_app. Qed.

Lemma callbacks_in_map {A} (f : A -> effect) (b : bool) (l : list A) :
  (forall x, is_callback (f x) = b) ->
  callbacks_in (map f l) = if b then map f l else [].
Proof.
  intros Hf. unfold callbacks_in.
  induction l as [| x l IH]; cbn [map filter]; [now destruct b |].
  rewrite Hf, IH. now destruct b.
Qed.

Lemma callbacks_in_state_updates s (l : list instance) :
  callbacks_in (map (fun d => OnStateUpdate (id d) s) l) = [].
Proof. now rewrite (callbacks_in_map _ false). Qed.

Lemma callbacks_in_onSuccess data l :
  callbacks_in (calls_onSuccess data l) = calls_onSuccess data l.
Proof. unfold calls_onSuccess. now rewrite (callbacks_in_map _ true). Qed.

Lemma callbacks_in_onError error l :
  callbacks_in (calls_onError error l) = calls_onError error l.
Proof. unfold calls_onError. now rewrite (callbacks_in_map _ true). Qed.

Lemma callbacks_in_onSettled data error l :
  callbacks_in (calls_onSettled data error l) = calls_onSettled data error l.
Proof. unfold calls_onSettled. now rewrite (callbacks_in_map _ true). Qed.

Ltac tidy_callbacks :=
  rewrite ?callbacks_in_app, ?callbacks_in_state_updates,
    ?callbacks_in_onSuccess, ?callbacks_in_onError, ?callbacks_in_onSettled,
    ?app_nil_r; cbn [callbacks_in filter is_callback app];
  rewrite ?app_nil_r, <- ?app_assoc.

Lemma through_retries_cancelled d w :
  truthy (cancelled (entry w)) = true ->
  through_retries d w (Throw (cancelled (entry w)))
  = Throw (cancelled (entry w)).
Proof.
  intros Hc. induction d as [| d IH]; cbn; [reflexivity |].
  rewrite Hc. exact IH.
Qed.

(** ** What a settling attempt does to the entry *)

(** An attempt whose operation resolves while [query.cancelled] is not set
    commits the data, whichever fetch [query.promise] belongs to by then. *)
Lemma settle_commits (w : world) (a : attempt) (rest : list attempt)
  (call : nat) (d : value) :
  take_attempt (awaits_call call) (attempts w) = Some (a, rest) ->
  truthy (cancelled (entry w)) = false ->
  let final := step (QueryFnSettles call (Resolved d)) w in
  let st := state (entry final) in
  State.data st = committed_data w d
  /\ State.status st = statusSuccess
  /\ State.error st = VNull
  /\ State.isStale st = false
  /\ State.isFetching st = false
  /\ State.failureCount st = 0
  /\ State.updatedAt st = clock w
  /\ promise (entry final) = None
  /\ cancelPromises (entry final) = None
  /\ attempts final = rest
  /\ invocations final = invocations w
  /\ promises final = (owner a, Resolved d) :: promises w
  /\ callbacks_in (log final)
     = callbacks_in (log w)
       ++ calls_onSuccess (committed_data w d) (callbackInstances a)
       ++ calls_onSettled (committed_data w d) VNull (callbackInstances a).
Proof.
  intros Htake Hc. cbn [step]. unfold queryFn_settles. rewrite Htake.
  open_world w.
  match goal with st : State.t |- _ => destruct st end.
  cbn in Hc. cbn.
  unfold tryFetchData_settled. cbn. rewrite Hc.
  rewrite through_retries_not_cancelled by exact Hc.
  unfold fetch_continue, setData, dispatch, scheduleStaleTimeout,
    committed_data. cbn.
  match goal with
  | |- context [Config.staleTime ?c] => destruct (Config.staleTime c)
  end; cbn; tidy_callbacks; repeat split.
Qed.

(** An attempt whose operation settles, either way, while [query.cancelled]
    is set is discarded. *)
Lemma settle_discards (w : world) (a : attempt) (rest : list attempt)
  (call : nat) (r : settlement) :
  take_attempt (awaits_call call) (attempts w) = Some (a, rest) ->
  truthy (cancelled (entry w)) = true ->
  let final := step (QueryFnSettles call r) w in
  let st := state (entry final) in
  State.data st = State.data (state (entry w))
  /\ State.status st = State.status (state (entry w))
  /\ State.error st = State.error (state (entry w))
  /\ State.failureCount st = State.failureCount (state (entry w))
  /\ State.updatedAt st = State.updatedAt (state (entry w))
  /\ State.isFetching st = false
  /\ State.isStale st = true
  /\ promise (entry final) = None
  /\ attempts final = rest
  /\ invocations final = invocations w
  /\ promises final = (owner a, Resolved VUndefined) :: promises w
  /\ callbacks_in (log final) = callbacks_in (log w).
Proof.
  intros Htake Hc. cbn [step]. unfold queryFn_settles. rewrite Htake.
  open_world w. cbn in Hc. cbn.
  unfold tryFetchData_settled.
  destruct r as [d | e]; cbn; rewrite Hc;
    (rewrite through_retries_cancelled by exact Hc);
    unfold fetch_continue, dispatch; cbn; rewrite strict_eq_refl; cbn;
    tidy_callbacks; repeat split.
Qed.

(** A retry timer that fires while [query.cancelled] is set ends the fetch
    without another invocation. *)
Lemma timer_discards (w : world) (a : attempt) (rest : list attempt)
  (timer : nat) :
  take_attempt (awaits_timer timer) (attempts w) = Some (a, rest) ->
  truthy (cancelled (entry w)) = true ->
  let final := step (RetryTimerFires timer) w in
  let st := state (entry final) in
  invocations final = invocations w
  /\ attempts final = rest
  /\ State.data st = State.data (state (entry w))
  /\ State.status st = State.status (state (entry w))
  /\ State.failureCount st = State.failureCount (state (entry w))
  /\ State.isFetching st = false
  /\ promise (entry final) = None
  /\ promises final = (owner a, Resolved VUndefined) :: promises w
  /\ callbacks_in (log final) = callbacks_in (log w).
Proof.
  intros Htake Hc. cbn [step]. unfold retryTimer_fires. rewrite Htake.
  open_world w. cbn in Hc. cbn. rewrite Hc.
  rewrite through_retries_cancelled by exact Hc.
  unfold fetch_continue, dispatch; cbn; rewrite strict_eq_refl; cbn.
  tidy_callbacks; repeat split.
Qed.

Lemma fetch_when_idle base :
  promise (entry base) = None ->
  fst (fetch base) = fresh base
  /\ attempts (snd (fetch base))
     = mkAttempt (fresh base)
         ((if wasSuspended (entry base)
           then match suspenseInstance (entry base) with
                | Some i => [i]
                | None => []
                end
           else []) ++ instances (entry base))
         0 (AwaitQueryFn (invocations base))
       :: attempts base
  /\ invocations (snd (fetch base)) = S (invocations base)
  /\ fresh (snd (fetch base)) = S (fresh base)
  /\ promise (entry (snd (fetch base))) = Some (fresh base)
  /\ cancelled (entry (snd (fetch base))) = VNull.
Proof. intros Hp. unfold fetch. rewrite Hp. cbn. repeat split. Qed.

(** What a starting fetch and a cancel leave alone. *)
Lemma fetch_frame base :
  promises (snd (fetch base)) = promises base
  /\ config (entry (snd (fetch base))) = config (entry base)
  /\ State.data (state (entry (snd (fetch base))))
     = State.data (state (entry base))
  /\ clock (snd (fetch base)) = clock base
  /\ documentVisible (snd (fetch base)) = documentVisible base.
Proof.
  unfold fetch. destruct (promise (entry base)); cbn; repeat split.
Qed.

Lemma cancel_frame w :
  attempts (cancel w) = attempts w
  /\ invocations (cancel w) = invocations w
  /\ fresh (cancel w) = fresh w
  /\ promises (cancel w) = promises w
  /\ config (entry (cancel w)) = config (entry w)
  /\ state (entry (cancel w)) = state (entry w)
  /\ promise (entry (cancel w)) = None
  /\ cancelled (entry (cancel w)) = cancelledError.
Proof.
  open_world w. unfold cancel. cbn.
  match goal with |- context [match ?h with Some _ => _ | None => _ end] =>
    destruct h end; cbn; repeat split.
Qed.

(** X2. A fetch that is cancelled before its operation settles leaves no
    trace of the result: whether the operation then resolves or rejects, the
    data, error and [updatedAt] are those from before the fetch, no failure
    is counted, no subscriber callback is called and the promise of the
    fetch resolves with [undefined].  The status stays what the start of the
    fetch made it ('loading' without data), with [isFetching = false]. *)
Theorem cancelled_fetch_is_discarded (base : world) (r : settlement) :
  promise (entry base) = None ->
  let final :=
    run [CallFetch; CallCancel; QueryFnSettles (invocations base) r] base in
  let st := state (entry final) in
  State.data st = State.data (state (entry base))
  /\ State.error st = State.error (state (entry base))
  /\ State.updatedAt st = State.updatedAt (state (entry base))
  /\ State.status st
     = (if is_defined (State.data (state (entry base)))
        then statusSuccess else statusLoading)
  /\ State.failureCount st = 0
  /\ State.isFetching st = false
  /\ State.isStale st = true
  /\ promise (entry final) = None
  /\ attempts final = attempts base
  /\ invocations final = S (invocations base)
  /\ settlement_of (fresh base) (promises final) = Some (Resolved VUndefined)
  /\ callbacks_in (log final) = callbacks_in (log base).
Proof.
  intros Hp final st. subst st final.
  change (run [CallFetch; CallCancel; QueryFnSettles (invocations base) r]
            base)
    with (step (QueryFnSettles (invocations base) r)
            (cancel (snd (fetch base)))).
  destruct (fetch_when_idle base Hp) as (_ & Hat & Hinv & _ & _ & _).
  assert (Htake :
    take_attempt (awaits_call (invocations base))
      (attempts (cancel (snd (fetch base))))
    = Some (mkAttempt (fresh base)
              ((if wasSuspended (entry base)
                then match suspenseInstance (entry base) with
                     | Some i => [i]
                     | None => []
                     end
                else []) ++ instances (entry base))
              0 (AwaitQueryFn (invocations base)),
            attempts base)).
  { unfold fetch. rewrite Hp. cbn. unfold awaits_call. cbn.
    now rewrite Nat.eqb_refl. }
  assert (Hc : truthy (cancelled (entry (cancel (snd (fetch base))))) = true).
  { unfold fetch. rewrite Hp. reflexivity. }
  destruct (settle_discards _ _ _ _ r Htake Hc)
    as (Hd & Hs & He & Hf & Hu & Hfe & Hst & Hpr & Hatt & Hin & Hset & Hcb).
  cbn [owner] in Hset.
  rewrite Hd, Hs, He, Hf, Hu, Hfe, Hst, Hpr, Hatt, Hin, Hset, Hcb.
  unfold fetch. rewrite Hp. cbn. unfold dispatch. cbn.
  rewrite Nat.eqb_refl. tidy_callbacks. repeat split.
Qed.

Lemma succ_neqb n : Nat.eqb (S n) n = false.
Proof. apply Nat.eqb_neq. lia. Qed.

(** X3. A cancelled attempt is discarded only while the marker stays set: a
    new fetch clears [query.cancelled], so when the operation of the
    cancelled attempt resolves afterwards its data is committed, and it
    deletes [query.promise] and the cancel hook although they belong to the
    new fetch, whose attempt is still pending.  The next [fetch] call is then
    not deduplicated: it invokes the operation a third time. *)
Theorem next_fetch_revives_cancelled_attempt (base : world) (d : value) :
  promise (entry base) = None ->
  let w := run [CallFetch; CallCancel; CallFetch] base in
  let final := step (QueryFnSettles (invocations base) (Resolved d)) w in
  promise (entry w) = Some (S (fresh base))
  /\ invocations w = S (S (invocations base))
  /\ State.data (state (entry final)) = committed_data base d
  /\ State.status (state (entry final)) = statusSuccess
  /\ State.isFetching (state (entry final)) = false
  /\ settlement_of (fresh base) (promises final) = Some (Resolved d)
  /\ settlement_of (S (fresh base)) (promises final)
     = settlement_of (S (fresh base)) (promises base)
  /\ promise (entry final) = None
  /\ cancelPromises (entry final) = None
  /\ (exists cbs,
        attempts final
        = mkAttempt (S (fresh base)) cbs 0
            (AwaitQueryFn (S (invocations base))) :: attempts base)
  /\ invocations (snd (fetch final)) = S (S (S (invocations base))).
Proof.
  intros Hp w final. subst final w.
  change (run [CallFetch; CallCancel; CallFetch] base)
    with (snd (fetch (cancel (snd (fetch base))))).
  set (w1 := snd (fetch base)). set (w2 := cancel w1).
  set (w := snd (fetch w2)).
  destruct (fetch_when_idle base Hp) as (_ & Hat1 & Hinv1 & Hfr1 & _ & _).
  destruct (fetch_frame base) as (Hprs1 & Hcfg1 & Hdata1 & _ & _).
  destruct (cancel_frame w1)
    as (Hat2 & Hinv2 & Hfr2 & Hprs2 & Hcfg2 & Hst2 & Hp2 & _).
  destruct (fetch_when_idle w2 Hp2) as (_ & Hat & Hinv & _ & Hpw & Hcw).
  destruct (fetch_frame w2) as (Hprs & Hcfg & Hdata & _ & _).
  fold w1 in Hat1, Hinv1, Hfr1, Hprs1, Hcfg1, Hdata1.
  fold w2 in Hat2, Hinv2, Hfr2, Hprs2, Hcfg2, Hst2.
  fold w in Hat, Hinv, Hpw, Hcw, Hprs, Hcfg, Hdata.
  rewrite Hat2, Hat1, Hinv2, Hinv1, Hfr2, Hfr1 in Hat.
  rewrite Hinv2, Hinv1 in Hinv. rewrite Hfr2, Hfr1 in Hpw.
  assert (Hcd : committed_data w d = committed_data base d).
  { unfold committed_data.
    now rewrite Hcfg, Hcfg2, Hcfg1, Hdata, Hst2, Hdata1. }
  assert (Hc : truthy (cancelled (entry w)) = false) by now rewrite Hcw.
  match type of Hat with
  | _ = ?a2 :: ?a1 :: _ =>
      assert (Htake :
        take_attempt (awaits_call (invocations base)) (attempts w)
        = Some (a1, a2 :: attempts base))
  end.
  { rewrite Hat. cbn [take_attempt]. unfold awaits_call. cbn [waiting].
    now rewrite succ_neqb, Nat.eqb_refl. }
  destruct (settle_commits w _ _ _ d Htake Hc)
    as (Hd & Hs & _ & _ & Hfe & _ & _ & Hpr & Hhook & Hatt & Hin & Hset & _).
  cbn [owner] in Hset.
  destruct (fetch_when_idle _ Hpr) as (_ & _ & Hnext & _).
  rewrite Hnext, Hin, Hinv, Hd, Hcd, Hset, Hprs, Hprs2, Hprs1.
  cbn [settlement_of]. rewrite Nat.eqb_refl, succ_neqb.
  repeat split; try assumption. eauto.
Qed.

(** ** Deduplication over a whole run *)

Lemma fetch_when_busy w p : promise (entry w) = Some p -> fetch w = (p, w).
Proof. intros Hp. unfold fetch. now rewrite Hp. Qed.


Lemma interval_when_busy h w :
  promise (entry w) <> None -> interval_fires h w = w.
Proof.
  intros Hp. unfold interval_fires.
  destruct (refetchIntervalId (entry w)); [| reflexivity].
  match goal with |- context [if ?b then _ else _] => destruct b end;
    [| reflexivity].
  destruct (promise (entry w)) as [p |] eqn:E; [| contradiction].
  now rewrite (fetch_when_busy _ _ E).
Qed.

(** X5. While an entry has an in-flight operation, any number of [fetch]
    calls and ticks of the refetch interval leave the world exactly as it
    is: no invocation, no dispatch, no notification. *)
Theorem refetch_requests_are_absorbed (es : list event) (w : world) :
  Forall (fun e => e = CallFetch \/ exists h, e = IntervalFires h) es ->
  promise (entry w) <> None ->
  run es w = w.
Proof.
  intros Hes. revert w. induction Hes as [| e es He _ IH]; intros w Hp;
    [reflexivity |].
  cbn [run fold_left]. fold (run es (step e w)).
  assert (Hstep : step e w = w).
  { destruct He as [-> | [h ->]]; cbn [step].
    - destruct (promise (entry w)) as [p |] eqn:E; [| contradiction].
      now rewrite (fetch_when_busy _ _ E).
    - now apply interval_when_busy. }
  rewrite Hstep. now apply IH.
Qed.

Lemma refetch_requests_are_absorbed_witness :
  run [CallFetch; IntervalFires 1; CallFetch; CallFetch]
    (snd (fetch example_polling_world))
  = snd (fetch example_polling_world).
Proof.
  apply (refetch_requests_are_absorbed
           [CallFetch; IntervalFires 1; CallFetch; CallFetch]
           (snd (fetch example_polling_world))).
  - repeat (apply Forall_cons;
              [first [left; reflexivity | right; eexists; reflexivity] |]).
    apply Forall_nil.
  - cbn. discriminate.
Defined.

(** ** A retry that waits for the document to become visible *)

Lemma take_attempt_none sel l :
  Forall (fun a => sel a = false) l -> take_attempt sel l = None.
Proof.
  induction 1 as [| a l Ha _ IH]; cbn; [reflexivity |]. now rewrite Ha, IH.
Qed.

Lemma parked_awaits_nothing w :
  all_parked w ->
  (forall call, take_attempt (awaits_call call) (attempts w) = None)
  /\ (forall timer, take_attempt (awaits_timer timer) (attempts w) = None).
Proof.
  intros Hall. split; intros x; apply take_attempt_none;
    (eapply Forall_impl; [| exact Hall]); cbn; intros a Ha.
  - unfold awaits_call. now rewrite Ha.
  - unfold awaits_timer. now rewrite Ha.
Qed.

Lemma passive_on_parked e w :
  passive e = true ->
  all_parked w ->
  promise (entry w) <> None ->
  entry (step e w) = entry w
  /\ attempts (step e w) = attempts w
  /\ invocations (step e w) = invocations w
  /\ promises (step e w) = promises w
  /\ log (step e w) = log w.
Proof.
  intros Hpas Hall Hp. destruct (parked_awaits_nothing w Hall) as [Hc Ht].
  destruct e; try discriminate Hpas; cbn [step].
  - destruct (promise (entry w)) as [p |] eqn:E; [| contradiction].
    rewrite (fetch_when_busy _ _ E). cbn. repeat split.
  - unfold queryFn_settles. rewrite Hc. repeat split.
  - unfold retryTimer_fires. rewrite Ht. repeat split.
  - rewrite (interval_when_busy _ _ Hp). repeat split.
  - repeat split.
  - repeat split.
Qed.

Lemma run_passive_on_parked es :
  forall w,
    forallb passive es = true ->
    all_parked w ->
    promise (entry w) <> None ->
    entry (run es w) = entry w
    /\ attempts (run es w) = attempts w
    /\ invocations (run es w) = invocations w
    /\ promises (run es w) = promises w
    /\ log (run es w) = log w.
Proof.
  induction es as [| e es IH]; intros w Hes Hall Hp; [now repeat split |].
  cbn in Hes. apply andb_true_iff in Hes as [He Hes].
  destruct (passive_on_parked e w He Hall Hp) as (H1 & H2 & H3 & H4 & H5).
  cbn [run fold_left]. fold (run es (step e w)).
  destruct (IH (step e w) Hes) as (G1 & G2 & G3 & G4 & G5).
  - unfold all_parked. now rewrite H2.
  - now rewrite H1.
  - rewrite G1, G2, G3, G4, G5. now repeat split.
Qed.

Lemma through_retries_park d w : through_retries d w Park = Park.
Proof. induction d as [| d IH]; cbn; auto. Qed.

Lemma through_retries_retry d w delay :
  through_retries d w (Retry delay) = Retry delay.
Proof. induction d as [| d IH]; cbn; auto. Qed.

(** A rejection that is to be retried while the document is not visible
    parks the fetch. *)
Lemma settle_parks (w : world) (a : attempt) (rest : list attempt)
  (call : nat) (e : value) :
  take_attempt (awaits_call call) (attempts w) = Some (a, rest) ->
  truthy (cancelled (entry w)) = false ->
  should_retry (Config.retry (config (entry w)))
    (State.failureCount (state (entry w)) + 1) e = true ->
  documentVisible w = false ->
  let final := step (QueryFnSettles call (Rejected e)) w in
  attempts final
  = mkAttempt (owner a) (callbackInstances a) (depth a) Parked :: rest
  /\ shouldContinueRetryOnFocus (entry final) = Some true
  /\ State.failureCount (state (entry final))
     = State.failureCount (state (entry w)) + 1
  /\ State.isFetching (state (entry final))
     = State.isFetching (state (entry w))
  /\ promise (entry final) = promise (entry w)
  /\ invocations final = invocations w
  /\ promises final = promises w.
Proof.
  intros Htake Hc Hretry Hvis. cbn [step]. unfold queryFn_settles.
  rewrite Htake. open_world w. cbn in Hc, Hretry, Hvis. cbn.
  unfold tryFetchData_settled. cbn. rewrite Hc.
  unfold dispatch. cbn. rewrite Hretry, Hvis. cbn.
  rewrite through_retries_park. cbn. repeat split.
Qed.

Lemma fetch_state base :
  promise (entry base) = None ->
  state (entry (snd (fetch base)))
  = assign_derived
      (with_failureCount 0
         (with_isFetching true
            (with_status
               (if is_defined (State.data (state (entry base)))
                then statusSuccess else statusLoading)
               (state (entry base))))).
Proof. intros Hp. unfold fetch. rewrite Hp. reflexivity. Qed.

Lemma first_rejection_parks base e :
  promise (entry base) = None ->
  documentVisible base = false ->
  should_retry (Config.retry (config (entry base))) 1 e = true ->
  let w :=
    step (QueryFnSettles (invocations base) (Rejected e)) (snd (fetch base)) in
  (exists cbs, attempts w = mkAttempt (fresh base) cbs 0 Parked :: attempts base)
  /\ promise (entry w) = Some (fresh base)
  /\ shouldContinueRetryOnFocus (entry w) = Some true
  /\ State.isFetching (state (entry w)) = true
  /\ State.failureCount (state (entry w)) = 1
  /\ invocations w = S (invocations base)
  /\ promises w = promises base.
Proof.
  intros Hp Hvis Hretry.
  destruct (fetch_when_idle base Hp) as (_ & Hat & Hinv & _ & Hpw & Hcw).
  destruct (fetch_frame base) as (Hprs & Hcfg & _ & _ & Hv).
  pose proof (fetch_state base Hp) as Hst.
  set (w1 := snd (fetch base)) in *.
  assert (Htake :
    take_attempt (awaits_call (invocations base)) (attempts w1)
    = Some (mkAttempt (fresh base)
              ((if wasSuspended (entry base)
                then match suspenseInstance (entry base) with
                     | Some i => [i]
                     | None => []
                     end
                else []) ++ instances (entry base))
              0 (AwaitQueryFn (invocations base)),
            attempts base)).
  { rewrite Hat. cbn [take_attempt]. unfold awaits_call. cbn [waiting].
    now rewrite Nat.eqb_refl. }
  destruct (settle_parks w1 _ _ _ e Htake) as (G1 & G2 & G3 & G4 & G5 & G6 & G7).
  - now rewrite Hcw.
  - rewrite Hcfg, Hst. exact Hretry.
  - now rewrite Hv.
  - cbn zeta. rewrite G1, G2, G3, G4, G5, G6, G7, Hst, Hpw, Hinv, Hprs.
    cbn. repeat split. eauto.
Qed.

(** X6. When an attempt fails and is to be retried while the document is
    not visible, the fetch is parked on a promise that never settles and
    [shouldContinueRetryOnFocus] is set.  Nothing in this engine resumes it:
    the document becoming visible again, time passing, interval ticks and
    further [fetch] calls (absorbed by the deduplication) neither invoke the
    operation again nor settle the promise, and the entry keeps
    [isFetching = true]. *)
Theorem parked_retry_is_never_resumed (base : world) (e : value)
  (es : list event) :
  promise (entry base) = None ->
  all_parked base ->
  documentVisible base = false ->
  should_retry (Config.retry (config (entry base))) 1 e = true ->
  forallb passive es = true ->
  let w :=
    step (QueryFnSettles (invocations base) (Rejected e)) (snd (fetch base)) in
  let final := run es w in
  shouldContinueRetryOnFocus (entry final) = Some true
  /\ promise (entry final) = Some (fresh base)
  /\ State.isFetching (state (entry final)) = true
  /\ State.failureCount (state (entry final)) = 1
  /\ invocations final = S (invocations base)
  /\ promises final = promises base
  /\ all_parked final.
Proof.
  intros Hp Hall Hvis Hretry Hes w final.
  destruct (first_rejection_parks base e Hp Hvis Hretry)
    as ((cbs & Hat) & Hpw & Hsc & Hfe & Hfc & Hinv & Hprs).
  fold w in Hat, Hpw, Hsc, Hfe, Hfc, Hinv, Hprs.
  assert (Hallw : all_parked w).
  { unfold all_parked. rewrite Hat. constructor; [reflexivity | exact Hall]. }
  assert (Hpn : promise (entry w) <> None) by (rewrite Hpw; discriminate).
  destruct (run_passive_on_parked es w Hes Hallw Hpn)
    as (H1 & H2 & H3 & H4 & _).
  subst final. rewrite H1, H3, H4. unfold all_parked. rewrite H2.
  repeat split; assumption.
Qed.

Lemma parked_retry_is_never_resumed_witness :
  shouldContinueRetryOnFocus
    (entry
       (run [VisibilityChanges true; CallFetch; TimePasses 99]
          (step (QueryFnSettles 0 (Rejected (VStr "offline")))
             (snd (fetch (set_documentVisible false example_world))))))
  = Some true
  /\ invocations
       (run [VisibilityChanges true; CallFetch; TimePasses 99]
          (step (QueryFnSettles 0 (Rejected (VStr "offline")))
             (snd (fetch (set_documentVisible false example_world)))))
     = 1%nat.
Proof.
  destruct (parked_retry_is_never_resumed
              (set_documentVisible false example_world) (VStr "offline")
              [VisibilityChanges true; CallFetch; TimePasses 99])
    as (H1 & _ & _ & _ & H5 & _); try reflexivity.
  - constructor.
  - split; [exact H1 | exact H5].
Defined.

(** ** Retries: bounds, success after failures, endless retries *)

Section RetryOutcomes.

Variables (p : nat) (base : world).

Lemma in_flight_head call f k w :
  in_flight p (AwaitQueryFn call) f k base w ->
  exists a,
    take_attempt (awaits_call call) (attempts w) = Some (a, attempts base)
    /\ owner a = p.
Proof.
  intros [(cbs & d & Hat) _ _ _ _ _ _ _ _]. rewrite Hat.
  exists (mkAttempt p cbs d (AwaitQueryFn call)). split; [| reflexivity].
  cbn [take_attempt]. unfold awaits_call.
  cbn [waiting]. now rewrite Nat.eqb_refl.
Qed.

Lemma resolution_final call f k w d :
  in_flight p (AwaitQueryFn call) f k base w ->
  succeeded_with p d k base (step (QueryFnSettles call (Resolved d)) w).
Proof.
  intros Hin. destruct (in_flight_head _ _ _ _ Hin) as (a & Htake & Hown).
  destruct Hin as [_ Hc Hcfg _ Hprs Hdata _ _ Hk].
  assert (Hfalsy : truthy (cancelled (entry w)) = false) by now rewrite Hc.
  destruct (settle_commits w a _ call d Htake Hfalsy)
    as (Hd & Hs & He & Hst & Hfe & Hf & _ & Hpr & _ & Hat & Hinv & Hset & _).
  unfold succeeded_with. rewrite Hd, Hs, He, Hst, Hfe, Hf, Hpr, Hat, Hinv, Hset.
  rewrite Hown, Hprs, Hk. unfold committed_data. rewrite Hcfg, Hdata.
  repeat split.
Qed.

Variable n : Z.
Hypothesis retry_n : Config.retry (config (entry base)) = RetryCount n.
Hypothesis visible : documentVisible base = true.

(** [m] rejections, each within the retry count, then a resolution. *)
Lemma retry_until_success (answer : nat -> settlement) (d : value) (m : nat) :
  forall (f : Z) (k call : nat) (w : world),
    in_flight p (AwaitQueryFn call) f k base w ->
    S call = (invocations base + k)%nat ->
    f + Z.of_nat m <= n ->
    (forall i, (i < m)%nat -> exists e, answer (call + i)%nat = Rejected e) ->
    answer (call + m)%nat = Resolved d ->
    succeeded_with p d (k + m) base (drive (2 * m + 1) answer p w).
Proof.
  induction m as [| m IH]; intros f k call w Hin Hcall Hleft Hrej Hres.
  - cbn [Nat.mul Nat.add]. rewrite (drive_settles _ _ _ _ _ _ _ _ Hin).
    cbn [drive]. rewrite Nat.add_0_r in *. rewrite Hres.
    now apply resolution_final with (f := f).
  - replace (2 * S m + 1)%nat with (S (S (2 * m + 1))) by lia.
    rewrite (drive_settles _ _ _ _ _ _ _ _ Hin).
    destruct (Hrej 0%nat ltac:(lia)) as [e He]. rewrite Nat.add_0_r in He.
    rewrite He.
    destruct (rejection_retries _ _ _ _ _ _ e Hin) as (t & delay & Ht);
      [| exact visible |].
    { rewrite retry_n. unfold should_retry. cbn. rewrite orb_false_r.
      apply Z.leb_le. lia. }
    rewrite (drive_fires _ _ _ _ _ _ _ _ _ Ht).
    pose proof (timer_reinvokes _ _ _ _ _ _ _ Ht) as Hnext.
    assert (Hinv :
      invocations (step (QueryFnSettles call (Rejected e)) w) = S call).
    { rewrite (calls_so_far _ _ _ _ _ _ Ht). now rewrite Hcall. }
    rewrite Hinv in Hnext.
    replace (k + S m)%nat with (S k + m)%nat by lia.
    apply (IH (f + 1) (S k) (S call) _ Hnext); try lia.
    + intros i Hi. destruct (Hrej (S i) ltac:(lia)) as [e' He'].
      exists e'. now replace (S call + i)%nat with (call + S i)%nat by lia.
    + now replace (S call + m)%nat with (call + S m)%nat by lia.
Qed.

End RetryOutcomes.

Section EndlessRetry.

Variables (p : nat) (base : world) (answer : nat -> settlement).
Hypothesis visible : documentVisible base = true.
Hypothesis always_retried :
  forall f e, should_retry (Config.retry (config (entry base))) f e = true.
Hypothesis always_rejected : forall c, exists e, answer c = Rejected e.

(** As long as every rejection is retried, the fetch is still in flight
    after any number of failures. *)
Lemma retry_forever (m : nat) :
  forall (f : Z) (k call : nat) (w : world),
    in_flight p (AwaitQueryFn call) f k base w ->
    S call = (invocations base + k)%nat ->
    in_flight p (AwaitQueryFn (call + m)) (f + Z.of_nat m) (k + m) base
      (drive (2 * m) answer p w).
Proof.
  induction m as [| m IH]; intros f k call w Hin Hcall.
  - cbn [Nat.mul drive]. now rewrite !Nat.add_0_r, Z.add_0_r.
  - replace (2 * S m)%nat with (S (S (2 * m))) by lia.
    rewrite (drive_settles _ _ _ _ _ _ _ _ Hin).
    destruct (always_rejected call) as [e He]. rewrite He.
    destruct (rejection_retries _ _ _ _ _ _ e Hin) as (t & delay & Ht);
      [apply always_retried | exact visible |].
    rewrite (drive_fires _ _ _ _ _ _ _ _ _ Ht).
    pose proof (timer_reinvokes _ _ _ _ _ _ _ Ht) as Hnext.
    assert (Hinv :
      invocations (step (QueryFnSettles call (Rejected e)) w) = S call).
    { rewrite (calls_so_far _ _ _ _ _ _ Ht). now rewrite Hcall. }
    rewrite Hinv in Hnext.
    replace (call + S m)%nat with (S call + m)%nat by lia.
    replace (k + S m)%nat with (S k + m)%nat by lia.
    replace (f + Z.of_nat (S m)) with (f + 1 + Z.of_nat m) by lia.
    apply (IH (f + 1) (S k) (S call) _ Hnext). lia.
Qed.

End EndlessRetry.

(** X7. The retry bound for any count: with [retry = n], a visible document
    and an operation that rejects every time (the last time with a reason
    other than [null]), the fetch invokes the operation exactly [n + 1]
    times and ends after them with [failureCount = n + 1], status 'error',
    the last reason as error, the data untouched, and its promise rejected
    with that reason. *)
Theorem retry_count_bound (base : world) (n : nat) (err : nat -> value) :
  promise (entry base) = None ->
  Config.retry (config (entry base)) = RetryCount (Z.of_nat n) ->
  documentVisible base = true ->
  err (invocations base + n)%nat <> VNull ->
  let p := fst (fetch base) in
  let final :=
    drive (2 * n + 1) (fun c => Rejected (err c)) p (snd (fetch base)) in
  invocations final = (invocations base + (n + 1))%nat
  /\ State.failureCount (state (entry final)) = Z.of_nat n + 1
  /\ State.status (state (entry final)) = statusError
  /\ State.error (state (entry final)) = err (invocations base + n)%nat
  /\ State.data (state (entry final)) = State.data (state (entry base))
  /\ State.isFetching (state (entry final)) = false
  /\ promise (entry final) = None
  /\ attempts final = attempts base
  /\ settlement_of p (promises final)
     = Some (Rejected (err (invocations base + n)%nat)).
Proof.
  intros Hp Hretry Hvis Hne p final. subst p final.
  destruct (fetch_when_idle base Hp) as (-> & _).
  destruct (retry_loop (fresh base) base (Z.of_nat n) err Hretry Hvis n 0 1
              (invocations base) _ (fetch_in_flight base Hp))
    as (Hat & Hinv & Hf & Hpr & Hfe & Hdata & Herr & _); try lia.
  destruct (Herr Hne) as (Hst & He & Hrej).
  rewrite Hinv. repeat split; try assumption. lia.
Qed.

Lemma retry_count_bound_witness :
  invocations
    (drive 7 (always_rejects (VStr "boom"))
       (fst (fetch (on_entry
                      (set_config
                         (example_config true (RetryCount 3) 0 VUndefined))
                      example_world)))
       (snd (fetch (on_entry
                      (set_config
                         (example_config true (RetryCount 3) 0 VUndefined))
                      example_world)))) = 4%nat
  /\ State.failureCount
       (state
          (entry
             (drive 7 (always_rejects (VStr "boom"))
                (fst (fetch (on_entry
                               (set_config
                                  (example_config true (RetryCount 3) 0
                                     VUndefined))
                               example_world)))
                (snd (fetch (on_entry
                               (set_config
                                  (example_config true (RetryCount 3) 0
                                     VUndefined))
                               example_world)))))) = 4.
Proof.
  destruct (retry_count_bound
              (on_entry
                 (set_config (example_config true (RetryCount 3) 0 VUndefined))
                 example_world)
              3 (fun _ => VStr "boom"))
    as (H1 & H2 & _); try reflexivity; [discriminate |].
  split; [exact H1 | exact H2].
Defined.

(** X8. With [retry] false, 0 or negative, the first rejection is final,
    visible document or not: one invocation, [failureCount = 1], status
    'error', no retry timer. *)
Theorem no_retry_single_attempt (base : world) (e : value) :
  promise (entry base) = None ->
  (Config.retry (config (entry base)) = RetryBool false
   \/ exists z, Config.retry (config (entry base)) = RetryCount z /\ z <= 0) ->
  e <> VNull ->
  let final :=
    step (QueryFnSettles (invocations base) (Rejected e)) (snd (fetch base)) in
  invocations final = S (invocations base)
  /\ attempts final = attempts base
  /\ State.failureCount (state (entry final)) = 1
  /\ State.status (state (entry final)) = statusError
  /\ State.error (state (entry final)) = e
  /\ State.isFetching (state (entry final)) = false
  /\ promise (entry final) = None
  /\ settlement_of (fresh base) (promises final) = Some (Rejected e).
Proof.
  intros Hp Hretry Hne final. subst final.
  destruct (rejection_final (fresh base) base (invocations base) 0 1 _ e
              (fetch_in_flight base Hp))
    as (Hat & Hinv & Hf & Hpr & Hfe & _ & Herr & _).
  { unfold should_retry.
    destruct Hretry as [-> | (z & -> & Hz)]; cbn; [reflexivity |].
    rewrite orb_false_r. apply Z.leb_gt. lia. }
  destruct (Herr Hne) as (Hst & He & Hrej).
  rewrite Hinv. repeat split; try assumption. lia.
Qed.

Lemma no_retry_single_attempt_witness :
  invocations
    (step (QueryFnSettles 0 (Rejected (VStr "boom")))
       (snd (fetch (on_entry
                      (set_config
                         (example_config true (RetryBool false) 0 VUndefined))
                      example_world)))) = 1%nat
  /\ attempts
       (step (QueryFnSettles 0 (Rejected (VStr "boom")))
          (snd (fetch (on_entry
                         (set_config
                            (example_config true (RetryBool false) 0
                               VUndefined))
                         example_world)))) = [].
Proof.
  destruct (no_retry_single_attempt
              (on_entry
                 (set_config
                    (example_config true (RetryBool false) 0 VUndefined))
                 example_world)
              (VStr "boom"))
    as (H1 & H2 & _); try reflexivity; [now left | discriminate |].
  split; [exact H1 | exact H2].
Defined.

(** X9. With [retry = true], a visible document and an operation that
    keeps rejecting, the fetch never gives up: after any number [m] of
    failures it is waiting on invocation [m + 1], no promise has settled and
    the status is not 'error'. *)
Theorem retry_true_never_gives_up (base : world) (err : nat -> value)
  (m : nat) :
  promise (entry base) = None ->
  Config.retry (config (entry base)) = RetryBool true ->
  documentVisible base = true ->
  let p := fst (fetch base) in
  let w := drive (2 * m) (fun c => Rejected (err c)) p (snd (fetch base)) in
  invocations w = (invocations base + (m + 1))%nat
  /\ State.failureCount (state (entry w)) = Z.of_nat m
  /\ State.status (state (entry w)) <> statusError
  /\ promises w = promises base
  /\ exists cbs d,
       attempts w
       = mkAttempt p cbs d (AwaitQueryFn (invocations base + m))
         :: attempts base.
Proof.
  intros Hp Hretry Hvis p w. subst p w.
  destruct (fetch_when_idle base Hp) as (-> & _).
  destruct (retry_forever (fresh base) base (fun c => Rejected (err c)) Hvis)
    with (m := m) (f := 0) (k := 1%nat) (call := invocations base)
         (w := snd (fetch base))
    as [Hat _ _ _ Hprs _ Hst Hf Hk].
  - intros f e. now rewrite Hretry.
  - intros c. eauto.
  - now apply fetch_in_flight.
  - lia.
  - rewrite Hk, Hf, Hst, Hprs. repeat split; try lia; [| exact Hat].
    destruct (is_defined _); discriminate.
Qed.

Lemma retry_true_never_gives_up_witness :
  invocations
    (drive 20 (always_rejects (VStr "boom"))
       (fst (fetch (on_entry
                      (set_config
                         (example_config true (RetryBool true) 0 VUndefined))
                      example_world)))
       (snd (fetch (on_entry
                      (set_config
                         (example_config true (RetryBool true) 0 VUndefined))
                      example_world)))) = 11%nat
  /\ promises
       (drive 20 (always_rejects (VStr "boom"))
          (fst (fetch (on_entry
                         (set_config
                            (example_config true (RetryBool true) 0
                               VUndefined))
                         example_world)))
          (snd (fetch (on_entry
                         (set_config
                            (example_config true (RetryBool true) 0
                               VUndefined))
                         example_world)))) = [].
Proof.
  destruct (retry_true_never_gives_up
              (on_entry
                 (set_config
                    (example_config true (RetryBool true) 0 VUndefined))
                 example_world)
              (fun _ => VStr "boom") 10)
    as (H1 & _ & _ & H4 & _); try reflexivity.
  split; [exact H1 | exact H4].
Defined.

(** X10. A fetch whose operation rejects [m] times, within the retry count,
    and then resolves ends in success after [m + 1] invocations: the data is
    committed, the error is null and [failureCount] is back to 0. *)
Theorem retry_then_success (base : world) (n : Z) (m : nat)
  (answer : nat -> settlement) (d : value) :
  promise (entry base) = None ->
  Config.retry (config (entry base)) = RetryCount n ->
  documentVisible base = true ->
  Z.of_nat m <= n ->
  (forall i, (i < m)%nat ->
     exists e, answer (invocations base + i)%nat = Rejected e) ->
  answer (invocations base + m)%nat = Resolved d ->
  let p := fst (fetch base) in
  let final := drive (2 * m + 1) answer p (snd (fetch base)) in
  invocations final = (invocations base + (m + 1))%nat
  /\ State.status (state (entry final)) = statusSuccess
  /\ State.data (state (entry final)) = committed_data base d
  /\ State.error (state (entry final)) = VNull
  /\ State.failureCount (state (entry final)) = 0
  /\ State.isStale (state (entry final)) = false
  /\ State.isFetching (state (entry final)) = false
  /\ promise (entry final) = None
  /\ attempts final = attempts base
  /\ settlement_of p (promises final) = Some (Resolved d).
Proof.
  intros Hp Hretry Hvis Hm Hrej Hres p final. subst p final.
  destruct (fetch_when_idle base Hp) as (-> & _).
  destruct (retry_until_success (fresh base) base n Hretry Hvis answer d m 0 1
              (invocations base) _ (fetch_in_flight base Hp))
    as (Hat & Hinv & Hpr & Hfe & Hst & Hd & He & Hf & Hs & Hset);
    try assumption; try lia.
  rewrite Hinv, Hset. cbn [settlement_of]. rewrite Nat.eqb_refl.
  repeat split; try assumption. lia.
Qed.

Lemma retry_then_success_witness :
  State.status
    (state
       (entry
          (drive 3
             (fun c => if Nat.eqb c 1 then Resolved (VNum 7)
                       else Rejected (VStr "boom"))
             (fst (fetch example_world)) (snd (fetch example_world)))))
  = statusSuccess
  /\ State.data
       (state
          (entry
             (drive 3
                (fun c => if Nat.eqb c 1 then Resolved (VNum 7)
                          else Rejected (VStr "boom"))
                (fst (fetch example_world)) (snd (fetch example_world)))))
     = VNum 7
  /\ invocations
       (drive 3
          (fun c => if Nat.eqb c 1 then Resolved (VNum 7)
                    else Rejected (VStr "boom"))
          (fst (fetch example_world)) (snd (fetch example_world))) = 2%nat.
Proof.
  destruct (retry_then_success example_world 2 1
              (fun c => if Nat.eqb c 1 then Resolved (VNum 7)
                        else Rejected (VStr "boom"))
              (VNum 7))
    as (H1 & H2 & H3 & _); try reflexivity; try lia.
  - intros i Hi. assert (i = 0)%nat as -> by lia. cbn. eauto.
  - split; [exact H2 | split; [exact H3 | exact H1]].
Defined.

(** ** Cancelling while a retry is waiting *)

(** A rejection that is to be retried in a visible document leaves the
    fetch waiting for a new timer. *)
Lemma settle_retries (w : world) (a : attempt) (rest : list attempt)
  (call : nat) (e : value) :
  take_attempt (awaits_call call) (attempts w) = Some (a, rest) ->
  truthy (cancelled (entry w)) = false ->
  should_retry (Config.retry (config (entry w)))
    (State.failureCount (state (entry w)) + 1) e = true ->
  documentVisible w = true ->
  let final := step (QueryFnSettles call (Rejected e)) w in
  attempts final
  = mkAttempt (owner a) (callbackInstances a) (depth a)
      (AwaitRetryTimer (fresh w)
         (functionalUpdate_delay (Config.retryDelay (config (entry w)))
            (State.failureCount (state (entry w)) + 1)))
    :: rest
  /\ State.failureCount (state (entry final))
     = State.failureCount (state (entry w)) + 1
  /\ State.status (state (entry final)) = State.status (state (entry w))
  /\ State.isFetching (state (entry final))
     = State.isFetching (state (entry w))
  /\ promise (entry final) = promise (entry w)
  /\ cancelled (entry final) = cancelled (entry w)
  /\ invocations final = invocations w
  /\ promises final = promises w
  /\ callbacks_in (log final) = callbacks_in (log w).
Proof.
  intros Htake Hc Hretry Hvis. cbn [step]. unfold queryFn_settles.
  rewrite Htake. open_world w. cbn in Hc, Hretry, Hvis. cbn.
  unfold tryFetchData_settled. cbn. rewrite Hc.
  unfold dispatch. cbn. rewrite Hretry, Hvis. cbn.
  rewrite through_retries_retry. cbn. tidy_callbacks. repeat split.
Qed.

Lemma fetch_callbacks w :
  callbacks_in (log (snd (fetch w))) = callbacks_in (log w).
Proof.
  unfold fetch. destruct (promise (entry w)); [reflexivity |].
  cbn. unfold dispatch. cbn. tidy_callbacks. reflexivity.
Qed.

Lemma cancel_callbacks w :
  callbacks_in (log (cancel w)) = callbacks_in (log w).
Proof.
  open_world w. unfold cancel. cbn.
  match goal with |- context [match ?h with Some _ => _ | None => _ end] =>
    destruct h end; cbn; tidy_callbacks; reflexivity.
Qed.

(** X4. Cancelling while a fetch waits for its retry timer stops the
    retries: when the timer fires the operation is not invoked again, the
    failure counted so far stays, the status does not become 'error', no
    callback is called and the promise of the fetch resolves with
    [undefined]. *)
Theorem cancel_during_retry_wait (base : world) (e : value) :
  promise (entry base) = None ->
  documentVisible base = true ->
  should_retry (Config.retry (config (entry base))) 1 e = true ->
  let final :=
    run [CallFetch; QueryFnSettles (invocations base) (Rejected e);
         CallCancel; RetryTimerFires (S (fresh base))] base in
  invocations final = S (invocations base)
  /\ attempts final = attempts base
  /\ State.failureCount (state (entry final)) = 1
  /\ State.status (state (entry final)) <> statusError
  /\ State.isFetching (state (entry final)) = false
  /\ promise (entry final) = None
  /\ settlement_of (fresh base) (promises final) = Some (Resolved VUndefined)
  /\ callbacks_in (log final) = callbacks_in (log base).
Proof.
  intros Hp Hvis Hretry final. subst final.
  change (run _ base)
    with (step (RetryTimerFires (S (fresh base)))
            (cancel
               (step (QueryFnSettles (invocations base) (Rejected e))
                  (snd (fetch base))))).
  destruct (fetch_when_idle base Hp) as (_ & Hat & Hinv & Hfr & Hpw & Hcw).
  destruct (fetch_frame base) as (Hprs & Hcfg & _ & _ & Hv).
  pose proof (fetch_state base Hp) as Hst.
  pose proof (fetch_callbacks base) as Hcb.
  set (w1 := snd (fetch base)) in *.
  match type of Hat with
  | _ = ?a1 :: _ =>
      assert (Htake :
        take_attempt (awaits_call (invocations base)) (attempts w1)
        = Some (a1, attempts base))
  end.
  { rewrite Hat. cbn [take_attempt]. unfold awaits_call. cbn [waiting].
    now rewrite Nat.eqb_refl. }
  destruct (settle_retries w1 _ _ _ e Htake)
    as (G1 & G2 & G3 & G4 & G5 & G6 & G7 & G8 & G9).
  { now rewrite Hcw. }
  { rewrite Hcfg, Hst. exact Hretry. }
  { now rewrite Hv. }
  set (w2 := step (QueryFnSettles (invocations base) (Rejected e)) w1) in *.
  destruct (cancel_frame w2)
    as (C1 & C2 & C3 & C4 & C5 & C6 & C7 & C8).
  pose proof (cancel_callbacks w2) as C9.
  set (w3 := cancel w2) in *.
  match type of G1 with
  | _ = ?a2 :: _ =>
      assert (Htimer :
        take_attempt (awaits_timer (S (fresh base))) (attempts w3)
        = Some (a2, attempts base))
  end.
  { rewrite C1, G1, Hfr. cbn [take_attempt]. unfold awaits_timer.
    cbn [waiting]. now rewrite Nat.eqb_refl. }
  destruct (timer_discards w3 _ _ _ Htimer)
    as (T1 & T2 & _ & T4 & T5 & T6 & T7 & T8 & T9).
  { now rewrite C8. }
  cbn [owner] in T8.
  rewrite T1, T2, T4, T5, T6, T7, T8, T9, C2, C4, C6, C9, G2, G3, G7, G9.
  rewrite Hst, Hinv, Hcb. cbn [settlement_of]. rewrite Nat.eqb_refl. cbn.
  repeat split. destruct (is_defined _); discriminate.
Qed.

Lemma cancel_during_retry_wait_witness :
  invocations
    (run [CallFetch; QueryFnSettles 0 (Rejected (VStr "boom")); CallCancel;
          RetryTimerFires 2] example_world) = 1%nat
  /\ attempts
       (run [CallFetch; QueryFnSettles 0 (Rejected (VStr "boom")); CallCancel;
             RetryTimerFires 2] example_world) = [].
Proof.
  destruct (cancel_during_retry_wait example_world (VStr "boom"))
    as (H1 & H2 & _); try reflexivity.
  split; [exact H1 | exact H2].
Defined.

(** ** Data set by hand, staleness *)

(** X11. [setData] makes the entry a fresh success whatever it was: the
    data is the updater's result, [isStale = false], the error is null,
    [failureCount = 0], [updatedAt] is now, and a stale timer is scheduled
    unless [staleTime] is [Infinity].  It also lowers [isFetching] while
    leaving a running fetch (its [query.promise] and attempts) alone.  A
    following [invalidate] raises [isStale] and changes nothing else. *)
Theorem setData_then_invalidate (w : world) (u : option updater) (d : value) :
  functionalUpdate_data u (State.data (state (entry w))) = Some d ->
  let w1 := setData u w in
  let w2 := invalidate w1 in
  State.data (state (entry w1)) = d
  /\ State.status (state (entry w1)) = statusSuccess
  /\ State.error (state (entry w1)) = VNull
  /\ State.isStale (state (entry w1)) = false
  /\ State.isFetching (state (entry w1)) = false
  /\ State.failureCount (state (entry w1)) = 0
  /\ State.updatedAt (state (entry w1)) = clock w
  /\ promise (entry w1) = promise (entry w)
  /\ attempts w1 = attempts w
  /\ staleTimeout (entry w1)
     = match Config.staleTime (config (entry w)) with
       | Infinity => staleTimeout (entry w)
       | Millis _ => Some (fresh w)
       end
  /\ state (entry w2) = with_isStale true (state (entry w1))
  /\ promise (entry w2) = promise (entry w)
  /\ invocations w2 = invocations w.
Proof.
  intros Hu w1 w2. subst w2 w1.
  unfold invalidate, setData, scheduleStaleTimeout, dispatch, queryReducer.
  open_world w.
  match goal with st : State.t |- _ => destruct st end.
  cbn in Hu. cbn. rewrite Hu. cbn.
  match goal with
  | |- context [Config.staleTime ?c] => destruct (Config.staleTime c)
  end; cbn; cbv; repeat split.
Qed.

Lemma setData_then_invalidate_witness :
  State.data
    (state (entry (setData (Some (DataVal (VNum 3)))
                     (snd (fetch example_world))))) = VNum 3
  /\ State.isFetching
       (state (entry (setData (Some (DataVal (VNum 3)))
                        (snd (fetch example_world))))) = false
  /\ promise
       (entry (setData (Some (DataVal (VNum 3))) (snd (fetch example_world))))
     = Some 1%nat
  /\ State.isStale
       (state
          (entry
             (invalidate
                (setData (Some (DataVal (VNum 3)))
                   (snd (fetch example_world)))))) = true.
Proof.
  destruct (setData_then_invalidate (snd (fetch example_world))
              (Some (DataVal (VNum 3))) (VNum 3) eq_refl)
    as (H1 & _ & _ & _ & H5 & _ & _ & H8 & _ & _ & H11 & _).
  split; [exact H1 |]. split; [exact H5 |]. split; [exact H8 |].
  now rewrite H11.
Defined.

(** ** Subscribers *)

Lemma subscribe_frame s e t w :
  attempts (snd (subscribe s e t w)) = attempts w
  /\ invocations (snd (subscribe s e t w)) = invocations w
  /\ promises (snd (subscribe s e t w)) = promises w
  /\ config (entry (snd (subscribe s e t w))) = config (entry w)
  /\ state (entry (snd (subscribe s e t w))) = state (entry w)
  /\ promise (entry (snd (subscribe s e t w))) = promise (entry w)
  /\ clock (snd (subscribe s e t w)) = clock w
  /\ cancelled (entry (snd (subscribe s e t w))) = VNull
  /\ instances (entry (snd (subscribe s e t w)))
     = instances (entry w) ++ [mkInstance (Some (fresh w)) s e t]
  /\ callbacks_in (log (snd (subscribe s e t w))) = callbacks_in (log w).
Proof.
  open_world w. unfold subscribe, heal. cbn. tidy_callbacks. repeat split.
Qed.

(** X12. Subscribing heals a cancelled entry: it resets [query.cancelled],
    so the attempt of a fetch that was cancelled, still pending, commits its
    data when its operation resolves.  The callbacks called then are those
    of the subscribers present when the fetch started; the subscriber that
    joined since gets none. *)
Theorem subscribe_heals_cancelled_attempt (base : world) (s e t : bool)
  (d : value) :
  promise (entry base) = None ->
  let w := snd (subscribe s e t (run [CallFetch; CallCancel] base)) in
  let final := step (QueryFnSettles (invocations base) (Resolved d)) w in
  cancelled (entry w) = VNull
  /\ promise (entry w) = None
  /\ State.data (state (entry final)) = committed_data base d
  /\ State.status (state (entry final)) = statusSuccess
  /\ State.isFetching (state (entry final)) = false
  /\ attempts final = attempts base
  /\ settlement_of (fresh base) (promises final) = Some (Resolved d)
  /\ callbacks_in (log final)
     = callbacks_in (log base)
       ++ calls_onSuccess (committed_data base d)
            ((if wasSuspended (entry base)
              then match suspenseInstance (entry base) with
                   | Some i => [i]
                   | None => []
                   end
              else []) ++ instances (entry base))
       ++ calls_onSettled (committed_data base d) VNull
            ((if wasSuspended (entry base)
              then match suspenseInstance (entry base) with
                   | Some i => [i]
                   | None => []
                   end
              else []) ++ instances (entry base)).
Proof.
  intros Hp w final. subst final w.
  change (run [CallFetch; CallCancel] base) with (cancel (snd (fetch base))).
  destruct (fetch_when_idle base Hp) as (_ & Hat & Hinv & Hfr & _ & _).
  destruct (fetch_frame base) as (Hprs & Hcfg & Hdata & _ & _).
  pose proof (fetch_callbacks base) as Hcb.
  set (w1 := snd (fetch base)) in *.
  destruct (cancel_frame w1) as (C1 & C2 & C3 & C4 & C5 & C6 & C7 & C8).
  pose proof (cancel_callbacks w1) as C9.
  set (w2 := cancel w1) in *.
  destruct (subscribe_frame s e t w2)
    as (S1 & S2 & S3 & S4 & S5 & S6 & S7 & S8 & S9 & S10).
  set (w := snd (subscribe s e t w2)) in *.
  match type of Hat with
  | _ = ?a1 :: _ =>
      assert (Htake :
        take_attempt (awaits_call (invocations base)) (attempts w)
        = Some (a1, attempts base))
  end.
  { rewrite S1, C1, Hat. cbn [take_attempt]. unfold awaits_call.
    cbn [waiting]. now rewrite Nat.eqb_refl. }
  destruct (settle_commits w _ _ _ d Htake)
    as (Hd & Hs & _ & _ & Hfe & _ & _ & _ & _ & Hatt & _ & Hset & Hcbs).
  { now rewrite S8. }
  cbn [owner callbackInstances] in Hset, Hcbs.
  assert (Hcd : committed_data w d = committed_data base d).
  { unfold committed_data. now rewrite S4, S5, C5, C6, Hcfg, Hdata. }
  rewrite Hd, Hs, Hfe, Hatt, Hset, Hcbs, Hcd, S6, S8, S10, C7, C9, Hcb.
  cbn [settlement_of]. rewrite Nat.eqb_refl. repeat split.
Qed.

Lemma subscribe_heals_cancelled_attempt_witness :
  State.data
    (state
       (entry
          (step (QueryFnSettles 0 (Resolved (VNum 5)))
             (snd (subscribe true false false
                     (run [CallFetch; CallCancel] example_world))))))
  = VNum 5
  /\ callbacks_in
       (log
          (step (QueryFnSettles 0 (Resolved (VNum 5)))
             (snd (subscribe true false false
                     (run [CallFetch; CallCancel] example_world))))) = [].
Proof.
  destruct (subscribe_heals_cancelled_attempt example_world true false false
              (VNum 5) eq_refl)
    as (_ & _ & H3 & _ & _ & _ & _ & H8).
  split; [exact H3 | exact H8].
Defined.

Lemma unsubscribe_last w i inst :
  instances (entry w) = [inst] ->
  id inst = Some i ->
  unsubscribe i w
  = scheduleGarbageCollection (cancel (on_entry (set_instances []) w)).
Proof.
  intros Hinst Hid. unfold unsubscribe.
  assert (Hf :
    filter (fun d => negb (same_id (Some i) d)) (instances (entry w)) = []).
  { rewrite Hinst. cbn [filter]. unfold same_id. rewrite Hid, Nat.eqb_refl.
    reflexivity. }
  unfold on_entry. cbv beta. cbn [entry]. rewrite !Hf. reflexivity.
Qed.

(** X13. When the last subscriber unsubscribes the entry is cancelled
    (marker set, in-flight operation and refetch interval dropped, visible
    data and status untouched) and, unless [cacheTime] is [Infinity], marked
    for garbage collection with a timer whose delay is 0 if the entry has no
    data and is not in error, and [cacheTime] otherwise. *)
Theorem unsubscribe_last_cancels (w : world) (i : nat) (inst : instance) :
  instances (entry w) = [inst] ->
  id inst = Some i ->
  let w' := unsubscribe i w in
  instances (entry w') = []
  /\ promise (entry w') = None
  /\ cancelled (entry w') = cancelledError
  /\ refetchIntervalId (entry w') = None
  /\ attempts w' = attempts w
  /\ State.data (state (entry w')) = State.data (state (entry w))
  /\ State.status (state (entry w')) = State.status (state (entry w))
  /\ State.isFetching (state (entry w'))
     = State.isFetching (state (entry w))
  /\ match Config.cacheTime (config (entry w)) with
     | Infinity =>
         State.markedForGarbageCollection (state (entry w'))
         = State.markedForGarbageCollection (state (entry w))
         /\ cacheTimeout (entry w') = cacheTimeout (entry w)
     | Millis ms =>
         State.markedForGarbageCollection (state (entry w')) = true
         /\ cacheTimeout (entry w') = Some (fresh w)
         /\ exists l,
              log w'
              = l ++ [SetTimeout (fresh w)
                        (if negb (is_defined (State.data (state (entry w))))
                            && negb (strict_eq
                                       (State.status (state (entry w)))
                                       (VStr "error"))
                         then 0 else ms)]
     end.
Proof.
  intros Hinst Hid w'. subst w'. rewrite (unsubscribe_last w i inst Hinst Hid).
  clear Hinst Hid. open_world w.
  match goal with st : State.t |- _ => destruct st end.
  unfold scheduleGarbageCollection, cancel, dispatch.
  match goal with
  | h : option nat |- context [CancelHook] => idtac
  end.
  cbn.
  match goal with
  | |- context [match ?h with Some _ => _ | None => _ end] => destruct h
  end; cbn;
    (match goal with
     | |- context [Config.cacheTime ?c] => destruct (Config.cacheTime c)
     end); cbn; repeat split; eexists; reflexivity.
Qed.

Lemma unsubscribe_last_cancels_witness :
  instances
    (entry (unsubscribe 1 (snd (subscribe true true true example_world))))
  = []
  /\ cancelled
       (entry (unsubscribe 1 (snd (subscribe true true true example_world))))
     = cancelledError
  /\ State.markedForGarbageCollection
       (state
          (entry
             (unsubscribe 1 (snd (subscribe true true true example_world)))))
     = true.
Proof.
  destruct (unsubscribe_last_cancels
              (snd (subscribe true true true example_world)) 1
              (mkInstance (Some 1%nat) true true true) eq_refl eq_refl)
    as (H1 & _ & H3 & _ & _ & _ & _ & _ & H9).
  cbn in H9. destruct H9 as (H9 & _).
  split; [exact H1 | split; [exact H3 | exact H9]].
Defined.

(** ** The first mount *)

Lemma buildQuery_finish_frame cfg w :
  state (entry (buildQuery_finish cfg w)) = state (entry w)
  /\ instances (entry (buildQuery_finish cfg w)) = instances (entry w)
  /\ promise (entry (buildQuery_finish cfg w)) = promise (entry w)
  /\ wasSuspended (entry (buildQuery_finish cfg w)) = wasSuspended (entry w)
  /\ config (entry (buildQuery_finish cfg w)) = config (entry w)
  /\ invocations (buildQuery_finish cfg w) = invocations w.
Proof.
  unfold buildQuery_finish.
  destruct (negb (Config.refetchInterval cfg =? 0)); cbn; repeat split.
Qed.

(** The entry [buildQuery] creates for a new key: stale unless it is enabled
    and has initial data, without subscribers and without fetch. *)
Lemma buildQuery_new cfg now visible w :
  buildQuery cfg (Missing now visible) = Some w ->
  State.isStale (state (entry w))
  = negb (Config.enabled cfg)
    || negb (is_defined
               (match Config.initialData cfg with
                | InitialFn v | InitialVal v => v
                end))
  /\ instances (entry w) = []
  /\ promise (entry w) = None
  /\ wasSuspended (entry w) = false
  /\ config (entry w) = cfg
  /\ invocations w = 0%nat.
Proof.
  unfold buildQuery, makeQuery. cbn.
  set (v := match Config.initialData cfg with
            | InitialFn v | InitialVal v => v
            end).
  match goal with
  | |- Some (buildQuery_finish cfg ?x) = Some w -> _ => set (built := x)
  end.
  intros [= <-].
  destruct (buildQuery_finish_frame cfg built) as (H1 & H2 & H3 & H4 & H5 & H6).
  rewrite H1, H2, H3, H4, H5, H6. subst built.
  destruct (truthy v); cbn; [| repeat split].
  unfold scheduleStaleTimeout, scheduleGarbageCollection, heal, dispatch. cbn.
  destruct (Config.staleTime cfg); cbn;
    destruct (Config.cacheTime cfg); cbn; repeat split.
Qed.

Lemma subscribe_wasSuspended s e t w :
  wasSuspended (entry (snd (subscribe s e t w))) = wasSuspended (entry w)
  /\ invocations (snd (subscribe s e t w)) = invocations w.
Proof. split; reflexivity. Qed.

(** X14. For an entry that [buildQuery] has just created, the mount of its
    first subscriber ([instance.run]) fetches exactly when the entry is
    enabled and has no initial data, whatever [refetchOnMount] is. *)
Theorem first_mount_fetches_iff (cfg : Config.t) (now : Z) (visible : bool)
  (w : world) (s e t refetchOnMount : bool) :
  buildQuery cfg (Missing now visible) = Some w ->
  let has_data :=
    is_defined
      (match Config.initialData cfg with InitialFn v | InitialVal v => v end) in
  let mounted := instance_run refetchOnMount (snd (subscribe s e t w)) in
  invocations (snd mounted)
  = (if Config.enabled cfg && negb has_data then 1 else 0)%nat
  /\ (fst mounted = None <-> Config.enabled cfg && negb has_data = false).
Proof.
  intros Hb has_data mounted. subst has_data mounted.
  destruct (buildQuery_new cfg now visible w Hb)
    as (Hstale & Hinst & Hp & Hws & Hcfg & Hinv).
  destruct (subscribe_frame s e t w)
    as (_ & S2 & _ & S4 & S5 & S6 & _ & _ & S9 & _).
  destruct (subscribe_wasSuspended s e t w) as (S11 & _).
  set (w1 := snd (subscribe s e t w)) in *.
  unfold instance_run.
  rewrite S4, S5, S9, S11, Hcfg, Hstale, Hinst, Hws. cbn [app length Nat.eqb].
  rewrite orb_true_r, andb_true_r. cbn [negb].
  rewrite andb_true_r.
  assert (Hcond :
    Config.enabled cfg
    && (negb (Config.enabled cfg)
        || negb (is_defined
                   (match Config.initialData cfg with
                    | InitialFn v | InitialVal v => v
                    end)))
    = Config.enabled cfg
      && negb (is_defined
                 (match Config.initialData cfg with
                  | InitialFn v | InitialVal v => v
                  end))).
  { now destruct (Config.enabled cfg). }
  rewrite Hcond.
  match goal with |- context [if ?b then _ else _] => destruct b end;
    cbn [fst snd].
  - assert (Hidle : promise (entry w1) = None) by now rewrite S6.
    destruct (fetch_when_idle w1 Hidle) as (_ & _ & Hn & _).
    rewrite Hn, S2, Hinv. split; [reflexivity |].
    split; intros; discriminate.
  - rewrite S2, Hinv. split; [reflexivity |]. split; reflexivity.
Qed.

(** ** The rule of commitment *)

(** X1. What the settlement of an attempt's operation does depends on
    [query.cancelled] at that moment only.  If the marker is not set and the
    operation resolved, the data is committed (kept as it was where
    [isDataEqual] says so), the entry becomes a fresh success, [query.promise]
    is deleted, whichever fetch it belonged to, the promise of the attempt's
    fetch resolves with the fetched data and the callbacks of the subscribers
    captured at the start of that fetch are called.  If the marker is set,
    the settlement, resolved or rejected, changes neither data, status, error
    nor failure count, calls no callback, and the promise of the fetch
    resolves with [undefined]. *)
Theorem settlement_commits_unless_cancelled (w : world) (a : attempt)
  (rest : list attempt) (call : nat) :
  take_attempt (awaits_call call) (attempts w) = Some (a, rest) ->
  (truthy (cancelled (entry w)) = false ->
   forall d,
     let final := step (QueryFnSettles call (Resolved d)) w in
     State.data (state (entry final)) = committed_data w d
     /\ State.status (state (entry final)) = statusSuccess
     /\ State.error (state (entry final)) = VNull
     /\ State.isStale (state (entry final)) = false
     /\ State.isFetching (state (entry final)) = false
     /\ State.failureCount (state (entry final)) = 0
     /\ State.updatedAt (state (entry final)) = clock w
     /\ promise (entry final) = None
     /\ attempts final = rest
     /\ promises final = (owner a, Resolved d) :: promises w
     /\ callbacks_in (log final)
        = callbacks_in (log w)
          ++ calls_onSuccess (committed_data w d) (callbackInstances a)
          ++ calls_onSettled (committed_data w d) VNull (callbackInstances a))
  /\ (truthy (cancelled (entry w)) = true ->
      forall r,
        let final := step (QueryFnSettles call r) w in
        State.data (state (entry final)) = State.data (state (entry w))
        /\ State.status (state (entry final)) = State.status (state (entry w))
        /\ State.error (state (entry final)) = State.error (state (entry w))
        /\ State.failureCount (state (entry final))
           = State.failureCount (state (entry w))
        /\ State.isFetching (state (entry final)) = false
        /\ State.isStale (state (entry final)) = true
        /\ promise (entry final) = None
        /\ attempts final = rest
        /\ promises final = (owner a, Resolved VUndefined) :: promises w
        /\ callbacks_in (log final) = callbacks_in (log w)).
Proof.
  intros Htake. split.
  - intros Hc d.
    destruct (settle_commits w a rest call d Htake Hc)
      as (H1 & H2 & H3 & H4 & H5 & H6 & H7 & H8 & _ & H10 & _ & H12 & H13).
    repeat split; assumption.
  - intros Hc r.
    destruct (settle_discards w a rest call r Htake Hc)
      as (H1 & H2 & H3 & H4 & _ & H6 & H7 & H8 & H9 & _ & H11 & H12).
    repeat split; assumption.
Qed.

Lemma settlement_commits_unless_cancelled_witness :
  State.data
    (state
       (entry
          (step (QueryFnSettles 0 (Resolved (VNum 1)))
             (snd (fetch example_world))))) = VNum 1
  /\ State.data
       (state
          (entry
             (step (QueryFnSettles 0 (Resolved (VNum 1)))
                (cancel (snd (fetch example_world)))))) = VUndefined.
Proof.
  split.
  - destruct (settlement_commits_unless_cancelled (snd (fetch example_world))
                (mkAttempt 1 [] 0 (AwaitQueryFn 0)) [] 0 eq_refl)
      as [Hcommit _].
    destruct (Hcommit eq_refl (VNum 1)) as (H1 & _). exact H1.
  - destruct (settlement_commits_unless_cancelled
                (cancel (snd (fetch example_world)))
                (mkAttempt 1 [] 0 (AwaitQueryFn 0)) [] 0 eq_refl)
      as [_ Hdiscard].
    destruct (Hdiscard eq_refl (Resolved (VNum 1))) as (H1 & _). exact H1.
Defined.

Lemma cancelled_fetch_is_discarded_witness :
  State.data
    (state
       (entry
          (run [CallFetch; CallCancel; QueryFnSettles 0 (Resolved (VNum 1))]
             example_world))) = VUndefined
  /\ State.status
       (state
          (entry
             (run [CallFetch; CallCancel; QueryFnSettles 0 (Resolved (VNum 1))]
                example_world))) = statusLoading
  /\ settlement_of 1
       (promises
          (run [CallFetch; CallCancel; QueryFnSettles 0 (Resolved (VNum 1))]
             example_world)) = Some (Resolved VUndefined).
Proof.
  destruct (cancelled_fetch_is_discarded example_world (Resolved (VNum 1))
              eq_refl)
    as (H1 & _ & _ & H4 & _ & _ & _ & _ & _ & _ & H11 & _).
  split; [exact H1 | split; [exact H4 | exact H11]].
Defined.

Lemma next_fetch_revives_cancelled_attempt_witness :
  State.data
    (state
       (entry
          (step (QueryFnSettles 0 (Resolved (VStr "stale")))
             (run [CallFetch; CallCancel; CallFetch] example_world))))
  = VStr "stale"
  /\ promise
       (entry
          (step (QueryFnSettles 0 (Resolved (VStr "stale")))
             (run [CallFetch; CallCancel; CallFetch] example_world))) = None
  /\ invocations
       (snd
          (fetch
             (step (QueryFnSettles 0 (Resolved (VStr "stale")))
                (run [CallFetch; CallCancel; CallFetch] example_world))))
     = 3%nat.
Proof.
  destruct (next_fetch_revives_cancelled_attempt example_world (VStr "stale")
              eq_refl)
    as (_ & _ & H3 & _ & _ & _ & _ & H8 & _ & _ & H11).
  split; [exact H3 | split; [exact H8 | exact H11]].
Defined.

Lemma first_mount_fetches_iff_witness :
  invocations
    (snd (instance_run false (snd (subscribe false false false example_world))))
  = 1%nat
  /\ (fst (instance_run false
             (snd (subscribe false false false example_world))) = None
      <-> true && negb false = false).
Proof.
  apply (first_mount_fetches_iff
           (example_config true (RetryCount 2) 0 VUndefined) 5 true
           example_world false false false false).
  reflexivity.
Defined.

(** ** The directory *)

Lemma empty_cache_well_formed now visible :
  well_formed (empty_cache now visible).
Proof.
  split; cbn; try constructor; intros; contradiction.
Qed.

Lemma empty_cache_keyed now visible :
  keyed_as_object (empty_cache now visible).
Proof. split; cbn; [exact I | intros; contradiction]. Qed.

Lemma keyed_as_object_queries c c' :
  queries c' = queries c -> keyed_as_object c -> keyed_as_object c'.
Proof. intros Hq [H1 H2]. split; rewrite Hq; assumption. Qed.

(** *** Association lists *)

Lemma lookup_hash_In h l o :
  lookup_hash h l = Some o -> In (h, o) l.
Proof.
  induction l as [| [h' o'] l IH]; cbn; [discriminate |].
  destruct (String.eqb_spec h' h) as [-> | _]; [intros [= ->]; auto | auto].
Qed.

Lemma lookup_hash_None h l :
  lookup_hash h l = None <-> ~ In h (map fst l).
Proof.
  induction l as [| [h' o'] l IH]; cbn; [tauto |].
  destruct (String.eqb_spec h' h) as [-> | Hne]; [split; [discriminate | tauto] |].
  rewrite IH. tauto.
Qed.

Lemma lookup_hash_unique h o l :
  NoDup (map fst l) -> In (h, o) l -> lookup_hash h l = Some o.
Proof.
  induction l as [| [h' o'] l IH]; cbn; [contradiction |].
  intros Hnd [[= -> ->] | Hin].
  - now rewrite String.eqb_refl.
  - inversion Hnd as [| ? ? Hnot Hnd']; subst.
    destruct (String.eqb_spec h' h) as [-> | _]; [| auto].
    exfalso. apply Hnot. now apply (in_map fst) in Hin.
Qed.

Lemma lookup_hash_app h l1 l2 :
  lookup_hash h (l1 ++ l2)
  = match lookup_hash h l1 with
    | Some o => Some o
    | None => lookup_hash h l2
    end.
Proof.
  induction l1 as [| [h' o'] l1 IH]; cbn; [reflexivity |].
  now destruct (String.eqb h' h).
Qed.

Lemma lookup_object_In o l d :
  lookup_object o l = Some d -> In (o, d) l.
Proof.
  induction l as [| [o' d'] l IH]; cbn; [discriminate |].
  destruct (Nat.eqb_spec o' o) as [-> | _]; [intros [= ->]; auto | auto].
Qed.

Lemma lookup_object_None o l :
  ~ In o (map fst l) -> lookup_object o l = None.
Proof.
  induction l as [| [o' d'] l IH]; cbn; [reflexivity |].
  intros Hnot. destruct (Nat.eqb_spec o' o) as [-> | _]; [tauto | tauto].
Qed.

Lemma lookup_object_app o l1 l2 :
  lookup_object o (l1 ++ l2)
  = match lookup_object o l1 with
    | Some d => Some d
    | None => lookup_object o l2
    end.
Proof.
  induction l1 as [| [o' d'] l1 IH]; cbn; [reflexivity |].
  now destruct (Nat.eqb o' o).
Qed.

Lemma update_object_keys o q l : map fst (update_object o q l) = map fst l.
Proof.
  induction l as [| [o' d'] l IH]; cbn; [reflexivity |].
  destruct (Nat.eqb o' o); cbn; now rewrite ?IH.
Qed.

Lemma lookup_update_same o q l :
  lookup_object o (update_object o q l)
  = match lookup_object o l with
    | Some d => Some (mkCached (queryKey d) (queryHash d) q)
    | None => None
    end.
Proof.
  induction l as [| [o' d'] l IH]; cbn; [reflexivity |].
  destruct (Nat.eqb o' o) eqn:E; cbn; rewrite E; auto.
Qed.

Lemma lookup_update_other o o' q l :
  o' <> o -> lookup_object o' (update_object o q l) = lookup_object o' l.
Proof.
  intros Hne. induction l as [| [o'' d'] l IH]; cbn; [reflexivity |].
  destruct (Nat.eqb_spec o'' o) as [-> | Hne']; cbn.
  - destruct (Nat.eqb_spec o o'); [congruence | reflexivity].
  - now rewrite IH.
Qed.

(** Updating an object keeps every object's key and hash. *)
Lemma lookup_update_hash o o' q l d' :
  lookup_object o' (update_object o q l) = Some d' ->
  exists d,
    lookup_object o' l = Some d
    /\ queryHash d' = queryHash d /\ queryKey d' = queryKey d.
Proof.
  destruct (Nat.eq_dec o' o) as [-> | Hne].
  - rewrite lookup_update_same. destruct (lookup_object o l) as [d |];
      [| discriminate].
    intros [= <-]. eauto.
  - rewrite (lookup_update_other _ _ _ _ Hne). eauto.
Qed.

(** *** Methods of one entry object *)

Lemma focus_Some o c d :
  lookup_object o (objects c) = Some d -> exists w, focus o c = Some w
                                                     /\ entry w = fields d.
Proof. intros H. unfold focus. rewrite H. eauto. Qed.

Lemma call_on_queries {A} o (f : world -> A * world) c :
  queries (snd (call_on o f c)) = queries c.
Proof. unfold call_on. now destruct (focus o c). Qed.

Lemma call_on_keys {A} o (f : world -> A * world) c :
  map fst (objects (snd (call_on o f c))) = map fst (objects c).
Proof.
  unfold call_on. destruct (focus o c); cbn; [| reflexivity].
  apply update_object_keys.
Qed.

Lemma call_on_other {A} o o' (f : world -> A * world) c :
  o' <> o ->
  lookup_object o' (objects (snd (call_on o f c)))
  = lookup_object o' (objects c).
Proof.
  intros Hne. unfold call_on. destruct (focus o c); cbn; [| reflexivity].
  now apply lookup_update_other.
Qed.

Lemma call_on_same {A} o (f : world -> A * world) c w d :
  focus o c = Some w ->
  lookup_object o (objects c) = Some d ->
  lookup_object o (objects (snd (call_on o f c)))
  = Some (mkCached (queryKey d) (queryHash d) (entry (snd (f w)))).
Proof.
  intros Hf Hd. unfold call_on. rewrite Hf. cbn.
  now rewrite lookup_update_same, Hd.
Qed.

Lemma call_on_hash {A} o o' (f : world -> A * world) c d' :
  lookup_object o' (objects (snd (call_on o f c))) = Some d' ->
  exists d,
    lookup_object o' (objects c) = Some d
    /\ queryHash d' = queryHash d /\ queryKey d' = queryKey d.
Proof.
  unfold call_on. destruct (focus o c); cbn; [| eauto].
  apply lookup_update_hash.
Qed.

Lemma call_on_hash_back {A} o o' (f : world -> A * world) c d :
  lookup_object o' (objects c) = Some d ->
  exists d',
    lookup_object o' (objects (snd (call_on o f c))) = Some d'
    /\ queryHash d' = queryHash d /\ queryKey d' = queryKey d.
Proof.
  intros Hd. unfold call_on. destruct (focus o c) as [w |]; cbn; [| eauto].
  destruct (Nat.eq_dec o' o) as [-> | Hne].
  - rewrite lookup_update_same, Hd. eauto.
  - rewrite (lookup_update_other _ _ _ _ Hne). eauto.
Qed.

Lemma call_on_fresh {A} o (f : world -> A * world) c :
  grows f -> (c_fresh c <= c_fresh (snd (call_on o f c)))%nat.
Proof.
  intros Hg. unfold call_on, focus.
  destruct (lookup_object o (objects c)); cbn; [| lia].
  match goal with |- (_ <= fresh (snd (f ?w)))%nat => apply (Hg w) end.
Qed.

Lemma call_on_well_formed {A} o (f : world -> A * world) c :
  grows f -> well_formed c -> well_formed (snd (call_on o f c)).
Proof.
  intros Hg [H1 H2 H3 H4 H5].
  pose proof (call_on_fresh o f c Hg) as Hfr.
  split.
  - now rewrite call_on_queries.
  - now rewrite call_on_queries.
  - now rewrite call_on_keys.
  - intros h o' Hin. rewrite call_on_queries in Hin.
    destruct (H4 h o' Hin) as (d & Hd & Hh).
    destruct (call_on_hash_back o o' f c d Hd) as (d' & Hd' & Hh' & _).
    exists d'. split; [exact Hd' | congruence].
  - intros o' d' Hin.
    assert (Hk : In o' (map fst (objects c))).
    { rewrite <- (call_on_keys o f c). now apply (in_map fst) in Hin. }
    apply in_map_iff in Hk as ([o'' d] & Heq & Hin'). cbn in Heq. subst o''.
    specialize (H5 o' d Hin'). lia.
Qed.

(** *** Handles only grow *)

Lemma fresh_dispatch a w : fresh (dispatch a w) = fresh w.
Proof.
  unfold dispatch.
  destruct (queryReducer (clock w) (Some (state (entry w))) a); reflexivity.
Qed.

Lemma fresh_scheduleStaleTimeout w :
  (fresh w <= fresh (scheduleStaleTimeout w))%nat.
Proof.
  unfold scheduleStaleTimeout. cbn.
  destruct (Config.staleTime (config (entry w))); cbn; lia.
Qed.

Lemma fresh_setData u w : (fresh w <= fresh (setData u w))%nat.
Proof.
  unfold setData.
  pose proof (fresh_scheduleStaleTimeout
                (dispatch
                   (Action.mk actionSuccess VUndefined VUndefined false false
                      u VUndefined false VUndefined) w)) as H.
  rewrite fresh_dispatch in H. exact H.
Qed.

Lemma fresh_cancel w : fresh (cancel w) = fresh w.
Proof. now destruct (cancel_frame w) as (_ & _ & H & _). Qed.

Lemma fresh_query_remove w : fresh (query_remove w) = fresh w.
Proof. unfold query_remove. cbn. apply fresh_cancel. Qed.



Lemma fresh_buildQuery_finish cfg w :
  (fresh w <= fresh (buildQuery_finish cfg w))%nat.
Proof.
  unfold buildQuery_finish.
  destruct (negb (Config.refetchInterval cfg =? 0)); cbn; lia.
Qed.

Lemma fresh_scheduleGarbageCollection w :
  (fresh w <= fresh (scheduleGarbageCollection w))%nat.
Proof.
  unfold scheduleGarbageCollection.
  destruct (Config.cacheTime (config (entry w))); [lia |].
  unfold dispatch. cbn. lia.
Qed.

Lemma grows_plain (f : world -> world) :
  (forall w, (fresh w <= fresh (f w))%nat) -> grows (fun w => (tt, f w)).
Proof. intros H w. apply H. Qed.

Lemma on_object_well_formed o (f : world -> world) c :
  (forall w, (fresh w <= fresh (f w))%nat) ->
  well_formed c -> well_formed (on_object o f c).
Proof. intros Hf. apply call_on_well_formed, grows_plain, Hf. Qed.


(** *** Lookup by hash *)

Lemma getQueries_key shared k exact c :
  k <> VBool true ->
  getQueries shared (PVal k) exact c
  = filter
      (holds
         (fun d =>
            if exact
            then String.eqb (queryHash d) (fst (queryKeySerializerFn shared k))
            else deepIncludes shared (queryKey d)
                   (snd (queryKeySerializerFn shared k))) c)
      (map snd (queries c)).
Proof.
  intros Hk. unfold getQueries.
  destruct (queryKeySerializerFn shared k) as [h key]. cbn [fst snd].
  destruct k as [| | [|] | | |]; try reflexivity. contradiction.
Qed.

Lemma filter_by_hash c h l :
  (forall h' o, In (h', o) l ->
     exists d, lookup_object o (objects c) = Some d /\ queryHash d = h') ->
  NoDup (map fst l) ->
  filter (holds (fun d => String.eqb (queryHash d) h) c) (map snd l)
  = match lookup_hash h l with
    | Some o => [o]
    | None => []
    end.
Proof.
  induction l as [| [h' o'] l IH]; intros Hreg Hnd; cbn; [reflexivity |].
  inversion Hnd as [| ? ? Hnot Hnd']; subst.
  destruct (Hreg h' o' (or_introl eq_refl)) as (d & Hd & Hh).
  unfold holds at 1. rewrite Hd, Hh.
  assert (IH' := IH (fun h'' o H => Hreg h'' o (or_intror H)) Hnd').
  destruct (String.eqb_spec h' h) as [-> | Hne]; [| exact IH'].
  rewrite IH'. apply lookup_hash_None in Hnot. now rewrite Hnot.
Qed.

Lemma getQueries_exact shared k c :
  well_formed c ->
  k <> VBool true ->
  getQueries shared (PVal k) true c
  = match lookup_hash (fst (queryKeySerializerFn shared k)) (queries c) with
    | Some o => [o]
    | None => []
    end.
Proof.
  intros [H1 _ _ H4 _] Hk. rewrite (getQueries_key _ _ _ _ Hk).
  now apply filter_by_hash.
Qed.

(** *** Building an entry *)

Lemma insert_index_In n h o l x :
  In x (insert_index n h o l) <-> x = (h, o) \/ In x l.
Proof.
  induction l as [| [h' o'] l IH]; cbn.
  - intuition congruence.
  - destruct (array_index h'); [destruct (N.leb n0 n) |]; cbn;
      rewrite ?IH; intuition congruence.
Qed.

Lemma insert_property_In h o l x :
  In x (insert_property h o l) <-> x = (h, o) \/ In x l.
Proof.
  unfold insert_property. destruct (array_index h).
  - apply insert_index_In.
  - rewrite in_app_iff. cbn. intuition congruence.
Qed.

Lemma insert_property_NoDup {B} (f : string * nat -> B) h o l :
  NoDup (map f l) -> ~ In (f (h, o)) (map f l) ->
  NoDup (map f (insert_property h o l)).
Proof.
  unfold insert_property. destruct (array_index h) as [n |].
  - induction l as [| [h' o'] l IH]; cbn; intros Hnd Hnot.
    + repeat constructor. intros [].
    + inversion Hnd as [| ? ? Hnot' Hnd']; subst.
      assert (Hskip : NoDup (map f ((h', o') :: insert_index n h o l))).
      { cbn. constructor; [| apply IH; [exact Hnd' | tauto]].
        intros Hin. apply in_map_iff in Hin as (x & Hx & Hin).
        apply insert_index_In in Hin as [-> | Hin].
        - apply Hnot. now left.
        - apply Hnot'. rewrite <- Hx. now apply in_map. }
      assert (Hhere : NoDup (map f ((h, o) :: (h', o') :: l))).
      { cbn. constructor; [exact Hnot | exact Hnd]. }
      destruct (array_index h'); [destruct (N.leb n0 n) |]; assumption.
  - intros Hnd Hnot. rewrite map_app. cbn.
    apply NoDup_app; [exact Hnd | repeat constructor; intros [] |].
    intros x Hx [<- | []]. contradiction.
Qed.

Lemma property_order_insert h o l :
  property_order (map fst l) ->
  property_order (map fst (insert_property h o l)).
Proof.
  unfold insert_property. destruct (array_index h) as [n |] eqn:Hn.
  - induction l as [| [h' o'] l IH]; cbn [insert_index]; intros Hord.
    + cbn. split; [intros ? [] | exact I].
    + cbn in Hord. destruct Hord as [Hfirst Hrest].
      destruct (array_index h') as [n' |] eqn:Hh';
        [destruct (N.leb_spec n' n) as [Hle | Hlt] |].
      * cbn. split; [| now apply IH].
        intros x Hx. apply in_map_iff in Hx as ([hx ox] & <- & Hin).
        apply insert_index_In in Hin as [[= -> ->] | Hin].
        -- cbn [fst]. unfold listed_before. now rewrite Hh', Hn.
        -- apply Hfirst. apply in_map_iff. now exists (hx, ox).
      * cbn. split; [| split; assumption].
        intros x [<- | Hx].
        -- unfold listed_before. rewrite Hn, Hh'. lia.
        -- specialize (Hfirst x Hx). unfold listed_before in *.
           rewrite Hh' in Hfirst. rewrite Hn.
           destruct (array_index x); [lia | exact I].
      * cbn. split; [| split; assumption].
        intros x [<- | Hx].
        -- unfold listed_before. now rewrite Hn, Hh'.
        -- specialize (Hfirst x Hx). unfold listed_before in *.
           rewrite Hh' in Hfirst. rewrite Hn.
           destruct (array_index x); [contradiction | exact I].
  - induction l as [| [h' o'] l IH]; cbn; intros Hord.
    + split; [intros ? [] | exact I].
    + destruct Hord as [Hfirst Hrest]. split; [| now apply IH].
      intros x Hx. rewrite map_app in Hx. apply in_app_or in Hx as [Hx | Hx].
      * now apply Hfirst.
      * cbn in Hx. destruct Hx as [<- | []]. unfold listed_before.
        rewrite Hn. now destruct (array_index h').
Qed.

Lemma property_order_filter (g : string * nat -> bool) l :
  property_order (map fst l) -> property_order (map fst (filter g l)).
Proof.
  induction l as [| a l IH]; cbn; [trivial |].
  intros [Hfirst Hrest]. destruct (g a); cbn; [| now apply IH].
  split; [| now apply IH].
  intros x Hx. apply Hfirst. apply in_map_iff in Hx as (y & <- & Hin).
  apply filter_In in Hin. now apply in_map.
Qed.

Lemma well_formed_register c h o d :
  well_formed c ->
  ~ In h (map fst (queries c)) ->
  ~ In o (map snd (queries c)) ->
  lookup_object o (objects c) = Some d ->
  queryHash d = h ->
  well_formed (set_queries (insert_property h o (queries c)) c).
Proof.
  intros [H1 H2 H3 H4 H5] Hh Ho Hd Hq. split; cbn.
  - now apply insert_property_NoDup.
  - now apply insert_property_NoDup.
  - exact H3.
  - intros h' o' Hin. apply insert_property_In in Hin as [[= -> ->] | Hin].
    + eauto.
    + now apply H4.
  - exact H5.
Qed.

Lemma keyed_as_object_insert c c' h o :
  queries c' = insert_property h o (queries c) ->
  inherited h = false ->
  keyed_as_object c -> keyed_as_object c'.
Proof.
  intros Hq Hinh [H1 H2]. split; rewrite Hq.
  - now apply property_order_insert.
  - intros h' o' Hin. apply insert_property_In in Hin as [[= -> ->] | Hin].
    + exact Hinh.
    + now apply (H2 h' o').
Qed.

Lemma keyed_as_object_filter c c' g :
  queries c' = filter g (queries c) ->
  keyed_as_object c -> keyed_as_object c'.
Proof.
  intros Hq [H1 H2]. split; rewrite Hq.
  - now apply property_order_filter.
  - intros h o Hin. apply filter_In in Hin. now apply (H2 h o).
Qed.

Lemma well_formed_new_object c d :
  well_formed c ->
  let c' :=
    mkCache (queries c) (objects c ++ [(c_fresh c, d)]) (bodies c)
      (c_promises c) (S (c_fresh c)) (c_invocations c) (c_visible c)
      (c_clock c) (c_log c) in
  well_formed c'
  /\ lookup_object (c_fresh c) (objects c') = Some d
  /\ lookup_object (c_fresh c) (objects c) = None
  /\ ~ In (c_fresh c) (map snd (queries c')).
Proof.
  intros [H1 H2 H3 H4 H5] c'.
  assert (Hnew : ~ In (c_fresh c) (map fst (objects c))).
  { intros Hin. apply in_map_iff in Hin as ([o d'] & Heq & Hin).
    cbn in Heq. subst o. specialize (H5 _ _ Hin). lia. }
  assert (Hnone : lookup_object (c_fresh c) (objects c) = None)
    by now apply lookup_object_None.
  split; [split; cbn |].
  - exact H1.
  - exact H2.
  - rewrite map_app. cbn.
    apply NoDup_app; [exact H3 | repeat constructor; intros [] |].
    intros x Hx [<- | []]. contradiction.
  - intros h o Hin. destruct (H4 h o Hin) as (d' & Hd' & Hh).
    exists d'. rewrite lookup_object_app, Hd'. auto.
  - intros o d' Hin. apply in_app_or in Hin as [Hin | [[= <- <-] | []]].
    + specialize (H5 _ _ Hin). lia.
    + lia.
  - split; [| split; [exact Hnone |]].
    + subst c'. cbn. rewrite lookup_object_app, Hnone. cbn.
      now rewrite Nat.eqb_refl.
    + subst c'. cbn. intros Hin.
      apply in_map_iff in Hin as ([h o] & Heq & Hin). cbn in Heq. subst o.
      destruct (H4 _ _ Hin) as (d' & Hd' & _). congruence.
Qed.

(** *** One method call on one entry object *)

Lemma on_object_queries o f c : queries (on_object o f c) = queries c.
Proof. apply call_on_queries. Qed.

Lemma on_object_keys o f c :
  map fst (objects (on_object o f c)) = map fst (objects c).
Proof. apply call_on_keys. Qed.

Lemma on_object_other o o' f c :
  o' <> o ->
  lookup_object o' (objects (on_object o f c)) = lookup_object o' (objects c).
Proof. apply call_on_other. Qed.

Lemma on_object_invocations o (f : world -> world) c :
  (forall w, invocations (f w) = invocations w) ->
  c_invocations (on_object o f c) = c_invocations c.
Proof.
  intros Hf. unfold on_object, call_on, focus.
  destruct (lookup_object o (objects c)); [| reflexivity].
  cbn. now rewrite Hf.
Qed.

Lemma on_object_fields o (f : world -> world) c d (P : query -> Prop) :
  lookup_object o (objects c) = Some d ->
  (forall w, entry w = fields d -> P (entry (f w))) ->
  exists d',
    lookup_object o (objects (on_object o f c)) = Some d'
    /\ queryHash d' = queryHash d
    /\ queryKey d' = queryKey d
    /\ P (fields d').
Proof.
  intros Hd HP. destruct (focus_Some o c d Hd) as (w & Hw & Hentry).
  unfold on_object.
  rewrite (call_on_same o (fun w => (tt, f w)) c w d Hw Hd).
  eexists; repeat split. cbn. now apply HP.
Qed.

(** What one method call [f] on the entry object [o] does to the cache,
    when [f] calls no query function. *)
Lemma on_object_quiet o (f : world -> world) c d (P : query -> Prop) :
  well_formed c ->
  (forall w, (fresh w <= fresh (f w))%nat) ->
  (forall w, invocations (f w) = invocations w) ->
  lookup_object o (objects c) = Some d ->
  (forall w, entry w = fields d -> P (entry (f w))) ->
  well_formed (on_object o f c)
  /\ queries (on_object o f c) = queries c
  /\ c_invocations (on_object o f c) = c_invocations c
  /\ (forall o', o' <> o ->
      lookup_object o' (objects (on_object o f c))
      = lookup_object o' (objects c))
  /\ exists d',
       lookup_object o (objects (on_object o f c)) = Some d'
       /\ queryHash d' = queryHash d
       /\ queryKey d' = queryKey d
       /\ P (fields d').
Proof.
  intros Hwf Hg Hi Hd HP.
  split; [now apply on_object_well_formed |].
  split; [apply on_object_queries |].
  split; [now apply on_object_invocations |].
  split; [intros o' Ho'; now apply on_object_other |].
  now apply on_object_fields.
Qed.

(** *** What the entry methods leave alone *)

Lemma scheduleStaleTimeout_frame w :
  config (entry (scheduleStaleTimeout w)) = config (entry w)
  /\ state (entry (scheduleStaleTimeout w)) = state (entry w)
  /\ instances (entry (scheduleStaleTimeout w)) = instances (entry w)
  /\ promise (entry (scheduleStaleTimeout w)) = promise (entry w)
  /\ invocations (scheduleStaleTimeout w) = invocations w.
Proof.
  unfold scheduleStaleTimeout. cbn.
  destruct (Config.staleTime (config (entry w))); cbn; repeat split.
Qed.

Lemma scheduleGarbageCollection_frame w :
  config (entry (scheduleGarbageCollection w)) = config (entry w)
  /\ State.data (state (entry (scheduleGarbageCollection w)))
     = State.data (state (entry w))
  /\ invocations (scheduleGarbageCollection w) = invocations w.
Proof.
  unfold scheduleGarbageCollection.
  destruct (Config.cacheTime (config (entry w))); [repeat split |].
  unfold dispatch. cbn. repeat split.
Qed.

Lemma buildQuery_existing_frame cfg w :
  config (entry (buildQuery_existing cfg w)) = cfg
  /\ state (entry (buildQuery_existing cfg w)) = state (entry w)
  /\ invocations (buildQuery_existing cfg w) = invocations w.
Proof.
  unfold buildQuery_existing.
  destruct (buildQuery_finish_frame cfg (on_entry (set_config cfg) w))
    as (-> & _ & _ & _ & -> & ->).
  repeat split.
Qed.

Lemma makeQuery_config cfg now q : makeQuery cfg now = Some q -> config q = cfg.
Proof. unfold makeQuery. cbn. now intros [= <-]. Qed.

Lemma makeQuery_data cfg now q :
  makeQuery cfg now = Some q ->
  State.data (state q)
  = match Config.initialData cfg with InitialFn v | InitialVal v => v end.
Proof. unfold makeQuery. cbn. now intros [= <-]. Qed.

(** *** [buildQuery] in the directory *)

Lemma cache_buildQuery_registers (shared : codec)
  (serialize : value -> string * list value) (k : value) (cfg : Config.t)
  (c : cache) :
  well_formed c ->
  inherited (fst (serialize k)) = false ->
  exists o c',
    cache_buildQuery serialize k cfg c = Some (o, c')
    /\ well_formed c'
    /\ lookup_hash (fst (serialize k)) (queries c') = Some o
    /\ c_invocations c' = c_invocations c
    /\ (forall o', o' <> o ->
        lookup_object o' (objects c') = lookup_object o' (objects c))
    /\ (exists d,
          lookup_object o (objects c') = Some d
          /\ queryHash d = fst (serialize k)
          /\ config (fields d) = cfg
          /\ State.data (state (fields d))
             = match lookup_object o (objects c) with
               | Some d0 => State.data (state (fields d0))
               | None =>
                   match Config.initialData cfg with
                   | InitialFn v | InitialVal v => v
                   end
               end)
    /\ match lookup_hash (fst (serialize k)) (queries c) with
       | Some o0 =>
           o = o0 /\ queries c' = queries c
           /\ map fst (objects c') = map fst (objects c)
       | None =>
           queries c' = insert_property (fst (serialize k)) o (queries c)
           /\ lookup_object o (objects c) = None
       end
    /\ (k <> VBool true ->
        fst (queryKeySerializerFn shared k) = fst (serialize k) ->
        getQuery shared (PVal k) c' = Some o).
Proof.
  intros Hwf Hinh. unfold cache_buildQuery.
  destruct (serialize k) as [h key] eqn:Hser. cbn [fst] in *.
  assert (Hget :
    forall o c', well_formed c' -> lookup_hash h (queries c') = Some o ->
      k <> VBool true -> fst (queryKeySerializerFn shared k) = h ->
      getQuery shared (PVal k) c' = Some o).
  { intros o c' Hwf' Hl Hk Hh. unfold getQuery.
    rewrite (getQueries_exact shared k c' Hwf' Hk), Hh, Hl. reflexivity. }
  destruct (lookup_hash h (queries c)) as [o |] eqn:Hl.
  - (* the hash is registered *)
    exists o, (on_object o (buildQuery_existing cfg) c).
    destruct (registered_exist c Hwf h o (lookup_hash_In _ _ _ Hl))
      as (d & Hd & Hh).
    destruct (on_object_quiet o (buildQuery_existing cfg) c d
                (fun q =>
                   config q = cfg
                   /\ State.data (state q) = State.data (state (fields d)))
                Hwf)
      as (Hwf' & Hq' & Hi' & Ho' & d' & Hd' & Hh' & _ & Hc & Hdata);
      try assumption.
    { intros w. unfold buildQuery_existing.
      apply (fresh_buildQuery_finish cfg (on_entry (set_config cfg) w)). }
    { intros w. apply buildQuery_existing_frame. }
    { intros w Hw.
      destruct (buildQuery_existing_frame cfg w) as (-> & -> & _).
      now rewrite Hw. }
    split; [reflexivity |]. split; [exact Hwf' |].
    split; [now rewrite Hq' |]. split; [exact Hi' |]. split; [exact Ho' |].
    split; [| split; [| apply Hget; [exact Hwf' | now rewrite Hq']]].
    + exists d'. rewrite Hd. repeat split; [exact Hd' | congruence | | ];
        assumption.
    + split; [reflexivity |].
      split; [apply on_object_queries | apply on_object_keys].
  - (* a new entry *)
    rewrite Hinh.
    destruct (makeQuery_returns cfg (c_clock c)) as [q Hq]. rewrite Hq.
    pose proof (makeQuery_config _ _ _ Hq) as Hcfg.
    pose proof (makeQuery_data _ _ _ Hq) as Hdata.
    set (init := match Config.initialData cfg with
                 | InitialFn v | InitialVal v => v
                 end) in *.
    set (o := c_fresh c).
    set (P := fun q' : query =>
                config q' = cfg /\ State.data (state q') = init).
    destruct (well_formed_new_object c (mkCached key h q) Hwf)
      as (Hwf1 & Hd1 & Hnone & Hnot1).
    cbv zeta in Hwf1, Hd1, Hnot1.
    set (c1 := mkCache (queries c) (objects c ++ [(c_fresh c, mkCached key h q)])
                 (bodies c) (c_promises c) (S (c_fresh c)) (c_invocations c)
                 (c_visible c) (c_clock c) (c_log c)) in *.
    assert (Ho1 : forall o', o' <> o ->
              lookup_object o' (objects c1) = lookup_object o' (objects c)).
    { intros o' Ho'. subst c1. cbn [objects]. rewrite lookup_object_app.
      destruct (lookup_object o' (objects c)); [reflexivity |].
      cbn. destruct (Nat.eqb_spec (c_fresh c) o'); [| reflexivity].
      subst o. congruence. }
    set (c2 := if truthy (State.data (state q))
               then on_object o
                      (fun w =>
                         scheduleGarbageCollection
                           (heal (scheduleStaleTimeout w))) c1
               else c1).
    assert (H2 :
      well_formed c2 /\ queries c2 = queries c
      /\ c_invocations c2 = c_invocations c
      /\ (forall o', o' <> o ->
            lookup_object o' (objects c2) = lookup_object o' (objects c))
      /\ exists d, lookup_object o (objects c2) = Some d
                   /\ queryHash d = h /\ P (fields d)).
    { subst c2. destruct (truthy (State.data (state q))).
      - destruct (on_object_quiet o
                    (fun w =>
                       scheduleGarbageCollection
                         (heal (scheduleStaleTimeout w))) c1
                    (mkCached key h q) P Hwf1)
          as (Hwf' & Hq' & Hi' & Ho' & d' & Hd' & Hh' & _ & HP');
          try assumption.
        { intros w. pose proof (fresh_scheduleStaleTimeout w).
          pose proof (fresh_scheduleGarbageCollection
                        (heal (scheduleStaleTimeout w))).
          cbn in *. lia. }
        { intros w.
          destruct (scheduleGarbageCollection_frame
                      (heal (scheduleStaleTimeout w))) as (_ & _ & ->).
          cbn. apply scheduleStaleTimeout_frame. }
        { intros w Hw.
          destruct (scheduleGarbageCollection_frame
                      (heal (scheduleStaleTimeout w))) as (Hc & Hdt & _).
          destruct (scheduleStaleTimeout_frame w) as (Hc' & Hs' & _).
          unfold P. rewrite Hc, Hdt. cbn. rewrite Hc', Hs', Hw. now split. }
        split; [exact Hwf' |]. split; [exact Hq' |]. split; [exact Hi' |].
        split; [intros o' Hne; rewrite (Ho' o' Hne); now apply Ho1 |].
        exists d'. repeat split; try assumption; apply HP'.
      - split; [exact Hwf1 |]. split; [reflexivity |]. split; [reflexivity |].
        split; [exact Ho1 |].
        exists (mkCached key h q). repeat split; assumption. }
    destruct H2 as (Hwf2 & Hq2 & Hi2 & Ho2 & d2 & Hd2 & Hh2 & HP2).
    set (c3 := set_queries (insert_property h o (queries c2)) c2).
    assert (Hwf3 : well_formed c3).
    { apply (well_formed_register c2 h o d2 Hwf2); try assumption.
      - rewrite Hq2. now apply lookup_hash_None.
      - rewrite Hq2. exact Hnot1. }
    assert (Hd3 : lookup_object o (objects c3) = Some d2) by exact Hd2.
    destruct (on_object_quiet o
                (fun w => emit (SetTimeout (fresh w) 0) (snd (allocate w)))
                c3 d2 P Hwf3)
      as (Hwf4 & Hq4 & Hi4 & Ho4 & d4 & Hd4 & Hh4 & _ & HP4);
      try assumption.
    { intros w. cbn. lia. }
    { intros w. reflexivity. }
    { intros w Hw. cbn. now rewrite Hw. }
    set (c4 := on_object o
                 (fun w => emit (SetTimeout (fresh w) 0) (snd (allocate w)))
                 c3) in *.
    destruct (on_object_quiet o (buildQuery_finish cfg) c4 d4 P Hwf4)
      as (Hwf5 & Hq5 & Hi5 & Ho5 & d5 & Hd5 & Hh5 & _ & HP5);
      try assumption.
    { intros w. apply fresh_buildQuery_finish. }
    { intros w. apply buildQuery_finish_frame. }
    { intros w Hw.
      destruct (buildQuery_finish_frame cfg w) as (Hs & _ & _ & _ & Hc & _).
      unfold P. now rewrite Hc, Hs, Hw. }
    set (c5 := on_object o (buildQuery_finish cfg) c4) in *.
    assert (Hq5' : queries c5 = insert_property h o (queries c)).
    { rewrite Hq5, Hq4. subst c3. cbn. now rewrite Hq2. }
    assert (Hl5 : lookup_hash h (queries c5) = Some o).
    { apply lookup_hash_unique; [apply (hashes_unique c5 Hwf5) |].
      rewrite Hq5'. apply insert_property_In. now left. }
    exists o, c5.
    split; [reflexivity |]. split; [exact Hwf5 |]. split; [exact Hl5 |].
    split; [rewrite Hi5, Hi4; exact Hi2 |].
    split.
    { intros o' Hne. rewrite (Ho5 o' Hne), (Ho4 o' Hne). now apply Ho2. }
    split; [| split; [split; [exact Hq5' | exact Hnone] | now apply Hget]].
    exists d5.
    replace (lookup_object o (objects c)) with (@None cached)
      by (symmetry; exact Hnone).
    repeat split; [exact Hd5 | congruence | apply HP5 | apply HP5].
Qed.

Lemma cache_buildQuery_throws (serialize : value -> string * list value)
  (k : value) (cfg : Config.t) (c : cache) :
  keyed_as_object c ->
  inherited (fst (serialize k)) = true ->
  cache_buildQuery serialize k cfg c = None.
Proof.
  intros Hwf Hinh. unfold cache_buildQuery.
  destruct (serialize k) as [h key]. cbn [fst] in Hinh.
  destruct (lookup_hash h (queries c)) as [o |] eqn:Hl.
  - apply lookup_hash_In in Hl.
    rewrite (registered_own c Hwf h o Hl) in Hinh. discriminate.
  - now rewrite Hinh.
Qed.

Lemma cache_buildQuery_keyed (serialize : value -> string * list value)
  (k : value) (cfg : Config.t) (c c' : cache) :
  inherited (fst (serialize k)) = false ->
  match lookup_hash (fst (serialize k)) (queries c) with
  | Some _ => queries c' = queries c
  | None =>
      exists o, queries c' = insert_property (fst (serialize k)) o (queries c)
  end ->
  keyed_as_object c -> keyed_as_object c'.
Proof.
  intros Hinh Hq Hk.
  destruct (lookup_hash (fst (serialize k)) (queries c)).
  - now apply (keyed_as_object_queries c c').
  - destruct Hq as [o Hq].
    exact (keyed_as_object_insert c c' _ o Hq Hinh Hk).
Qed.

(** X15. [buildQuery] throws when the hash of the key names a member of
    [Object.prototype].  For any other hash it returns an entry, calls no
    query function, touches no other entry and keeps the directory well
    formed, with one entry per hash, and keyed as an object.  If the hash
    is registered, the entry returned is the registered object, updated in
    place with the new configuration, and no entry is added; if not, a new
    object is registered under that hash, listed where an object lists a
    new key: after the others, unless the hash is an array index, which
    goes among the array indices, by value, before every other hash.
    Either way the hash then names the entry returned, which carries the
    configuration given, and [getQuery] with that key finds it (when the
    shared serializer gives the key the same hash and the key is not
    [true]). *)
Theorem buildQuery_registers_once (shared : codec)
  (serialize : value -> string * list value) (k : value) (cfg : Config.t)
  (c : cache) :
  well_formed c ->
  keyed_as_object c ->
  (inherited (fst (serialize k)) = true ->
   cache_buildQuery serialize k cfg c = None)
  /\ (inherited (fst (serialize k)) = false ->
      exists o c',
        cache_buildQuery serialize k cfg c = Some (o, c')
        /\ well_formed c'
        /\ keyed_as_object c'
        /\ lookup_hash (fst (serialize k)) (queries c') = Some o
        /\ c_invocations c' = c_invocations c
        /\ (forall o', o' <> o ->
            lookup_object o' (objects c') = lookup_object o' (objects c))
        /\ (exists d,
              lookup_object o (objects c') = Some d
              /\ queryHash d = fst (serialize k)
              /\ config (fields d) = cfg)
        /\ match lookup_hash (fst (serialize k)) (queries c) with
           | Some o0 =>
               o = o0 /\ queries c' = queries c
               /\ map fst (objects c') = map fst (objects c)
           | None =>
               queries c' = insert_property (fst (serialize k)) o (queries c)
               /\ (array_index (fst (serialize k)) = None ->
                   queries c' = queries c ++ [(fst (serialize k), o)])
               /\ lookup_object o (objects c) = None
           end
        /\ (k <> VBool true ->
            fst (queryKeySerializerFn shared k) = fst (serialize k) ->
            getQuery shared (PVal k) c' = Some o)).
Proof.
  intros Hwf Hkeyed. split; [now apply cache_buildQuery_throws |].
  intros Hinh.
  destruct (cache_buildQuery_registers shared serialize k cfg c Hwf Hinh)
    as (o & c' & H1 & H2 & H3 & H4 & H5 & (d & D1 & D2 & D3 & _) & H7 & H8).
  exists o, c'. split; [exact H1 |]. split; [exact H2 |].
  split.
  { apply (cache_buildQuery_keyed serialize k cfg c c' Hinh); [| exact Hkeyed].
    destruct (lookup_hash (fst (serialize k)) (queries c));
      [apply H7 | exists o; apply H7]. }
  split; [exact H3 |]. split; [exact H4 |]. split; [exact H5 |].
  split; [exists d; repeat split; assumption |].
  split; [| exact H8].
  destruct (lookup_hash (fst (serialize k)) (queries c)); [exact H7 |].
  destruct H7 as (H7 & H9). split; [exact H7 |]. split; [| exact H9].
  intros Hidx. rewrite H7. unfold insert_property. now rewrite Hidx.
Qed.

Lemma example_build_well_formed k initial c :
  well_formed c -> well_formed (example_build k initial c).
Proof.
  intros Hwf. unfold example_build.
  destruct (inherited (fst (queryKeySerializerFn example_codec (VStr k))))
    eqn:Hinh.
  - destruct (cache_buildQuery _ _ _ _) as [[o c'] |] eqn:Hb; [| exact Hwf].
    unfold cache_buildQuery in Hb.
    destruct (queryKeySerializerFn example_codec (VStr k)) as [h key].
    cbn [fst] in Hinh.
    destruct (lookup_hash h (queries c)) as [o0 |]; [| now rewrite Hinh in Hb].
    injection Hb as <- <-. apply on_object_well_formed; [| exact Hwf].
    intros w. unfold buildQuery_existing.
    apply (fresh_buildQuery_finish _ (on_entry (set_config _) w)).
  - destruct (cache_buildQuery_registers example_codec
                (queryKeySerializerFn example_codec) (VStr k)
                (example_config true (RetryCount 2) 0 initial) c Hwf Hinh)
      as (o & c' & -> & Hwf' & _).
    exact Hwf'.
Qed.

Lemma example_build_keyed k initial c :
  well_formed c -> keyed_as_object c ->
  keyed_as_object (example_build k initial c).
Proof.
  intros Hwf Hk. unfold example_build.
  destruct (inherited (fst (queryKeySerializerFn example_codec (VStr k))))
    eqn:Hinh.
  - now rewrite (cache_buildQuery_throws _ _ _ c Hk Hinh).
  - destruct (cache_buildQuery_registers example_codec
                (queryKeySerializerFn example_codec) (VStr k)
                (example_config true (RetryCount 2) 0 initial) c Hwf Hinh)
      as (o & c' & -> & _ & _ & _ & _ & _ & H7 & _).
    apply (cache_buildQuery_keyed (queryKeySerializerFn example_codec)
             (VStr k) (example_config true (RetryCount 2) 0 initial) c c'
             Hinh); [| exact Hk].
    destruct (lookup_hash _ (queries c)); [apply H7 | exists o; apply H7].
Qed.

Lemma example_numbered_cache_well_formed : well_formed example_numbered_cache.
Proof. apply example_build_well_formed, empty_cache_well_formed. Qed.

Lemma example_numbered_cache_keyed : keyed_as_object example_numbered_cache.
Proof.
  apply example_build_keyed;
    [apply empty_cache_well_formed | apply empty_cache_keyed].
Qed.

Lemma buildQuery_registers_once_witness :
  well_formed example_numbered_cache
  /\ keyed_as_object example_numbered_cache
  /\ map fst (queries example_numbered_cache) = ["10"]
  /\ cache_buildQuery (queryKeySerializerFn example_codec)
       (VStr "constructor") (example_config true (RetryCount 2) 0 VUndefined)
       example_numbered_cache = None
  /\ exists o c',
       cache_buildQuery (queryKeySerializerFn example_codec) (VStr "2")
         (example_config true (RetryCount 2) 0 VUndefined)
         example_numbered_cache = Some (o, c')
       /\ map fst (queries c') = ["2"; "10"]
       /\ getQuery example_codec (PVal (VStr "2")) c' = Some o.
Proof.
  split; [exact example_numbered_cache_well_formed |].
  split; [exact example_numbered_cache_keyed |].
  split; [reflexivity |].
  split.
  - apply (buildQuery_registers_once example_codec
             (queryKeySerializerFn example_codec) (VStr "constructor")
             (example_config true (RetryCount 2) 0 VUndefined)
             example_numbered_cache example_numbered_cache_well_formed
             example_numbered_cache_keyed).
    reflexivity.
  - destruct (buildQuery_registers_once example_codec
                (queryKeySerializerFn example_codec) (VStr "2")
                (example_config true (RetryCount 2) 0 VUndefined)
                example_numbered_cache example_numbered_cache_well_formed
                example_numbered_cache_keyed)
      as (_ & Hbuilt).
    destruct (Hbuilt eq_refl)
      as (o & c' & H1 & _ & _ & _ & _ & _ & _ & H7 & H8).
    exists o, c'. split; [exact H1 |].
    split; [| apply H8; [discriminate | reflexivity]].
    assert (E : lookup_hash
                  (fst (queryKeySerializerFn example_codec (VStr "2")))
                  (queries example_numbered_cache) = None) by reflexivity.
    rewrite E in H7. destruct H7 as (-> & _). reflexivity.
Defined.

(** *** Lists *)

Lemma filter_all {A} (f : A -> bool) l :
  (forall x, In x l -> f x = true) -> filter f l = l.
Proof.
  induction l as [| a l IH]; intros H; cbn; [reflexivity |].
  rewrite (H a (or_introl eq_refl)). f_equal. apply IH.
  intros x Hx. apply H. now right.
Qed.

Lemma filter_none {A} (f : A -> bool) l :
  (forall x, In x l -> f x = false) -> filter f l = [].
Proof.
  induction l as [| a l IH]; intros H; cbn; [reflexivity |].
  rewrite (H a (or_introl eq_refl)). apply IH.
  intros x Hx. apply H. now right.
Qed.

Lemma filter_filter {A} (f g : A -> bool) l :
  filter f (filter g l) = filter (fun x => g x && f x) l.
Proof.
  induction l as [| a l IH]; cbn; [reflexivity |].
  destruct (g a); cbn; [destruct (f a) |]; now rewrite IH.
Qed.

Lemma existsb_eqb_In o l : existsb (Nat.eqb o) l = true <-> In o l.
Proof.
  rewrite existsb_exists. split.
  - intros (x & Hx & Heq). apply Nat.eqb_eq in Heq. now subst.
  - intros H. exists o. split; [exact H | apply Nat.eqb_refl].
Qed.

Lemma NoDup_map_filter {A B} (f : A -> B) (g : A -> bool) l :
  NoDup (map f l) -> NoDup (map f (filter g l)).
Proof.
  induction l as [| a l IH]; cbn; intros H; [constructor |].
  inversion H as [| ? ? Hnot Hnd]; subst.
  destruct (g a); cbn; [| now apply IH].
  constructor; [| now apply IH].
  intros Hin. apply Hnot. apply in_map_iff in Hin.
  destruct Hin as (x & Hx & Hin). apply filter_In in Hin.
  apply in_map_iff. exists x. now split.
Qed.

Lemma NoDup_snd_unique {A B} (l : list (A * B)) h h' o :
  NoDup (map snd l) -> In (h, o) l -> In (h', o) l -> h = h'.
Proof.
  induction l as [| [a b] l IH]; cbn; intros Hnd H1 H2; [contradiction |].
  inversion Hnd as [| ? ? Hnot Hnd']; subst.
  destruct H1 as [[= -> ->] | H1], H2 as [[= ->] | H2].
  - reflexivity.
  - exfalso. apply Hnot. now apply (in_map snd) in H2.
  - subst. exfalso. apply Hnot. now apply (in_map snd) in H1.
  - now apply IH.
Qed.

(** *** The entries [getQueries] selects *)

Lemma getQueries_as_filter shared p exact :
  exists g, forall c, well_formed c ->
    getQueries shared p exact c = filter (holds g c) (map snd (queries c)).
Proof.
  destruct p as [f | v].
  - exists f. reflexivity.
  - assert (Hdec : v = VBool true \/ v <> VBool true).
    { destruct v as [| | [|] | | |]; (now left) || (right; discriminate). }
    destruct Hdec as [-> | Hv].
    + exists (fun _ => true). intros c Hwf. cbn. symmetry.
      apply filter_all. intros o Ho. apply in_map_iff in Ho.
      destruct Ho as ([h o'] & <- & Hin).
      destruct (registered_exist c Hwf h o' Hin) as (d & Hd & _).
      unfold holds. cbn. now rewrite Hd.
    + eexists. intros c _. now apply getQueries_key.
Qed.

Lemma getQueries_registered shared p exact c o :
  well_formed c ->
  In o (getQueries shared p exact c) -> In o (map snd (queries c)).
Proof.
  intros Hwf. destruct (getQueries_as_filter shared p exact) as [g Hg].
  rewrite (Hg c Hwf). intros H. now apply filter_In in H.
Qed.

Lemma getQueries_NoDup shared p exact c :
  well_formed c -> NoDup (getQueries shared p exact c).
Proof.
  intros Hwf. destruct (getQueries_as_filter shared p exact) as [g Hg].
  rewrite (Hg c Hwf). apply NoDup_filter. apply (registered_once c Hwf).
Qed.

Lemma getQueries_exist shared p exact c o :
  well_formed c ->
  In o (getQueries shared p exact c) ->
  exists d, lookup_object o (objects c) = Some d.
Proof.
  intros Hwf Ho. apply (getQueries_registered _ _ _ _ _ Hwf) in Ho.
  apply in_map_iff in Ho. destruct Ho as ([h o'] & <- & Hin).
  destruct (registered_exist c Hwf h o' Hin) as (d & Hd & _). now exists d.
Qed.

(** *** A method called on each entry of a list *)

Section ForEach.

Variable f : world -> world.
Variable Q : query -> query -> Prop.
Hypothesis f_grows : forall w, (fresh w <= fresh (f w))%nat.
Hypothesis f_Q : forall w, Q (entry w) (entry (f w)).

Lemma for_each_object l : forall c,
  well_formed c -> NoDup l ->
  let c' := fold_left (fun c o => on_object o f c) l c in
  well_formed c'
  /\ queries c' = queries c
  /\ (forall o, ~ In o l ->
      lookup_object o (objects c') = lookup_object o (objects c))
  /\ (forall o d, In o l -> lookup_object o (objects c) = Some d ->
      exists d',
        lookup_object o (objects c') = Some d'
        /\ queryHash d' = queryHash d
        /\ queryKey d' = queryKey d
        /\ Q (fields d) (fields d')).
Proof.
  induction l as [| a l IH]; intros c Hwf Hnd; cbn.
  - split; [exact Hwf |]. split; [reflexivity |].
    split; [reflexivity |]. intros; contradiction.
  - inversion Hnd as [| ? ? Hnot Hnd']; subst.
    destruct (IH (on_object a f c) (on_object_well_formed a f c f_grows Hwf)
                Hnd') as (Hwf' & Hq' & Hother & Hsel).
    split; [exact Hwf' |].
    split; [now rewrite Hq', on_object_queries |].
    split.
    + intros o Ho. rewrite Hother by tauto. apply on_object_other.
      intros ->. apply Ho. now left.
    + intros o d [-> | Hin] Hd.
      * destruct (on_object_fields o f c d (Q (fields d)) Hd)
          as (d1 & Hd1 & Hh1 & Hk1 & HQ1).
        { intros w Hw. rewrite <- Hw. apply f_Q. }
        exists d1. now rewrite (Hother o Hnot).
      * assert (Hne : o <> a) by (intros ->; contradiction).
        apply (Hsel o d Hin). now rewrite on_object_other.
Qed.

Lemma for_each_invocations l : forall c,
  (forall w, invocations (f w) = invocations w) ->
  c_invocations (fold_left (fun c o => on_object o f c) l c)
  = c_invocations c.
Proof.
  induction l as [| a l IH]; intros c Hf; cbn; [reflexivity |].
  rewrite IH by exact Hf. now apply on_object_invocations.
Qed.

End ForEach.

Lemma cancel_frame_entry w :
  instances (entry (cancel w)) = instances (entry w)
  /\ refetchIntervalId (entry (cancel w)) = None.
Proof.
  unfold cancel, cancelInterval. cbn.
  destruct (cancelPromises (entry w)); cbn; repeat split.
Qed.

(** X16. [cancelQueries] cancels each entry it selects and nothing else:
    the in-flight operation and the refetch interval of a selected entry are
    dropped and its cancellation marker is set, while its state snapshot
    ([isFetching] included), its subscribers and its registration stay as
    they were; no other entry changes and no query function is called. *)
Theorem cancelQueries_cancels_selected (shared : codec) (p : predicate)
  (exact : bool) (c : cache) :
  well_formed c ->
  let c' := cancelQueries shared p exact c in
  well_formed c'
  /\ queries c' = queries c
  /\ c_invocations c' = c_invocations c
  /\ (forall o, ~ In o (getQueries shared p exact c) ->
      lookup_object o (objects c') = lookup_object o (objects c))
  /\ (forall o, In o (getQueries shared p exact c) ->
      exists d d',
        lookup_object o (objects c) = Some d
        /\ lookup_object o (objects c') = Some d'
        /\ promise (fields d') = None
        /\ cancelled (fields d') = cancelledError
        /\ refetchIntervalId (fields d') = None
        /\ state (fields d') = state (fields d)
        /\ instances (fields d') = instances (fields d)).
Proof.
  intros Hwf c'. subst c'. unfold cancelQueries.
  destruct (for_each_object cancel
              (fun q q' =>
                 promise q' = None /\ cancelled q' = cancelledError
                 /\ refetchIntervalId q' = None /\ state q' = state q
                 /\ instances q' = instances q)
              (fun w => Nat.eq_le_incl _ _ (eq_sym (fresh_cancel w))))
    with (l := getQueries shared p exact c) (c := c)
    as (Hwf' & Hq' & Hother & Hsel).
  { intros w. destruct (cancel_frame w) as (_ & _ & _ & _ & _ & H6 & H7 & H8).
    destruct (cancel_frame_entry w) as (H9 & H10). repeat split; assumption. }
  { exact Hwf. }
  { now apply getQueries_NoDup. }
  split; [exact Hwf' |]. split; [exact Hq' |].
  split; [apply for_each_invocations; intros w; apply cancel_frame |].
  split; [exact Hother |].
  intros o Ho. destruct (getQueries_exist _ _ _ _ _ Hwf Ho) as [d Hd].
  destruct (Hsel o d Ho Hd) as (d' & Hd' & _ & _ & HQ).
  exists d, d'. split; [exact Hd |]. split; [exact Hd' |]. exact HQ.
Qed.

Lemma example_cache_well_formed : well_formed example_cache.
Proof.
  unfold example_cache.
  repeat apply example_build_well_formed. apply empty_cache_well_formed.
Qed.


Lemma cancelQueries_cancels_selected_witness :
  well_formed example_cache
  /\ queries (cancelQueries example_codec (PVal (VBool true)) false
                example_cache)
     = queries example_cache
  /\ c_invocations (cancelQueries example_codec (PVal (VBool true)) false
                      example_cache)
     = c_invocations example_cache.
Proof.
  split; [exact example_cache_well_formed |].
  destruct (cancelQueries_cancels_selected example_codec (PVal (VBool true))
              false example_cache example_cache_well_formed)
    as (_ & H2 & H3 & _).
  split; [exact H2 | exact H3].
Defined.

(** *** Entries removed *)

Lemma delete_hash_object c h o :
  well_formed c -> In (h, o) (queries c) ->
  delete_hash h (queries c)
  = filter (fun x => negb (Nat.eqb (snd x) o)) (queries c).
Proof.
  intros Hwf Hin. unfold delete_hash. apply filter_ext_in.
  intros [h' o'] Hin'. cbn. f_equal.
  destruct (String.eqb_spec h' h) as [-> | Hh], (Nat.eqb_spec o' o) as [-> | Ho];
    try reflexivity; exfalso.
  - apply Ho.
    pose proof (lookup_hash_unique h o' _ (hashes_unique c Hwf) Hin') as E1.
    pose proof (lookup_hash_unique h o _ (hashes_unique c Hwf) Hin) as E2.
    congruence.
  - apply Hh. exact (NoDup_snd_unique _ _ _ _ (registered_once c Hwf) Hin' Hin).
Qed.

Lemma well_formed_unregister c g :
  well_formed c -> well_formed (set_queries (filter g (queries c)) c).
Proof.
  intros Hwf. constructor; cbn.
  - apply NoDup_map_filter, (hashes_unique c Hwf).
  - apply NoDup_map_filter, (registered_once c Hwf).
  - apply (objects_unique c Hwf).
  - intros h o Hin. apply filter_In in Hin.
    now apply (registered_exist c Hwf).
  - apply (objects_below_fresh c Hwf).
Qed.

Lemma query_remove_frame w :
  fresh (query_remove w) = fresh w
  /\ invocations (query_remove w) = invocations w.
Proof.
  destruct (cancel_frame w) as (_ & Hi & Hf & _).
  unfold query_remove. cbv zeta. unfold emit. cbn [fresh invocations].
  now split.
Qed.

Lemma cache_remove_registered c h o :
  well_formed c -> In (h, o) (queries c) ->
  well_formed (cache_remove o c)
  /\ queries (cache_remove o c)
     = filter (fun x => negb (Nat.eqb (snd x) o)) (queries c)
  /\ c_invocations (cache_remove o c) = c_invocations c
  /\ (forall o', o' <> o ->
      lookup_object o' (objects (cache_remove o c))
      = lookup_object o' (objects c)).
Proof.
  intros Hwf Hin.
  destruct (registered_exist c Hwf h o Hin) as (d & Hd & Hh).
  destruct (on_object_quiet o query_remove c d (fun _ => True) Hwf)
    as (Hwf1 & Hq1 & Hi1 & Ho1 & d1 & Hd1 & Hh1 & _);
    try assumption.
  { intros w. rewrite (proj1 (query_remove_frame w)). lia. }
  { intros w. apply query_remove_frame. }
  { trivial. }
  unfold cache_remove. cbv zeta. rewrite Hd1, Hh1, Hh, Hq1.
  rewrite (delete_hash_object c h o Hwf Hin), <- Hq1.
  split; [now apply well_formed_unregister |].
  split; [reflexivity |]. split; [exact Hi1 | exact Ho1].
Qed.

Lemma remove_each l : forall c,
  well_formed c -> NoDup l ->
  (forall o, In o l -> In o (map snd (queries c))) ->
  let c' := fold_left (fun c o => cache_remove o c) l c in
  well_formed c'
  /\ queries c'
     = filter (fun x => negb (existsb (Nat.eqb (snd x)) l)) (queries c)
  /\ c_invocations c' = c_invocations c
  /\ (forall o', ~ In o' l ->
      lookup_object o' (objects c') = lookup_object o' (objects c)).
Proof.
  induction l as [| a l IH]; intros c Hwf Hnd Hreg; cbn.
  - split; [exact Hwf |].
    split; [symmetry; now apply filter_all |].
    split; reflexivity.
  - inversion Hnd as [| ? ? Hnot Hnd']; subst.
    assert (Ha : In a (map snd (queries c))) by (apply Hreg; now left).
    apply in_map_iff in Ha. destruct Ha as ([h a'] & Heq & Hin).
    cbn in Heq. subst a'.
    destruct (cache_remove_registered c h a Hwf Hin)
      as (Hwf1 & Hq1 & Hi1 & Ho1).
    destruct (IH (cache_remove a c) Hwf1 Hnd') as (Hwf' & Hq' & Hi' & Ho').
    { intros o Ho. rewrite Hq1.
      assert (Hr : In o (map snd (queries c))) by (apply Hreg; now right).
      apply in_map_iff in Hr. destruct Hr as ([h' o'] & Heq & Hin').
      cbn in Heq. subst o'. apply in_map_iff. exists (h', o).
      split; [reflexivity |]. apply filter_In. split; [exact Hin' |].
      cbn. destruct (Nat.eqb_spec o a) as [-> | _]; [contradiction |].
      reflexivity. }
    split; [exact Hwf' |].
    split.
    { rewrite Hq', Hq1, filter_filter. apply filter_ext. intros x.
      cbn [existsb]. now rewrite negb_orb. }
    split; [now rewrite Hi' |].
    intros o' Hno. rewrite Ho' by tauto. apply Ho1.
    intros ->. apply Hno. now left.
Qed.

(** X17. [removeQueries] unregisters exactly the entries it selects: they
    disappear from the directory, the others stay registered, in their
    order, and are not touched, and no query function is called.  The same
    selection made afterwards is empty. *)
Theorem removeQueries_unregisters_selected (shared : codec) (p : predicate)
  (exact : bool) (c : cache) :
  well_formed c ->
  let sel := getQueries shared p exact c in
  let c' := removeQueries shared p exact c in
  well_formed c'
  /\ queries c'
     = filter (fun x => negb (existsb (Nat.eqb (snd x)) sel)) (queries c)
  /\ c_invocations c' = c_invocations c
  /\ (forall o, ~ In o sel ->
      lookup_object o (objects c') = lookup_object o (objects c))
  /\ getQueries shared p exact c' = [].
Proof.
  intros Hwf sel c'. subst c'. unfold removeQueries. fold sel.
  destruct (remove_each sel c Hwf (getQueries_NoDup shared p exact c Hwf)
              (fun o => getQueries_registered shared p exact c o Hwf))
    as (Hwf' & Hq' & Hi' & Ho').
  repeat (split; [assumption |]).
  destruct (getQueries_as_filter shared p exact) as [g Hg].
  rewrite (Hg _ Hwf'). apply filter_none.
  intros o Hin. rewrite Hq' in Hin. apply in_map_iff in Hin.
  destruct Hin as ([h o'] & Heq & Hin). cbn in Heq. subst o'.
  apply filter_In in Hin. destruct Hin as (Hin & Hsel). cbn in Hsel.
  assert (Hno : ~ In o sel).
  { intros H. apply existsb_eqb_In in H. rewrite H in Hsel. discriminate. }
  unfold holds. rewrite (Ho' o Hno).
  destruct (lookup_object o (objects c)) as [d |] eqn:Hd; [| reflexivity].
  destruct (g d) eqn:Hgd; [| reflexivity].
  exfalso. apply Hno. unfold sel. rewrite (Hg c Hwf). apply filter_In.
  split; [apply in_map_iff; exists (h, o); now split |].
  unfold holds. now rewrite Hd.
Qed.

Lemma removeQueries_unregisters_selected_witness :
  well_formed example_cache
  /\ queries (removeQueries example_codec (PVal (VStr "a")) false
                example_cache) = [("c", 2%nat)]
  /\ getQueries example_codec (PVal (VStr "a")) false
       (removeQueries example_codec (PVal (VStr "a")) false example_cache)
     = [].
Proof.
  split; [exact example_cache_well_formed |].
  destruct (removeQueries_unregisters_selected example_codec
              (PVal (VStr "a")) false example_cache
              example_cache_well_formed)
    as (_ & H2 & _ & _ & H5).
  split; [| exact H5].
  rewrite H2. reflexivity.
Defined.

(** *** Data written through the directory *)



Lemma setData_data u w d :
  functionalUpdate_data u (State.data (state (entry w))) = Some d ->
  State.data (state (entry (setData u w))) = d.
Proof.
  intros Hu. unfold setData.
  destruct (scheduleStaleTimeout_frame
              (dispatch
                 (Action.mk actionSuccess VUndefined VUndefined false false
                    u VUndefined false VUndefined) w))
    as (_ & -> & _).
  unfold dispatch, queryReducer. open_world w.
  match goal with st : State.t |- _ => destruct st end.
  cbn in Hu. cbn. rewrite Hu. reflexivity.
Qed.

Lemma getQuery_exact shared k c :
  well_formed c -> k <> VBool true ->
  getQuery shared (PVal k) c
  = lookup_hash (fst (queryKeySerializerFn shared k)) (queries c).
Proof.
  intros Hwf Hk. unfold getQuery. rewrite (getQueries_exact shared k c Hwf Hk).
  now destruct (lookup_hash _ _).
Qed.




(** X19. Without [exact], [setQueryData] writes to every entry whose key
    includes the key given and builds nothing when there is one: if the key
    itself has no entry, it still has none afterwards, and [getQueryData]
    with that key reads [undefined]. *)
Theorem setQueryData_inexact_builds_nothing (shared : codec)
  (serialize : value -> string * list value) (k : value)
  (u : option updater) (cfg : Config.t) (c : cache) :
  well_formed c ->
  k <> VBool true ->
  getQueries shared (PVal k) false c <> [] ->
  getQuery shared (PVal k) c = None ->
  exists c',
    setQueryData shared serialize (PVal k) u false cfg c = Some c'
    /\ well_formed c'
    /\ queries c' = queries c
    /\ getQuery shared (PVal k) c' = None
    /\ getQueryData shared (PVal k) c' = VUndefined
    /\ (forall o d0 d,
          In o (getQueries shared (PVal k) false c) ->
          lookup_object o (objects c) = Some d0 ->
          functionalUpdate_data u (State.data (state (fields d0))) = Some d ->
          exists d',
            lookup_object o (objects c') = Some d'
            /\ State.data (state (fields d')) = d)
    /\ (forall o, ~ In o (getQueries shared (PVal k) false c) ->
        lookup_object o (objects c') = lookup_object o (objects c)).
Proof.
  intros Hwf Hk Hsome Hnone. unfold setQueryData.
  pose proof (getQueries_NoDup shared (PVal k) false c Hwf) as Hnd.
  destruct (getQueries shared (PVal k) false c) as [| a l] eqn:Hsel;
    [contradiction |].
  destruct (for_each_object (setData u)
              (fun q q' =>
                 forall d,
                   functionalUpdate_data u (State.data (state q)) = Some d ->
                   State.data (state q') = d)
              (fresh_setData u))
    with (l := a :: l) (c := c)
    as (Hwf' & Hq' & Hother & Hdone); try assumption.
  { intros w d Hu. now apply setData_data. }
  eexists. split; [reflexivity |].
  assert (Hg : getQuery shared (PVal k)
                 (fold_left (fun c o => on_object o (setData u) c) (a :: l) c)
               = None).
  { rewrite (getQuery_exact shared k _ Hwf' Hk), Hq'.
    now rewrite <- (getQuery_exact shared k c Hwf Hk). }
  split; [exact Hwf' |]. split; [exact Hq' |]. split; [exact Hg |].
  split; [unfold getQueryData; now rewrite Hg |].
  split; [| exact Hother].
  intros o d0 d Hin Hd0 Hu.
  destruct (Hdone o d0 Hin Hd0) as (d' & Hd' & _ & _ & HQ).
  exists d'. split; [exact Hd' | now apply HQ].
Qed.

Lemma setQueryData_inexact_builds_nothing_witness :
  well_formed example_cache
  /\ exists c',
       setQueryData example_codec (queryKeySerializerFn example_codec)
         (PVal (VStr "a")) (Some (DataVal (VNum 3))) false
         (example_config true (RetryCount 2) 0 VUndefined) example_cache
       = Some c'
       /\ getQueryData example_codec (PVal (VStr "a")) c' = VUndefined
       /\ getQueryData example_codec (PVal (VStr "ab")) c' = VNum 3.
Proof.
  split; [exact example_cache_well_formed |].
  destruct (setQueryData_inexact_builds_nothing example_codec
              (queryKeySerializerFn example_codec) (VStr "a")
              (Some (DataVal (VNum 3)))
              (example_config true (RetryCount 2) 0 VUndefined)
              example_cache example_cache_well_formed)
    as (c' & H1 & _ & _ & _ & H5 & _).
  - discriminate.
  - vm_compute. discriminate.
  - vm_compute. reflexivity.
  - exists c'. split; [exact H1 |]. split; [exact H5 |].
    vm_compute in H1. injection H1 as <-. vm_compute. reflexivity.
Defined.

(** *** Entries invalidated *)









